(** * superglue: the LLM orchestration and resilience layer

    A shallow embedding of

      - packages/core/llm/cache.ts          (LLMResponseCache)
      - packages/core/llm/gemini-model.ts   (cleanSchemaForGemini,
                                             convertToGeminiHistory, generateText,
                                             generateObject)
      - packages/core/llm/openai-model.ts   (enforceStrictSchema, generateObject,
                                             generateText)
      - packages/core/utils/instructions.ts (generateInstructions and its sanitizer)
      - the Queue class                     (enqueue, processQueue)
      - the integration resolvers           (resolveField, needsDocFetch and the
                                             record that an upsert stores)

    Part I holds the definitions, one module per source file.  Part II holds
    the theorems.

    Conventions.  JavaScript values that travel through these functions are
    JSON data ([JS.JSON]); [undefined] is the [None] of an [option].  A string
    is a [string] whose characters are read as UTF-16 code units below 256.
    A thrown [Error] is [JS.Throw] carrying the error's message.  [Date.now()]
    and the other readings of the environment are explicit arguments. *)

From Stdlib Require Import ZArith List String Ascii Bool Lia.
From Stdlib Require Import PrimFloat Uint63 DecimalString.
From stdpp Require Import base list strings gmap sorting.
Import ListNotations.

Set Warnings "-inexact-float,-register-all".
Local Open Scope string_scope.
Local Open Scope Z_scope.

(* ===================================================================== *)
(** * Part I.  Definitions                                                *)
(* ===================================================================== *)

(** ** JavaScript values and plain objects *)

Module JS.

(** The values of JSON.  A number is an integer here: none of the modelled
    functions computes with the numbers of a schema or of a reply, they only
    test them for zero. *)
Inductive JSON : Type :=
| JNull
| JBool (b : bool)
| JNum (n : Z)
| JStr (s : string)
| JArr (items : list JSON)
| JObj (members : list (string * JSON)).

(** The own enumerable properties of a plain object, in the order the
    engine enumerates them. *)
Definition Obj : Type := list (string * JSON).

(** The outcome of a call that may throw. *)
Inductive Result (A : Type) : Type :=
| Ok (a : A)
| Throw (message : string).
Arguments Ok {A} a.
Arguments Throw {A} message.

Definition bind {A B} (r : Result A) (k : A -> Result B) : Result B :=
  match r with
  | Ok a => k a
  | Throw e => Throw e
  end.

(** [ToBoolean]: what [if (v)] and [!v] test. *)
Definition truthy (v : JSON) : bool :=
  match v with
  | JNull => false
  | JBool b => b
  | JNum n => negb (n =? 0)
  | JStr s => negb (s =? "")%string
  | JArr _ => true
  | JObj _ => true
  end.

(** [typeof v === 'object'], which holds of [null] too. *)
Definition typeof_object (v : JSON) : bool :=
  match v with
  | JNull | JArr _ | JObj _ => true
  | _ => false
  end.

(** *** Property keys *)

Definition is_digit (c : ascii) : bool :=
  ((48 <=? nat_of_ascii c) && (nat_of_ascii c <=? 57))%nat.

Fixpoint digits_value (s : string) (acc : N) : option N :=
  match s with
  | EmptyString => Some acc
  | String c s' =>
      if is_digit c
      then digits_value s' (10 * acc + (N_of_ascii c - 48))%N
      else None
  end.

(** An array index is the canonical decimal form of an integer below
    [2^32 - 1]; such keys are enumerated first, in numeric order. *)
Definition array_index (k : string) : option N :=
  match k with
  | EmptyString => None
  | String c rest =>
      if (Ascii.eqb c "0" && negb (rest =? "")%string)%bool then None
      else match digits_value k 0 with
           | Some n => if (n <? 4294967295)%N then Some n else None
           | None => None
           end
  end.

Definition string_of_nat (n : nat) : string :=
  NilEmpty.string_of_uint (Nat.to_uint n).

Definition string_of_Z (z : Z) : string :=
  match z with
  | Z0 => "0"
  | Zpos p => string_of_nat (Pos.to_nat p)
  | Zneg p => "-" ++ string_of_nat (Pos.to_nat p)
  end.

(** *** Reading, writing and deleting properties of a plain object *)

Fixpoint obj_get (k : string) (o : Obj) : option JSON :=
  match o with
  | [] => None
  | (k', v) :: o' => if (k =? k')%string then Some v else obj_get k o'
  end.

Definition obj_has (k : string) (o : Obj) : bool :=
  match obj_get k o with Some _ => true | None => false end.

Fixpoint obj_replace (k : string) (v : JSON) (o : Obj) : Obj :=
  match o with
  | [] => []
  | (k', v') :: o' =>
      if (k =? k')%string then (k', v) :: o' else (k', v') :: obj_replace k v o'
  end.

(** Where a new array-index key goes: before the first key that is not an
    array index or is a larger one. *)
Fixpoint obj_insert_index (n : N) (k : string) (v : JSON) (o : Obj) : Obj :=
  match o with
  | [] => [(k, v)]
  | (k', v') :: o' =>
      match array_index k' with
      | Some n' =>
          if (n' <? n)%N then (k', v') :: obj_insert_index n k v o'
          else (k, v) :: o
      | None => (k, v) :: o
      end
  end.

(** [o[k] = v] for a key other than [__proto__]: an existing property
    keeps its place; a new one is created, after the others unless it is
    an array index. *)
Definition obj_set (k : string) (v : JSON) (o : Obj) : Obj :=
  if obj_has k o then obj_replace k v o
  else match array_index k with
       | Some n => obj_insert_index n k v o
       | None => (o ++ [(k, v)])%list
       end.

(** [result[key] = v] on an object created by [{}] with an arbitrary key:
    assigning to [__proto__] runs the inherited setter and creates no own
    property. *)
Definition obj_assign (k : string) (v : JSON) (o : Obj) : Obj :=
  if (k =? "__proto__")%string then o else obj_set k v o.

(** [delete o[k]]. *)
Fixpoint obj_delete (k : string) (o : Obj) : Obj :=
  match o with
  | [] => []
  | (k', v') :: o' =>
      if (k =? k')%string then obj_delete k o' else (k', v') :: obj_delete k o'
  end.

(** [v.k] on a value other than [null].  None of the keys read by the
    modelled code is a property of an array, a string, a number or a
    boolean, so only plain objects answer. *)
Definition prop (v : JSON) (k : string) : option JSON :=
  match v with
  | JObj o => obj_get k o
  | _ => None
  end.

(** [v.k === s] *)
Definition prop_is (v : JSON) (k s : string) : bool :=
  match prop v k with
  | Some (JStr s') => (s' =? s)%string
  | _ => false
  end.

Definition index_keys (n : nat) : list string :=
  List.map string_of_nat (seq 0 n).

(** [Object.keys(v)] for a truthy [v]. *)
Definition Object_keys (v : JSON) : list string :=
  match v with
  | JObj o => List.map fst o
  | JArr items => index_keys (List.length items)
  | JStr s => index_keys (String.length s)
  | _ => []
  end.

(** Run [body] on [o[k]], or take [missing] when [o] has no own [k]. *)
Definition on_prop {A} (k : string) (body : JSON -> A) (missing : A) : Obj -> A :=
  fix go (o : Obj) : A :=
    match o with
    | [] => missing
    | (k', v) :: o' => if (k =? k')%string then body v else go o'
    end.

(** [for (const x of xs) body(x)] where [body] may throw. *)
Definition for_each {X} (body : X -> Result unit) : list X -> Result unit :=
  fix go (xs : list X) : Result unit :=
    match xs with
    | [] => Ok tt
    | x :: xs' => bind (body x) (fun _ => go xs')
    end.

Definition null_read (p : string) : string :=
  "Cannot read properties of null (reading '" ++ p ++ "')".

(** [JSON.parse], which throws a [SyntaxError] on malformed text. *)
Class Parser : Type := { JSON_parse : string -> Result JSON }.

(** The members of [m] that a list of keys selects. *)
Definition select (m : Obj) (ks : list string) : Obj :=
  flat_map (fun k => match obj_get k m with Some v => [(k, v)] | None => [] end) ks.

(** The default order of [Array.prototype.sort]: strings compared code
    unit by code unit. *)
Definition string_le (s1 s2 : string) : Prop := String.leb s1 s2 = true.

#[export] Instance string_le_dec s1 s2 : Decision (string_le s1 s2).
Proof. unfold string_le. apply _. Defined.

Definition sort (ks : list string) : list string := merge_sort string_le ks.

End JS.

(** ** packages/core/llm/cache.ts *)

Module Cache.
Import JS.

(** A chat message: the two fields the key is made of, and whatever else
    the message carries ([name], [tool_calls], ...). *)
Record Message : Type := mkMessage {
  role : string;
  content : option JSON;
  transient : Obj
}.

(** The object that is stringified and hashed.  [JSON.stringify] leaves out
    a property whose value is [undefined]: the [None]s below. *)
Record KeyObj : Type := mkKeyObj {
  ko_messages : list (string * option JSON);
  ko_temperature : float;
  ko_schema : option JSON
}.

(** [JSON.stringify] and [createHash('md5')...digest('hex')] belong to the
    platform. *)
Class Platform : Type := {
  JSON_stringify : KeyObj -> string;
  md5_hex : string -> string
}.

(** The callback of the [reduce] in [normalizeObject]: [result[key]] is
    assigned the normalised [obj[key]], looked up in [normalized]. *)
Definition assign_from (normalized : Obj) (result : Obj) (key : string) : Obj :=
  match obj_get key normalized with
  | Some v => obj_assign key v result
  | None => result
  end.

(** [normalizeObject].  The source normalises [obj[key]] while it folds
    over the sorted keys; here every member is normalised first and the
    fold looks the normalised value up, which is the same value. *)
Fixpoint normalizeObject (obj : JSON) : JSON :=
  match obj with
  | JArr items => JArr (List.map normalizeObject items)
  | JObj members =>
      let normalized :=
        List.map (fun kv => (fst kv, normalizeObject (snd kv))) members in
      JObj (fold_left (assign_from normalized) (sort (List.map fst members)) [])
  | _ => obj
  end.

Definition normalized_member (kv : string * JSON) : string * JSON :=
  (fst kv, normalizeObject (snd kv)).

(** What a message contributes to the key: [{role: msg.role, content:
    msg.content}]. *)
Definition reduced (msg : Message) : string * option JSON := (role msg, content msg).

Definition keyObj (messages : list Message) (temperature : float)
    (schema : option JSON) : KeyObj :=
  {| ko_messages := List.map reduced messages;
     ko_temperature := temperature;
     ko_schema := match schema with
                  | Some s => if truthy s then Some (normalizeObject s) else None
                  | None => None
                  end |}.

Definition generateKey `{Platform} (messages : list Message)
    (temperature : float) (schema : option JSON) : string :=
  md5_hex (JSON_stringify (keyObj messages temperature schema)).

(** *** What the key can and cannot tell apart *)

(** Two values with the same content, the members of their objects listed
    in any order, at every level. *)
Inductive key_perm : JSON -> JSON -> Prop :=
| kp_null : key_perm JNull JNull
| kp_bool b : key_perm (JBool b) (JBool b)
| kp_num n : key_perm (JNum n) (JNum n)
| kp_str s : key_perm (JStr s) (JStr s)
| kp_arr items1 items2 :
    Forall2 key_perm items1 items2 ->
    key_perm (JArr items1) (JArr items2)
| kp_obj members1 reordered members2 :
    Permutation members1 reordered ->
    Forall2 (fun a b => fst a = fst b /\ key_perm (snd a) (snd b)) reordered members2 ->
    key_perm (JObj members1) (JObj members2).

(** The values whose content the normal form keeps: no object has a key
    twice, at any level, as in every JavaScript object; and no object has
    an own key [__proto__], which [normalizeObject] would not carry over. *)
Fixpoint proper (v : JSON) : bool :=
  match v with
  | JArr items => forallb proper items
  | JObj members =>
      bool_decide (NoDup (List.map fst members))
      && bool_decide ("__proto__" ∉ List.map fst members)
      && forallb (fun kv => proper (snd kv)) members
  | _ => true
  end.




(** *** The store: a JavaScript [Map], which keeps insertion order *)

Section Store.
Context {T : Type}.

Record CacheEntry : Type := mkEntry {
  timestamp : Z;
  value : T
}.

Definition Map : Type := list (string * CacheEntry).

Fixpoint Map_get (k : string) (m : Map) : option CacheEntry :=
  match m with
  | [] => None
  | (k', e) :: m' => if (k =? k')%string then Some e else Map_get k m'
  end.

Fixpoint Map_delete (k : string) (m : Map) : Map :=
  match m with
  | [] => []
  | (k', e) :: m' =>
      if (k =? k')%string then Map_delete k m' else (k', e) :: Map_delete k m'
  end.

(** [Map.prototype.set]: an existing key keeps its position. *)
Fixpoint Map_set (k : string) (e : CacheEntry) (m : Map) : Map :=
  match m with
  | [] => [(k, e)]
  | (k', e') :: m' =>
      if (k =? k')%string then (k', e) :: m' else (k', e') :: Map_set k e m'
  end.

Record LLMResponseCache : Type := mkCache {
  cache : Map;
  maxAge : Z;
  maxSize : Z;
  enabled : bool
}.

Definition with_cache (c : LLMResponseCache) (m : Map) : LLMResponseCache :=
  {| cache := m; maxAge := maxAge c; maxSize := maxSize c; enabled := enabled c |}.

Record Options : Type := mkOptions {
  opt_maxAge : option Z;
  opt_maxSize : option Z;
  opt_enabled : option bool
}.

(** [x || d] on an optional number: [undefined] and [0] are falsy. *)
Definition or_default (x : option Z) (d : Z) : Z :=
  match x with
  | Some v => if v =? 0 then d else v
  | None => d
  end.

Definition constructor (options : option Options) : LLMResponseCache :=
  {| cache := [];
     maxAge := or_default (options ≫= opt_maxAge) (60 * 60 * 1000);
     maxSize := or_default (options ≫= opt_maxSize) 1000;
     enabled := match options ≫= opt_enabled with
                | Some false => false
                | _ => true
                end |}.

Definition size (c : LLMResponseCache) : Z := Z.of_nat (List.length (cache c)).

(** The scan of [set]: [oldestTime] starts at [Infinity], so the first
    entry is always taken, and a later one only if strictly older. *)
Definition older (oldest : option (string * CacheEntry))
    (ke : string * CacheEntry) : option (string * CacheEntry) :=
  match oldest with
  | None => Some ke
  | Some o => if timestamp (snd ke) <? timestamp (snd o) then Some ke else oldest
  end.

Definition oldest_entry (m : Map) : option (string * CacheEntry) :=
  fold_left older m None.

Definition evict (c : LLMResponseCache) : Map :=
  if maxSize c <=? size c
  then match oldest_entry (cache c) with
       | Some o => Map_delete (fst o) (cache c)
       | None => cache c
       end
  else cache c.

(** [get] and [set] after the key is computed; [now] is [Date.now()]. *)
Definition get_key (c : LLMResponseCache) (key : string) (now : Z)
    : option T * LLMResponseCache :=
  if negb (enabled c) then (None, c)
  else match Map_get key (cache c) with
       | None => (None, c)
       | Some entry =>
           if maxAge c <? now - timestamp entry
           then (None, with_cache c (Map_delete key (cache c)))
           else (Some (value entry), c)
       end.

Definition set_key (c : LLMResponseCache) (key : string) (v : T) (now : Z)
    : LLMResponseCache :=
  if negb (enabled c) then c
  else with_cache c (Map_set key {| timestamp := now; value := v |} (evict c)).

Definition get `{Platform} (c : LLMResponseCache) (messages : list Message)
    (temperature : float) (schema : option JSON) (now : Z)
    : option T * LLMResponseCache :=
  get_key c (generateKey messages temperature schema) now.

Definition set `{Platform} (c : LLMResponseCache) (messages : list Message)
    (temperature : float) (v : T) (schema : option JSON) (now : Z)
    : LLMResponseCache :=
  set_key c (generateKey messages temperature schema) v now.

Definition clear (c : LLMResponseCache) : LLMResponseCache := with_cache c [].

(** The states a cache created as [c0] can be in: whatever a sequence of
    [set], [get] and [clear] calls leaves. *)
Inductive reachable (c0 : LLMResponseCache) : LLMResponseCache -> Prop :=
| reach_new : reachable c0 c0
| reach_set c key v now :
    reachable c0 c -> reachable c0 (set_key c key v now)
| reach_get c key now :
    reachable c0 c -> reachable c0 (snd (get_key c key now))
| reach_clear c :
    reachable c0 c -> reachable c0 (clear c).

End Store.

Arguments CacheEntry : clear implicits.
Arguments Map : clear implicits.
Arguments LLMResponseCache : clear implicits.
Arguments constructor : clear implicits.

End Cache.

(** ** packages/core/llm/gemini-model.ts *)

Module Gemini.
Import JS.

(** [cleanSchemaForGemini].  Its first statement replaces the parameter by
    [JSON.parse(JSON.stringify(schema))], a fresh copy equal to the
    argument; every later statement works on that copy.  The two recursive
    calls are statements whose value is not used: each cleans a copy of
    its own, so all they can do to the caller is throw.  They are read off
    [members] directly, the keys deleted before them being other keys. *)
Fixpoint cleanSchemaForGemini (schema : JSON) : Result JSON :=
  match schema with
  | JNull => Throw (null_read "$schema")
  | JObj members =>
      let o1 := obj_delete "$schema" members in
      let o2 := obj_delete "additionalProperties" o1 in
      let o3 := obj_delete "optional" o2 in
      let o4 :=
        match obj_get "properties" o3 with
        | Some p =>
            if truthy p && typeof_object p
            then obj_set "required" (JArr (List.map JStr (Object_keys p))) o3
            else o3
        | None => o3
        end in
      bind
        (on_prop "properties"
           (fun p =>
              if truthy p && typeof_object p then
                match p with
                | JObj props =>
                    for_each
                      (fun kv =>
                         if typeof_object (snd kv)
                         then bind (cleanSchemaForGemini (snd kv)) (fun _ => Ok tt)
                         else Ok tt)
                      props
                | JArr items =>
                    for_each
                      (fun x =>
                         if typeof_object x
                         then bind (cleanSchemaForGemini x) (fun _ => Ok tt)
                         else Ok tt)
                      items
                | _ => Ok tt
                end
              else Ok tt)
           (Ok tt) members)
        (fun _ =>
           bind
             (on_prop "items"
                (fun it =>
                   if truthy it && typeof_object it
                   then bind (cleanSchemaForGemini it) (fun _ => Ok tt)
                   else Ok tt)
                (Ok tt) members)
             (fun _ => Ok (JObj o4)))
  | _ => Ok schema
  end.

(** What [generateObject] hands to the vendor as [responseSchema]. *)
Definition responseSchema (schema : option JSON) : Result (option JSON) :=
  match schema with
  | Some s =>
      if truthy s
      then bind (cleanSchemaForGemini s) (fun c => Ok (Some c))
      else Ok None
  | None => Ok None
  end.

End Gemini.

(** ** packages/core/llm/openai-model.ts *)

Module OpenAI.
Import JS Cache.

(** [Object.values(p).forEach(prop => rec(prop))] where [rec] changes an
    object in place: the members of [p] after the loop. *)
Definition forEach_value (rec : JSON -> JSON) (p : JSON) : JSON :=
  match p with
  | JObj props => JObj (List.map (fun kv => (fst kv, rec (snd kv))) props)
  | JArr items => JArr (List.map rec items)
  | _ => p
  end.

(** The statements of [enforceStrictSchema] that follow the wrapping of the
    root, on a plain object; [rec] is [enforceStrictSchema(_, false)]. *)
Definition strict_body (rec : JSON -> JSON) (o : Obj) : Obj :=
  if prop_is (JObj o) "type" "object" || prop_is (JObj o) "type" "array" then
    let o1 := obj_set "additionalProperties" (JBool false) o in
    let o2 := obj_set "strict" (JBool true) o1 in
    let o3 :=
      on_prop "properties"
        (fun p =>
           if truthy p then
             let r := obj_set "required" (JArr (List.map JStr (Object_keys p))) o2 in
             let d := obj_delete "patternProperties" r in
             obj_set "properties" (forEach_value rec p) d
           else o2)
        o2 o in
    on_prop "items"
      (fun it =>
         if truthy it then
           let i := obj_set "items" (rec it) o3 in
           obj_delete "maxItems" (obj_delete "minItems" i)
         else o3)
      o3 o
  else o.

(** [enforceStrictSchema(schema, false)]: no wrapping, the object is
    changed in place and returned. *)
Fixpoint enforceNested (schema : JSON) : JSON :=
  match schema with
  | JObj o => JObj (strict_body enforceNested o)
  | _ => schema
  end.

Definition wrap (schema : JSON) : Obj :=
  [("type", JStr "object"); ("properties", JObj [("___results", schema)])].

Definition enforceStrictSchema (schema : JSON) (isRoot : bool) : JSON :=
  if negb (truthy schema) || negb (typeof_object schema) then schema
  else if isRoot && negb (prop_is schema "type" "object")
       then JObj (strict_body enforceNested (wrap schema))
       else enforceNested schema.

Record LLMObjectResponse : Type := mkResponse {
  response : JSON;
  messages : list Message
}.

Record Request : Type := mkRequest {
  req_messages : list Message;
  req_model : string;
  req_temperature : option float;
  req_response_format : JSON
}.

(** What [generateObject] takes from outside this file: the vendor's
    endpoint and [addNullableToOptional] of utils/tools. *)
Class Vendor : Type := {
  chat_completions_create : Request -> Result string;
  addNullableToOptional : JSON -> JSON
}.

(** The environment of one call: the model name, [new Date().toISOString()],
    and [Date.now()] as read by the cache before and after the call. *)
Record Env : Type := mkEnv {
  OPENAI_MODEL : option string;
  date_iso : string;
  date_now : Z;
  date_later : Z
}.

Definition startsWith_o (s : string) : bool :=
  match s with
  | String c _ => Ascii.eqb c "o"
  | EmptyString => false
  end.

Definition responseFormat (schema : JSON) : JSON :=
  if truthy schema
  then JObj [("type", JStr "json_schema");
             ("json_schema", JObj [("name", JStr "response");
                                   ("strict", JBool true);
                                   ("schema", schema)])]
  else JObj [("type", JStr "json_object")].

(** The inner [try]: parse, then take [___results] when it is truthy. *)
Definition parseResponse `{Parser} (responseText : string) : Result JSON :=
  match
    bind (JSON_parse responseText)
      (fun generatedObject =>
         match generatedObject with
         | JNull => Throw (null_read "___results")
         | _ =>
             match prop generatedObject "___results" with
             | Some r => if truthy r then Ok r else Ok generatedObject
             | None => Ok generatedObject
             end
         end)
  with
  | Ok v => Ok v
  | Throw m => Throw ("Failed to parse JSON response: " ++ m)
  end.

Definition generateObject `{Platform} `{Parser} `{Vendor} (env : Env)
    (objectCache : LLMResponseCache LLMObjectResponse)
    (messages : list Message) (schema : JSON) (temperature : float)
    : Result LLMObjectResponse * LLMResponseCache LLMObjectResponse :=
  let lookup :=
    if PrimFloat.eqb temperature 0
    then get objectCache messages temperature (Some schema) (date_now env)
    else (None, objectCache) in
  match fst lookup with
  | Some cached => (Ok cached, snd lookup)
  | None =>
      let objectCache := snd lookup in
      let schema := addNullableToOptional schema in
      let schema := enforceStrictSchema schema true in
      let temperature :=
        match OPENAI_MODEL env with
        | Some m => if startsWith_o m then None else Some temperature
        | None => Some temperature
        end in
      let dateMessage :=
        {| role := "system";
           content := Some (JStr ("The current date and time is " ++ date_iso env));
           transient := [] |} in
      let modelName :=
        match OPENAI_MODEL env with
        | Some m => if (m =? "")%string then "gpt-4o" else m
        | None => "gpt-4o"
        end in
      match chat_completions_create
              {| req_messages := dateMessage :: messages;
                 req_model := modelName;
                 req_temperature := temperature;
                 req_response_format := responseFormat schema |} with
      | Throw m => (Throw m, objectCache)
      | Ok responseText =>
          match parseResponse responseText with
          | Throw m => (Throw m, objectCache)
          | Ok generatedObject =>
              let updatedMessages :=
                (messages ++ [ {| role := "assistant";
                                  content := Some (JStr responseText);
                                  transient := [] |} ])%list in
              let response :=
                {| response := generatedObject; messages := updatedMessages |} in
              let objectCache :=
                match temperature with
                | Some t =>
                    if PrimFloat.eqb t 0
                    then set objectCache messages t response (Some schema) (date_later env)
                    else objectCache
                | None => objectCache
                end in
              (Ok response, objectCache)
          end
      end
  end.

End OpenAI.

(** ** packages/core/utils/instructions.ts *)

Module Instructions.
Import JS Cache.

Definition dquote : ascii := ascii_of_nat 34.
Definition LF : ascii := ascii_of_nat 10.
Definition CR : ascii := ascii_of_nat 13.

(** White space as [trim] and [\s] know it, among the code units below
    256: TAB, LF, VT, FF, CR, SP, NBSP. *)
Definition is_space (c : ascii) : bool :=
  let n := nat_of_ascii c in
  ((n =? 9) || (n =? 10) || (n =? 11) || (n =? 12) || (n =? 13)
   || (n =? 32) || (n =? 160))%nat.

(** The line terminators, which [.] does not match. *)
Definition is_line_terminator (c : ascii) : bool :=
  Ascii.eqb c LF || Ascii.eqb c CR.

Fixpoint trimStart (s : string) : string :=
  match s with
  | EmptyString => EmptyString
  | String c s' => if is_space c then trimStart s' else s
  end.

Fixpoint trimEnd (s : string) : string :=
  match s with
  | EmptyString => EmptyString
  | String c s' =>
      let t := trimEnd s' in
      if (t =? "")%string && is_space c then EmptyString else String c t
  end.

Definition trim (s : string) : string := trimEnd (trimStart s).

(** [s.split(/\r?\n/)] *)
Fixpoint split_lines (s : string) : list string :=
  match s with
  | EmptyString => [EmptyString]
  | String c s' =>
      let keep :=
        match split_lines s' with
        | l :: ls => String c l :: ls
        | [] => [String c EmptyString]
        end in
      if Ascii.eqb c LF then EmptyString :: split_lines s'
      else if Ascii.eqb c CR then
        match s' with
        | String c2 s'' =>
            if Ascii.eqb c2 LF then EmptyString :: split_lines s'' else keep
        | EmptyString => keep
        end
      else keep
  end.

(** [s.replace(/^[-*]\s*/, "")] *)
Definition strip_bullet (s : string) : string :=
  match s with
  | String c s' =>
      if Ascii.eqb c "-" || Ascii.eqb c "*" then trimStart s' else s
  | EmptyString => s
  end.

Fixpoint drop_digits (s : string) : string :=
  match s with
  | String c s' => if is_digit c then drop_digits s' else s
  | EmptyString => s
  end.

(** [s.replace(/^[0-9]+\.\s*/, "")] *)
Definition strip_number (s : string) : string :=
  match s with
  | String c _ =>
      if is_digit c then
        match drop_digits s with
        | String d rest => if Ascii.eqb d "." then trimStart rest else s
        | EmptyString => s
        end
      else s
  | EmptyString => s
  end.

Fixpoint drop_last_quote (s : string) : string :=
  match s with
  | EmptyString => EmptyString
  | String c EmptyString => if Ascii.eqb c dquote then EmptyString else s
  | String c s' => String c (drop_last_quote s')
  end.

(** [s.replace(/^"|"$/g, "")]: a quote at the start goes, and so does a
    quote at the end of what is left. *)
Definition strip_quotes (s : string) : string :=
  drop_last_quote
    match s with
    | String c s' => if Ascii.eqb c dquote then s' else s
    | EmptyString => s
    end.

Definition upper (c : ascii) : ascii :=
  let n := nat_of_ascii c in
  if ((97 <=? n) && (n <=? 122))%nat then ascii_of_nat (n - 32) else c.

(** Does [s] start with [p], letters compared without case? *)
Fixpoint starts_with_i (p s : string) : bool :=
  match p, s with
  | EmptyString, _ => true
  | String a p', String b s' => Ascii.eqb (upper a) (upper b) && starts_with_i p' s'
  | String _ _, EmptyString => false
  end.

(** Does [**] occur in [s] before any line terminator? *)
Fixpoint stars_on_line (s : string) : bool :=
  match s with
  | String a ((String b _) as s') =>
      if is_line_terminator a then false
      else if Ascii.eqb a "*" && Ascii.eqb b "*" then true
      else stars_on_line s'
  | _ => false
  end.

(** [/^(\*\*.*\*\*|Individual Suggestions:|Integration Suggestions:)/i.test(s)] *)
Definition is_header (s : string) : bool :=
  match s with
  | String a (String b rest) =>
      (Ascii.eqb a "*" && Ascii.eqb b "*" && stars_on_line rest)
      || starts_with_i "Individual Suggestions:" s
      || starts_with_i "Integration Suggestions:" s
  | _ => false
  end.

Definition clean_line (s : string) : string :=
  trim (strip_quotes (strip_number (strip_bullet s))).

(** [String(raw)] for a [raw] that is not null, not a string and not an
    array. *)
Definition String_of (raw : JSON) : string :=
  match raw with
  | JBool true => "true"
  | JBool false => "false"
  | JNum n => string_of_Z n
  | _ => "[object Object]"
  end.

Definition sanitizeInstructionSuggestions `{Parser} (raw : JSON) : list string :=
  let arr : list JSON :=
    match raw with
    | JStr s =>
        match JSON_parse s with
        | Ok (JArr parsed) => parsed
        | Ok parsed => [parsed]
        | Throw _ => [raw]
        end
    | JArr items => items
    | JNull => []
    | _ => [JStr (String_of raw)]
    end in
  let lines : list string :=
    flat_map
      (fun item =>
         match item with
         | JStr s => List.map trim (split_lines s)
         | _ => []
         end)
      arr in
  List.filter
    (fun s => negb (String.length s =? 0)%nat && negb (is_header s))
    (List.map clean_line lines).

(** [LanguageModel.generateObject], reduced to the [response] field of
    what it resolves to, or the message of the error it rejects with. *)
Class LanguageModel : Type := {
  generateObject : list Message -> JSON -> float -> Result JSON
}.

(** What one run leaves behind: the log lines and the model calls. *)
Inductive Event : Type :=
| Log (level text : string)
| Call (messages : list Message) (temperature : float).

Definition float_of_nat (n : nat) : float :=
  PrimFloat.of_uint63 (Uint63.of_Z (Z.of_nat n)).

(** [Math.min(a, b)] *)
Definition Math_min (a b : float) : float :=
  if PrimFloat.is_nan a || PrimFloat.is_nan b then PrimFloat.nan
  else if PrimFloat.ltb a b then a
  else if PrimFloat.ltb b a then b
  else if PrimFloat.get_sign a then a else b.

Definition temperatureOf (retry : nat) : float :=
  Math_min (0.3 * float_of_nat retry)%float 1.0%float.

Definition schema : JSON :=
  JObj [("type", JStr "array"); ("items", JObj [("type", JStr "string")])].

Definition attemptInstructionGeneration `{Parser} `{LanguageModel}
    (messages : list Message) (retry : nat)
    : Result (list string) * list Event :=
  let temperature := temperatureOf retry in
  match generateObject messages schema temperature with
  | Throw m => (Throw m, [Call messages temperature])
  | Ok generatedInstructions =>
      match generatedInstructions with
      | JArr (_ :: _) =>
          match sanitizeInstructionSuggestions generatedInstructions with
          | [] =>
              (Ok [],
               [Call messages temperature;
                Log "error"
                  ("Sanitization failed: "
                   ++ "Sanitization failed or returned no valid instructions")])
          | sanitized => (Ok sanitized, [Call messages temperature])
          end
      | _ =>
          (Throw "No valid instructions generated", [Call messages temperature])
      end
  end.

Definition MAX_RETRIES : nat := 3.

Definition user (text : string) : Message :=
  {| role := "user"; content := Some (JStr text); transient := [] |}.

(** The message pushed onto the history before a retry. *)
Definition feedback (message : string) : Message :=
  user ("The previous attempt failed with error: " ++ message
        ++ ". Please try again.").

(** The three log lines of the loop. *)
Definition generating (retryCount : nat) : Event :=
  Log "info"
    ("Generating instructions"
     ++ (if (retryCount =? 0)%nat then ""
         else ": (retry " ++ string_of_nat retryCount ++ ")")).

Definition retrying : Event :=
  Log "warn" "Instruction generation failed. Retrying...".

Definition exhausted (message : string) : Event :=
  Log "error"
    ("Instruction generation failed after " ++ string_of_nat MAX_RETRIES
     ++ " retries. Last error: " ++ message).

(** The [while] loop of [generateInstructions]; [None] when [fuel]
    iterations were not enough. *)
Fixpoint retryLoop `{Parser} `{LanguageModel} (fuel : nat) (retryCount : nat)
    (messages : list Message) : option (Result (list string) * list Event) :=
  if (retryCount <=? MAX_RETRIES)%nat then
    match fuel with
    | O => None
    | S fuel' =>
        match attemptInstructionGeneration messages retryCount with
        | (Ok instructions, evs) =>
            Some (Ok instructions, generating retryCount :: evs)
        | (Throw m, evs) =>
            let retried := S retryCount in
            if (MAX_RETRIES <? retried)%nat then
              Some (Throw m, (generating retryCount :: evs ++ [exhausted m])%list)
            else
              let messages := (messages ++ [feedback m])%list in
              match retryLoop fuel' retried messages with
              | Some (r, evs') =>
                  Some (r, (generating retryCount :: evs ++ retrying :: evs')%list)
              | None => None
              end
        end
    end
  else Some (Throw "Unexpected error in instruction generation", []).

(** The two messages every run starts from.  The text of the system prompt
    and [JSON.stringify(systems, null, 2)] are arguments. *)
Definition initial (systemPrompt systemsText : string) : list Message :=
  [ {| role := "system"; content := Some (JStr systemPrompt); transient := [] |};
    user ("Systems: " ++ systemsText) ].

Definition generateInstructions `{Parser} `{LanguageModel}
    (systemPrompt systemsText : string)
    : option (Result (list string) * list Event) :=
  retryLoop (S MAX_RETRIES) 0%nat (initial systemPrompt systemsText).

(** The temperatures of the model calls of a run, in order. *)
Definition temperatures (evs : list Event) : list float :=
  flat_map (fun e => match e with Call _ t => [t] | Log _ _ => [] end) evs.

End Instructions.

(** ** The Queue class *)

Module Queue.

(** A task is a closure [() => Promise<void>].  Calling it either throws
    before any promise exists, or yields a promise that settles later, when
    the environment says so. *)
Inductive Behaviour : Type :=
| ThrowsAtCall (message : string)
| ReturnsPromise.

Record Task : Type := mkTask {
  name : string;
  behaviour : Behaviour
}.

Record Process : Type := mkProcess {
  id : string;
  task : Task
}.

Inductive Event : Type :=
| Log (level text : string)
| LogError (text error : string)
| Invoke (job : Process).

(** How a promise settles. *)
Inductive Outcome : Type :=
| Resolved
| Rejected (error : string).

(** The fields of the class, and [awaiting]: the [job] of the suspended
    [processQueue], when it waits at [await job.task()]. *)
Record Queue : Type := mkQueue {
  queue : list Process;
  isProcessing : bool;
  jobSet : gset string;
  type : string;
  awaiting : option Process
}.

Definition constructor (queueType : option string) : Queue :=
  {| queue := [];
     isProcessing := false;
     jobSet := ∅;
     type := default "queue" queueType;
     awaiting := None |}.

Definition processing (q : Queue) (job : Process) : Event :=
  Log "info" ("Processing " ++ type q ++ " " ++ id job).

Definition failed (q : Queue) (job : Process) (error : string) : Event :=
  LogError ("Error processing " ++ type q ++ " " ++ id job ++ ":") error.

(** The [while] loop of [processQueue], from its test to the next [await]
    or to the end of the function. *)
Fixpoint loop (pending : list Process) (q : Queue) : Queue * list Event :=
  match pending with
  | [] =>
      ({| queue := []; isProcessing := false; jobSet := jobSet q;
          type := type q; awaiting := None |}, [])
  | job :: rest =>
      match behaviour (task job) with
      | ReturnsPromise =>
          ({| queue := rest; isProcessing := true; jobSet := jobSet q;
              type := type q; awaiting := Some job |},
           [processing q job; Invoke job])
      | ThrowsAtCall error =>
          let q' := {| queue := rest; isProcessing := true;
                       jobSet := jobSet q ∖ {[ id job ]};
                       type := type q; awaiting := None |} in
          let (q'', evs) := loop rest q' in
          (q'', processing q job :: Invoke job :: failed q job error :: evs)
      end
  end.

(** [processQueue], up to its first [await]. *)
Definition processQueue (q : Queue) : Queue * list Event :=
  if isProcessing q then (q, [])
  else loop (queue q) q.

Definition enqueue (q : Queue) (id : string) (task : Task) : Queue * list Event :=
  if bool_decide (id ∈ jobSet q)
  then (q, [Log "info" ("Job with ID " ++ id ++ " is already in the queue.")])
  else
    processQueue
      {| queue := (queue q ++ [ {| id := id; task := task |} ])%list;
         isProcessing := isProcessing q;
         jobSet := jobSet q ∪ {[ id ]};
         type := type q;
         awaiting := awaiting q |}.

(** The awaited promise settles and [processQueue] resumes: [catch],
    [finally], and the loop again.  Nothing happens when no job is
    awaited. *)
Definition settle (q : Queue) (outcome : Outcome) : Queue * list Event :=
  match awaiting q with
  | None => (q, [])
  | Some job =>
      let caught :=
        match outcome with
        | Resolved => []
        | Rejected error => [failed q job error]
        end in
      let q' := {| queue := queue q; isProcessing := isProcessing q;
                   jobSet := jobSet q ∖ {[ id job ]};
                   type := type q; awaiting := None |} in
      let (q'', evs) := loop (queue q') q' in
      (q'', (caught ++ evs)%list)
  end.

(** What happens to a queue from outside. *)
Inductive Input : Type :=
| Enqueue (id : string) (task : Task)
| Settle (outcome : Outcome).

Definition step (q : Queue) (i : Input) : Queue * list Event :=
  match i with
  | Enqueue id task => enqueue q id task
  | Settle outcome => settle q outcome
  end.

Fixpoint run (q : Queue) (inputs : list Input) : Queue * list Event :=
  match inputs with
  | [] => (q, [])
  | i :: inputs' =>
      let (q', evs) := step q i in
      let (q'', evs') := run q' inputs' in
      (q'', (evs ++ evs')%list)
  end.

(** The jobs whose task was called, in the order of the calls. *)
Definition invoked (evs : list Event) : list Process :=
  flat_map (fun e => match e with Invoke job => [job] | _ => [] end) evs.

(** The ids that are queued or running. *)
Definition tracked (q : Queue) : list string :=
  List.map id (option_list (awaiting q) ++ queue q)%list.

(** The jobs that [inputs] add to the queue: those of the [enqueue] calls
    whose id is not in [jobSet] at the time of the call. *)
Fixpoint accepted (q : Queue) (inputs : list Input) : list Process :=
  match inputs with
  | [] => []
  | i :: inputs' =>
      (match i with
       | Enqueue id task =>
           if bool_decide (id ∈ jobSet q) then []
           else [ {| id := id; task := task |} ]
       | Settle _ => []
       end ++ accepted (fst (step q i)) inputs')%list
  end.

(** The states of a queue between two inputs. *)
Inductive reachable : Queue -> Prop :=
| reach_new queueType : reachable (constructor queueType)
| reach_step q i : reachable q -> reachable (fst (step q i)).

(** What holds between two inputs: [jobSet] holds the ids that are queued
    or running, each once; the loop is suspended exactly when a job is
    awaited; and nothing is queued while the loop is not running. *)
Definition coherent (q : Queue) : Prop :=
  NoDup (tracked q)
  /\ (forall i, i ∈ jobSet q <-> In i (tracked q))
  /\ isProcessing q = bool_decide (is_Some (awaiting q))
  /\ (awaiting q = None -> queue q = []).

End Queue.

(** ** Vocabulary for the statements about texts and schemas *)

Module Vocabulary.
Import JS.

(** [Object.values(v)] of an object or an array. *)
Definition Object_values (v : JSON) : list JSON :=
  match v with
  | JObj o => List.map snd o
  | JArr items => items
  | _ => []
  end.

(** Every character of [s] satisfies [p]. *)
Fixpoint all_chars (p : ascii -> bool) (s : string) : bool :=
  match s with
  | EmptyString => true
  | String c s' => p c && all_chars p s'
  end.

(** [s] is not empty and its first character satisfies [p]. *)
Definition starts_with (p : ascii -> bool) (s : string) : bool :=
  match s with
  | String c _ => p c
  | EmptyString => false
  end.

(** [s] is not empty and its last character satisfies [p]. *)
Fixpoint ends_with (p : ascii -> bool) (s : string) : bool :=
  match s with
  | EmptyString => false
  | String c EmptyString => p c
  | String _ s' => ends_with p s'
  end.

End Vocabulary.

(** ** gemini-model.ts: what [cleanSchemaForGemini] does, statement by
    statement *)

Module GeminiSchema.
Import JS Gemini.

(** The values at which a call of [cleanSchemaForGemini] arrives at [null]:
    [null] itself; an object with such a value among the values of its
    [properties], be they the members of an object or the elements of an
    array; an object whose [items] is such an object.  An [items] that is
    [null] is falsy and is not visited. *)
Inductive reaches_null : JSON -> Prop :=
| rn_null : reaches_null JNull
| rn_property o props k v :
    obj_get "properties" o = Some (JObj props) ->
    In (k, v) props -> reaches_null v ->
    reaches_null (JObj o)
| rn_element o elements v :
    obj_get "properties" o = Some (JArr elements) ->
    In v elements -> reaches_null v ->
    reaches_null (JObj o)
| rn_items o members :
    obj_get "items" o = Some (JObj members) ->
    reaches_null (JObj members) ->
    reaches_null (JObj o).

(** The three deletions at the head of the function. *)
Definition unmarked (o : Obj) : Obj :=
  obj_delete "optional" (obj_delete "additionalProperties" (obj_delete "$schema" o)).

(** The object that a call which returns, returns. *)
Definition cleaned_root (o : Obj) : Obj :=
  match obj_get "properties" o with
  | Some p =>
      if truthy p && typeof_object p
      then obj_set "required" (JArr (List.map JStr (Object_keys p))) (unmarked o)
      else unmarked o
  | None => unmarked o
  end.

(** A recursive call as a statement: all it can do is throw. *)
Definition visit_schema (x : JSON) : Result unit :=
  if typeof_object x then bind (cleanSchemaForGemini x) (fun _ => Ok tt) else Ok tt.

(** The loop over the values of [properties]. *)
Definition visit_properties (o : Obj) : Result unit :=
  match obj_get "properties" o with
  | Some p =>
      if truthy p && typeof_object p then
        match p with
        | JObj props => for_each (fun kv => visit_schema (snd kv)) props
        | JArr items => for_each visit_schema items
        | _ => Ok tt
        end
      else Ok tt
  | None => Ok tt
  end.

(** The visit of [items]. *)
Definition visit_items (o : Obj) : Result unit :=
  match obj_get "items" o with
  | Some it =>
      if truthy it && typeof_object it
      then bind (cleanSchemaForGemini it) (fun _ => Ok tt)
      else Ok tt
  | None => Ok tt
  end.

Definition visits (o : Obj) : Result unit :=
  bind (visit_properties o) (fun _ => visit_items o).

(** A call throws when, and only when, it arrives at [null]; what it
    throws is the [TypeError] of the first statement. *)
Definition throws_on_null (v : JSON) : Prop :=
  match cleanSchemaForGemini v with
  | Ok _ => ~ reaches_null v
  | Throw m => m = null_read "$schema" /\ reaches_null v
  end.

End GeminiSchema.

(** ** openai-model.ts: what strict mode asks of a schema *)

Module StrictSchema.
Import JS OpenAI Vocabulary.

(** [schema.type === 'object' || schema.type === 'array'] *)
Definition typed (o : Obj) : bool :=
  prop_is (JObj o) "type" "object" || prop_is (JObj o) "type" "array".

(** A schema is strict when every level that [enforceStrictSchema] walks
    is: a level typed [object] or [array] forbids additional properties and
    is marked strict; when it has properties it requires them all, has no
    pattern properties, and the schema of every property is strict; when it
    has items their schema is strict and the bounds on their number are
    gone. *)
Inductive strict : JSON -> Prop :=
| strict_other v :
    match v with JObj o => typed o = false | _ => True end ->
    strict v
| strict_level o :
    typed o = true ->
    obj_get "additionalProperties" o = Some (JBool false) ->
    obj_get "strict" o = Some (JBool true) ->
    (forall p, obj_get "properties" o = Some p -> truthy p = true ->
       obj_get "required" o = Some (JArr (List.map JStr (Object_keys p)))
       /\ obj_get "patternProperties" o = None
       /\ forall v, In v (Object_values p) -> strict v) ->
    (forall it, obj_get "items" o = Some it -> truthy it = true ->
       strict it
       /\ obj_get "minItems" o = None
       /\ obj_get "maxItems" o = None) ->
    strict (JObj o).

(** The keys that [enforceStrictSchema] writes or deletes. *)
Definition touched : list string :=
  ["additionalProperties"; "strict"; "required"; "patternProperties";
   "properties"; "items"; "minItems"; "maxItems"].

End StrictSchema.

(** ** openai-model.ts: [generateText] *)

Module OpenAIText.
Import JS Cache OpenAI.

(** What [generateText] resolves to.  The content of the vendor's message
    is a string or [null]. *)
Record LLMResponse : Type := mkText {
  text_response : option string;
  text_messages : list Message
}.

(** The request of [generateText]: it has no [response_format]. *)
Record TextRequest : Type := mkTextRequest {
  text_req_messages : list Message;
  text_req_model : string;
  text_req_temperature : option float
}.

(** [chat.completions.create] up to [result.choices[0].message.content],
    or the message of the error it rejects with. *)
Class TextVendor : Type := {
  chat_completions_create_text : TextRequest -> Result (option string)
}.

Definition generateText `{Platform} `{TextVendor} (env : Env)
    (textCache : LLMResponseCache LLMResponse)
    (messages : list Message) (temperature : float)
    : Result LLMResponse * LLMResponseCache LLMResponse :=
  let lookup :=
    if PrimFloat.eqb temperature 0
    then get textCache messages temperature None (date_now env)
    else (None, textCache) in
  match fst lookup with
  | Some cached => (Ok cached, snd lookup)
  | None =>
      let textCache := snd lookup in
      let temperature :=
        match OPENAI_MODEL env with
        | Some m => if startsWith_o m then None else Some temperature
        | None => Some temperature
        end in
      let dateMessage :=
        {| role := "system";
           content := Some (JStr ("The current date and time is " ++ date_iso env));
           transient := [] |} in
      let modelName :=
        match OPENAI_MODEL env with
        | Some m => if (m =? "")%string then "gpt-4o" else m
        | None => "gpt-4o"
        end in
      match chat_completions_create_text
              {| text_req_messages := dateMessage :: messages;
                 text_req_model := modelName;
                 text_req_temperature := temperature |} with
      | Throw m => (Throw m, textCache)
      | Ok responseText =>
          let updatedMessages :=
            (messages
             ++ [ {| role := "assistant";
                     content := Some match responseText with
                                     | Some text => JStr text
                                     | None => JNull
                                     end;
                     transient := [] |} ])%list in
          let response :=
            {| text_response := responseText; text_messages := updatedMessages |} in
          let textCache :=
            match temperature with
            | Some t =>
                if PrimFloat.eqb t 0
                then set textCache messages t response None (date_later env)
                else textCache
            | None => textCache
            end in
          (Ok response, textCache)
      end
  end.

(** [process.env.OPENAI_MODEL?.startsWith('o')] as a condition. *)
Definition o_model (env : Env) : bool :=
  match OPENAI_MODEL env with
  | Some m => startsWith_o m
  | None => false
  end.

End OpenAIText.

(** ** gemini-model.ts: [convertToGeminiHistory], [generateText] and
    [generateObject] *)

Module GeminiModel.
Import JS Cache.

(** An element of the history handed to [startChat]:
    [{role, parts: [{text}]}]. *)
Record Content : Type := mkContent {
  c_role : string;
  c_text : option JSON
}.

(** What [convertToGeminiHistory] returns. *)
Record History : Type := mkHistory {
  geminiHistory : list Content;
  systemInstruction : option JSON;
  userPrompt : option JSON
}.

Definition entry (message : Message) : Content :=
  {| c_role := if (role message =? "assistant")%string then "model" else role message;
     c_text := content message |}.

(** The body of the [for] loop at index [i] of an array of [length]
    messages. *)
Definition visit (length i : nat) (message : Message) (h : History) : History :=
  if (role message =? "system")%string then
    {| geminiHistory := geminiHistory h;
       systemInstruction := content message;
       userPrompt := userPrompt h |}
  else if (i =? length - 1)%nat then
    {| geminiHistory := geminiHistory h;
       systemInstruction := systemInstruction h;
       userPrompt := content message |}
  else
    {| geminiHistory := (geminiHistory h ++ [entry message])%list;
       systemInstruction := systemInstruction h;
       userPrompt := userPrompt h |}.

(** The loop from index [i] on; [rest] are the messages from there. *)
Fixpoint loop (length i : nat) (rest : list Message) (h : History) : History :=
  match rest with
  | [] => h
  | message :: rest' => loop length (S i) rest' (visit length i message h)
  end.

Definition convertToGeminiHistory (messages : list Message) : History :=
  loop (List.length messages) 0 messages
    {| geminiHistory := []; systemInstruction := None; userPrompt := None |}.

Definition is_system (message : Message) : bool := (role message =? "system")%string.

Definition is_open (c : ascii) : bool := Ascii.eqb c "[" || Ascii.eqb c "{".

Definition is_close (c : ascii) : bool := Ascii.eqb c "}" || Ascii.eqb c "]".

(** [s.replace(/^[^[{]*/, '')]: what comes before the first bracket or
    brace goes. *)
Fixpoint drop_before_open (s : string) : string :=
  match s with
  | EmptyString => EmptyString
  | String c s' => if is_open c then s else drop_before_open s'
  end.

(** [s.replace(/[^}\]]*$/, '')]: what comes after the last brace or
    bracket goes. *)
Fixpoint drop_after_close (s : string) : string :=
  match s with
  | EmptyString => EmptyString
  | String c s' =>
      let t := drop_after_close s' in
      if (t =? "")%string && negb (is_close c) then EmptyString else String c t
  end.

Definition strip_to_json (responseText : string) : string :=
  drop_after_close (drop_before_open responseText).

Record GenerationConfig : Type := mkConfig {
  gc_temperature : float;
  topP : float;
  topK : Z;
  maxOutputTokens : Z;
  responseMimeType : string;
  gc_responseSchema : option JSON
}.

(** One exchange with the vendor: the model and the chat session are
    created, and the prompt is sent. *)
Record ChatRequest : Type := mkChat {
  chat_model : string;
  chat_systemInstruction : string;
  generationConfig : GenerationConfig;
  history : list Content;
  prompt : option JSON
}.

(** What the class takes from outside: the text of the vendor's reply to a
    chat request, or the message of the error it rejects with; and the
    engine's conversion of a value to a string, which [+] applies to
    [systemInstruction]. *)
Class Vendor : Type := {
  sendMessage : ChatRequest -> Result string;
  ToString : option JSON -> string
}.

(** The environment of one call: the model name, [new Date().toISOString()],
    and [Date.now()] as read by the cache before and after the call. *)
Record Env : Type := mkEnv {
  GEMINI_MODEL : option string;
  date_iso : string;
  date_now : Z;
  date_later : Z
}.

Definition modelName (env : Env) : string :=
  match GEMINI_MODEL env with
  | Some m => if (m =? "")%string then "gemini-2.5-flash-preview-04-17" else m
  | None => "gemini-2.5-flash-preview-04-17"
  end.

Definition two_line_feeds : string :=
  String (ascii_of_nat 10) (String (ascii_of_nat 10) EmptyString).

Definition chat `{Vendor} (env : Env) (messages : list Message)
    (temperature : float) (mimeType : string) (schema : option JSON)
    : ChatRequest :=
  let h := convertToGeminiHistory messages in
  {| chat_model := modelName env;
     chat_systemInstruction :=
       ToString (systemInstruction h) ++ two_line_feeds
       ++ "The current date and time is " ++ date_iso env;
     generationConfig :=
       {| gc_temperature := temperature;
          topP := 0.95;
          topK := 64;
          maxOutputTokens := 65536;
          responseMimeType := mimeType;
          gc_responseSchema := schema |};
     history := geminiHistory h;
     prompt := userPrompt h |}.

Definition assistant (text : string) : Message :=
  {| role := "assistant"; content := Some (JStr text); transient := [] |}.

Definition generateText `{Platform} `{Vendor} (env : Env)
    (textCache : LLMResponseCache OpenAIText.LLMResponse)
    (messages : list Message) (temperature : float)
    : Result OpenAIText.LLMResponse * LLMResponseCache OpenAIText.LLMResponse :=
  let lookup :=
    if PrimFloat.eqb temperature 0
    then get textCache messages temperature None (date_now env)
    else (None, textCache) in
  match fst lookup with
  | Some cached => (Ok cached, snd lookup)
  | None =>
      let textCache := snd lookup in
      match sendMessage (chat env messages temperature "text/plain" None) with
      | Throw m => (Throw m, textCache)
      | Ok responseText =>
          let response :=
            {| OpenAIText.text_response := Some responseText;
               OpenAIText.text_messages :=
                 (messages ++ [assistant responseText])%list |} in
          let textCache :=
            if PrimFloat.eqb temperature 0
            then set textCache messages temperature response None (date_later env)
            else textCache in
          (Ok response, textCache)
      end
  end.

Definition generateObject `{Platform} `{Parser} `{Vendor} (env : Env)
    (objectCache : LLMResponseCache OpenAI.LLMObjectResponse)
    (messages : list Message) (schema : JSON) (temperature : float)
    : Result OpenAI.LLMObjectResponse * LLMResponseCache OpenAI.LLMObjectResponse :=
  let lookup :=
    if PrimFloat.eqb temperature 0
    then get objectCache messages temperature (Some schema) (date_now env)
    else (None, objectCache) in
  match fst lookup with
  | Some cached => (Ok cached, snd lookup)
  | None =>
      let objectCache := snd lookup in
      match Gemini.responseSchema (Some schema) with
      | Throw m => (Throw m, objectCache)
      | Ok cleanSchema =>
          match sendMessage
                  (chat env messages temperature "application/json" cleanSchema) with
          | Throw m => (Throw m, objectCache)
          | Ok responseText =>
              let responseText := strip_to_json responseText in
              match JSON_parse responseText with
              | Throw m =>
                  (Throw ("Failed to parse JSON response: " ++ m), objectCache)
              | Ok generatedObject =>
                  let response :=
                    {| OpenAI.response := generatedObject;
                       OpenAI.messages :=
                         (messages ++ [assistant responseText])%list |} in
                  let objectCache :=
                    if PrimFloat.eqb temperature 0
                    then set objectCache messages temperature response
                           (Some schema) (date_later env)
                    else objectCache in
                  (Ok response, objectCache)
              end
          end
      end
  end.

End GeminiModel.

(** ** instructions.ts: vocabulary for the lines and the calls of a run *)

Module Suggestions.
Import JS Cache Instructions Vocabulary.

Definition no_LF (s : string) : bool :=
  all_chars (fun c => negb (Ascii.eqb c LF)) s.

(** [s] without the carriage return that ends it, if one does: what is left
    of the last line of a text when a line feed follows it. *)
Fixpoint chomp (s : string) : string :=
  match s with
  | EmptyString => EmptyString
  | String c EmptyString => if Ascii.eqb c CR then EmptyString else s
  | String c s' => String c (chomp s')
  end.

Definition line_feed : string := String LF EmptyString.

(** A line that needs no cleaning: it has no line feed, it does not start
    with white space, a bullet, a digit or a quote, it does not end with
    white space or a quote, and it is not a header. *)
Definition plain (s : string) : bool :=
  no_LF s
  && starts_with
       (fun c => negb (is_space c || Ascii.eqb c "-" || Ascii.eqb c "*"
                       || is_digit c || Ascii.eqb c dquote)) s
  && ends_with (fun c => negb (is_space c || Ascii.eqb c dquote)) s
  && negb (is_header s).

(** What the sanitizer promises of a line it returns. *)
Definition clean (s : string) : Prop :=
  s <> "" /\ is_header s = false /\ trim s = s /\ no_LF s = true.

(** The histories of the model calls of a run, in order. *)
Definition histories (evs : list Event) : list (list Message) :=
  flat_map (fun e => match e with Call m _ => [m] | Log _ _ => [] end) evs.

(** The history of call number [i] of a run that started from [messages]:
    one feedback message was added for each of the [i] calls before. *)
Definition grown (messages : list Message) (i : nat) (history : list Message) : Prop :=
  exists errors,
    List.length errors = i
    /\ history = (messages ++ List.map feedback errors)%list.

End Suggestions.

(** ** The Queue class: runs made of [enqueue] calls only *)

Module QueueRuns.
Import Queue.

Definition is_enqueue (i : Input) : bool :=
  match i with
  | Enqueue _ _ => true
  | Settle _ => false
  end.

End QueueRuns.

(** ** The integration resolvers *)

Module Integrations.
Import JS.

(** A field that may be absent, [null], or hold a value. *)
Inductive Maybe (A : Type) : Type :=
| Undefined
| Null
| Value (a : A).
Arguments Undefined {A}.
Arguments Null {A}.
Arguments Value {A} a.

(** The fields of an [Integration] that the resolvers read and write;
    dates are in milliseconds. *)
Record Integration : Type := mkIntegration {
  id : string;
  name : Maybe string;
  urlHost : Maybe string;
  urlPath : Maybe string;
  documentationUrl : Maybe string;
  documentation : Maybe string;
  documentationPending : Maybe bool;
  credentials : Maybe Obj;
  createdAt : Maybe Z;
  updatedAt : Maybe Z
}.

Definition resolveField {A} (newValue oldValue defaultValue : Maybe A) : Maybe A :=
  match newValue with
  | Null => Undefined
  | Value _ => newValue
  | Undefined =>
      match oldValue with
      | Undefined => defaultValue
      | _ => oldValue
      end
  end.

(** [x === y] on two optional strings. *)
Definition strict_eq (x y : Maybe string) : bool :=
  match x, y with
  | Undefined, Undefined => true
  | Null, Null => true
  | Value a, Value b => (a =? b)%string
  | _, _ => false
  end.

(** [s && s.trim()] as a condition: [s] is a string with something other
    than white space in it. *)
Definition has_text (s : Maybe string) : bool :=
  match s with
  | Value text => negb (text =? "")%string && negb (Instructions.trim text =? "")%string
  | _ => false
  end.

(** [b === true] *)
Definition is_true (b : Maybe bool) : bool :=
  match b with
  | Value true => true
  | _ => false
  end.

Definition needsDocFetch (input : Integration) (oldIntegration : option Integration)
    : bool :=
  if is_true (documentationPending input) then true
  else if has_text (documentation input) && negb (is_true (documentationPending input))
  then false
  else if negb (has_text (documentationUrl input)) then false
  else
    match oldIntegration with
    | None => true
    | Some old =>
        if negb (strict_eq (urlHost input) (urlHost old)) then true
        else if negb (strict_eq (urlPath input) (urlPath old)) then true
        else if negb (strict_eq (documentationUrl input) (documentationUrl old)) then true
        else if strict_eq (documentationUrl input) (documentationUrl old)
                && negb (has_text (documentation input))
                && has_text (documentationUrl old)
        then true
        else false
    end.

(** [oldIntegration?.f] *)
Definition old_field {A} (f : Integration -> Maybe A)
    (oldIntegration : option Integration) : Maybe A :=
  match oldIntegration with
  | Some old => f old
  | None => Undefined
  end.

(** [d || now] on a date that may be absent: a [Date] is truthy. *)
Definition or_now (d : Maybe Z) (now : Z) : Z :=
  match d with
  | Value t => t
  | _ => now
  end.

(** The [integration] that [upsertIntegrationResolver] hands to
    [datastore.upsertIntegration]; [now] is [new Date()]. *)
Definition integration (input : Integration) (oldIntegration : option Integration)
    (now : Z) : Integration :=
  {| id := id input;
     name := resolveField (name input) (old_field name oldIntegration) (Value "");
     urlHost := resolveField (urlHost input) (old_field urlHost oldIntegration) (Value "");
     urlPath := resolveField (urlPath input) (old_field urlPath oldIntegration) (Value "");
     documentationUrl :=
       resolveField (documentationUrl input)
         (old_field documentationUrl oldIntegration) (Value "");
     documentation :=
       resolveField (documentation input)
         (old_field documentation oldIntegration) (Value "");
     documentationPending := Value (needsDocFetch input oldIntegration);
     credentials :=
       resolveField (credentials input) (old_field credentials oldIntegration) (Value []);
     createdAt := Value (or_now (old_field createdAt oldIntegration) now);
     updatedAt := Value now |}.

End Integrations.

(** ** Sample inputs used to exercise the theorems *)

Module Samples.
Import JS.

(** A platform that serialises every key object to the empty text and
    whose digest is the text itself. *)
Definition toy_platform : Cache.Platform :=
  {| Cache.JSON_stringify := fun _ => ""; Cache.md5_hex := fun s => s |}.

(** A parser that rejects every text. *)
Definition toy_parser : Parser := {| JSON_parse := fun _ => Throw "Unexpected token" |}.

Definition hello : Cache.Message :=
  {| Cache.role := "user";
     Cache.content := Some (JStr "test message");
     Cache.transient := [] |}.

Definition options (maxSize : Z) : Cache.Options :=
  {| Cache.opt_maxAge := None;
     Cache.opt_maxSize := Some maxSize;
     Cache.opt_enabled := None |}.

(** A cache of capacity 2 after two writes, 100 ms apart. *)
Definition two_entries : Cache.LLMResponseCache string :=
  Cache.set_key
    (Cache.set_key (Cache.constructor string (Some (options 2)))
       "k1" "response 1" 0)
    "k2" "response 2" 100.

(** A cache created with [maxSize: -1], after one write. *)
Definition negative_capacity : Cache.LLMResponseCache string :=
  Cache.set_key (Cache.constructor string (Some (options (-1))))
    "k1" "response 1" 0.

(** An object schema with an object-typed property that carries markers of
    its own. *)
Definition address_schema : JSON :=
  JObj [("type", JStr "object");
        ("additionalProperties", JBool false);
        ("optional", JBool true);
        ("properties", JObj [("street", JObj [("type", JStr "string")])])].

Definition nested_schema : JSON :=
  JObj [("$schema", JStr "http://json-schema.org/draft-07/schema#");
        ("type", JStr "object");
        ("additionalProperties", JBool false);
        ("properties", JObj [("address", address_schema)])].

Definition string_schema : JSON := JObj [("type", JStr "string")].

Definition q : string := String (ascii_of_nat 34) EmptyString.

(** The text [{"___results":""}] and what it parses to. *)
Definition empty_result_text : string :=
  "{" ++ q ++ "___results" ++ q ++ ":" ++ q ++ q ++ "}".

Definition empty_result : JSON := JObj [("___results", JStr "")].

Definition empty_result_parser : Parser :=
  {| JSON_parse := fun text =>
       if (text =? empty_result_text)%string then Ok empty_result
       else Throw "Unexpected token" |}.

(** A vendor that answers every request with that text, next to an
    [addNullableToOptional] that finds nothing optional. *)
Definition empty_result_vendor : OpenAI.Vendor :=
  {| OpenAI.chat_completions_create := fun _ => Ok empty_result_text;
     OpenAI.addNullableToOptional := fun schema => schema |}.

Definition env : OpenAI.Env :=
  {| OpenAI.OPENAI_MODEL := None;
     OpenAI.date_iso := "2025-01-01T00:00:00.000Z";
     OpenAI.date_now := 0;
     OpenAI.date_later := 100 |}.

(** A model whose every reply is one header line, which the sanitizer
    drops. *)
Definition header_model : Instructions.LanguageModel :=
  {| Instructions.generateObject := fun _ _ _ =>
       Ok (JArr [JStr "Individual Suggestions:"]) |}.

(** A model that fails every call, and says which call it was. *)
Definition failing_model : Instructions.LanguageModel :=
  {| Instructions.generateObject := fun messages _ _ =>
       Throw ("failure " ++ string_of_nat (List.length messages - 2)) |}.

(** Two tasks that return a promise. *)
Definition fetch_docs : Queue.Task :=
  {| Queue.name := "fetch"; Queue.behaviour := Queue.ReturnsPromise |}.

Definition fetch_again : Queue.Task :=
  {| Queue.name := "fetch again"; Queue.behaviour := Queue.ReturnsPromise |}.

(** A queue whose job [a] is running. *)
Definition busy : Queue.Queue :=
  fst (Queue.step (Queue.constructor None) (Queue.Enqueue "a" fetch_docs)).

(** The same with jobs [b] and [c] queued behind it. *)
Definition busy_with_two_queued : Queue.Queue :=
  fst (Queue.step
         (fst (Queue.step busy (Queue.Enqueue "b" fetch_docs)))
         (Queue.Enqueue "c" fetch_again)).




Definition person_schema : JSON :=
  JObj [("properties",
         JObj [("name", JObj [("type", JStr "string")]);
               ("age", JObj [("type", JStr "number")])]);
        ("type", JStr "object")].



(** A cache of capacity 2 whose two entries were written in the same
    millisecond. *)
Definition tied_entries : Cache.LLMResponseCache string :=
  Cache.set_key
    (Cache.set_key (Cache.constructor string (Some (options 2)))
       "k1" "response 1" 0)
    "k2" "response 2" 0.

Definition disabled : Cache.Options :=
  {| Cache.opt_maxAge := None;
     Cache.opt_maxSize := None;
     Cache.opt_enabled := Some false |}.

(** A disabled cache after a write. *)
Definition written_while_disabled : Cache.LLMResponseCache string :=
  Cache.set_key (Cache.constructor string (Some disabled)) "k1" "response 1" 0.

(** A schema with a [null] among its properties. *)
Definition null_property_schema : JSON :=
  JObj [("type", JStr "object");
        ("properties", JObj [("name", JObj [("type", JStr "string")]);
                             ("age", JNull)])].

(** An array schema with length bounds, next to a description. *)
Definition tags_schema : JSON :=
  JObj [("type", JStr "array");
        ("description", JStr "the tags");
        ("minItems", JNum 1);
        ("items", JObj [("type", JStr "string")])].

(** A parser that knows the text [[1, 2]] and rejects the empty text as
    [JSON.parse] does. *)
Definition list_parser : Parser :=
  {| JSON_parse := fun text =>
       if (text =? "[1, 2]")%string then Ok (JArr [JNum 1; JNum 2])
       else if (text =? "")%string then Throw "Unexpected end of JSON input"
       else Throw "Unexpected token" |}.

Definition gemini_env : GeminiModel.Env :=
  {| GeminiModel.GEMINI_MODEL := None;
     GeminiModel.date_iso := "2025-01-01T00:00:00.000Z";
     GeminiModel.date_now := 0;
     GeminiModel.date_later := 100 |}.

Definition gemini_env_later : GeminiModel.Env :=
  {| GeminiModel.GEMINI_MODEL := None;
     GeminiModel.date_iso := "2025-01-01T00:00:01.000Z";
     GeminiModel.date_now := 1000;
     GeminiModel.date_later := 1100 |}.

(** A vendor whose every reply wraps a list in prose. *)
Definition chatty_vendor : GeminiModel.Vendor :=
  {| GeminiModel.sendMessage := fun _ => Ok "Sure: [1, 2] Hope this helps.";
     GeminiModel.ToString := fun _ => "undefined" |}.

(** A vendor whose every reply is a bare number. *)
Definition scalar_vendor : GeminiModel.Vendor :=
  {| GeminiModel.sendMessage := fun _ => Ok "42";
     GeminiModel.ToString := fun _ => "undefined" |}.

(** A vendor that is out of reach. *)
Definition unreachable_vendor : GeminiModel.Vendor :=
  {| GeminiModel.sendMessage := fun _ => Throw "fetch failed";
     GeminiModel.ToString := fun _ => "undefined" |}.

Definition greeting_vendor : OpenAIText.TextVendor :=
  {| OpenAIText.chat_completions_create_text := fun _ => Ok (Some "Hello!") |}.

Definition unreachable_text_vendor : OpenAIText.TextVendor :=
  {| OpenAIText.chat_completions_create_text := fun _ => Throw "fetch failed" |}.

Definition env_later : OpenAI.Env :=
  {| OpenAI.OPENAI_MODEL := None;
     OpenAI.date_iso := "2025-01-01T00:00:01.000Z";
     OpenAI.date_now := 1000;
     OpenAI.date_later := 1100 |}.

(** The environment of an o model. *)
Definition o_env : OpenAI.Env :=
  {| OpenAI.OPENAI_MODEL := Some "o3-mini";
     OpenAI.date_iso := "2025-01-01T00:00:00.000Z";
     OpenAI.date_now := 0;
     OpenAI.date_later := 100 |}.

(** A model whose every reply is a numbered line and a bulleted line. *)
Definition listing_model : Instructions.LanguageModel :=
  {| Instructions.generateObject := fun _ _ _ =>
       Ok (JArr [JStr "1. Do X"; JStr "- Do Y"]) |}.

(** A task that throws when it is called. *)
Definition broken : Queue.Task :=
  {| Queue.name := "broken"; Queue.behaviour := Queue.ThrowsAtCall "boom" |}.

End Samples.

(* ===================================================================== *)
(** * Part II.  Theorems                                                  *)
(* ===================================================================== *)

(** ** Plain objects *)

Section Objects.
Import JS.
Implicit Types (o : Obj) (k : string) (v : JSON).

Lemma obj_get_replace_eq k v o : obj_has k o = true → obj_get k (obj_replace k v o) = Some v.
Proof.
  unfold obj_has. induction o as [|[k' v'] o IH]; simpl; [done|].
  destruct (String.eqb_spec k k') as [->|Hne]; simpl.
  - by rewrite String.eqb_refl.
  - destruct (String.eqb_spec k k'); [done|]. exact IH.
Qed.

Lemma obj_get_replace_ne k k' v o : k ≠ k' → obj_get k (obj_replace k' v o) = obj_get k o.
Proof.
  intros Hne. induction o as [|[k'' v''] o IH]; simpl; [done|].
  destruct (String.eqb_spec k' k'') as [->|Hne']; simpl.
  - by destruct (String.eqb_spec k k'').
  - destruct (String.eqb_spec k k''); [done|]. exact IH.
Qed.

Lemma obj_get_app k o o' :
  obj_get k (o ++ o')%list = match obj_get k o with Some v => Some v | None => obj_get k o' end.
Proof.
  induction o as [|[k' v'] o IH]; simpl; [done|].
  by destruct (String.eqb k k').
Qed.

Lemma obj_get_insert_index_eq n k v o :
  obj_get k o = None → obj_get k (obj_insert_index n k v o) = Some v.
Proof.
  induction o as [|[k' v'] o IH]; simpl.
  - by rewrite String.eqb_refl.
  - destruct (String.eqb_spec k k') as [->|Hne]; [done|]. intros Hnone.
    destruct (array_index k') as [n'|]; [destruct (n' <? n)%N|]; simpl;
      rewrite ?String.eqb_refl; try done.
    destruct (String.eqb_spec k k'); [done|]. by apply IH.
Qed.

Lemma obj_get_insert_index_ne n k k' v o :
  k ≠ k' → obj_get k (obj_insert_index n k' v o) = obj_get k o.
Proof.
  intros Hne. induction o as [|[k'' v''] o IH]; simpl.
  - by destruct (String.eqb_spec k k').
  - destruct (array_index k'') as [n'|]; [destruct (n' <? n)%N|]; simpl;
      destruct (String.eqb_spec k k'); try done.
    by rewrite IH.
Qed.

Lemma obj_get_set_eq k v o : obj_get k (obj_set k v o) = Some v.
Proof.
  unfold obj_set. destruct (obj_has k o) eqn:Hhas.
  - by apply obj_get_replace_eq.
  - assert (Hnone : obj_get k o = None)
      by (unfold obj_has in Hhas; by destruct (obj_get k o)).
    destruct (array_index k).
    + by apply obj_get_insert_index_eq.
    + rewrite obj_get_app, Hnone. simpl. by rewrite String.eqb_refl.
Qed.

Lemma obj_get_set_ne k k' v o : k ≠ k' → obj_get k (obj_set k' v o) = obj_get k o.
Proof.
  intros Hne. unfold obj_set. destruct (obj_has k' o).
  - by apply obj_get_replace_ne.
  - destruct (array_index k').
    + by apply obj_get_insert_index_ne.
    + rewrite obj_get_app. simpl. destruct (String.eqb_spec k k'); [done|].
      by destruct (obj_get k o).
Qed.

Lemma obj_get_delete_eq k o : obj_get k (obj_delete k o) = None.
Proof.
  induction o as [|[k' v'] o IH]; simpl; [done|].
  destruct (String.eqb_spec k k') as [->|Hne]; [done|].
  simpl. by destruct (String.eqb_spec k k').
Qed.

Lemma obj_get_delete_ne k k' o : k ≠ k' → obj_get k (obj_delete k' o) = obj_get k o.
Proof.
  intros Hne. induction o as [|[k'' v''] o IH]; simpl; [done|].
  destruct (String.eqb_spec k' k'') as [->|Hne'].
  - destruct (String.eqb_spec k k''); [done|]. exact IH.
  - simpl. destruct (String.eqb_spec k k''); [done|]. exact IH.
Qed.

(** [on_prop] is a property read followed by a case distinction. *)
Lemma on_prop_get {A} k (body : JSON → A) (missing : A) o :
  on_prop k body missing o
  = match obj_get k o with Some v => body v | None => missing end.
Proof.
  induction o as [|[k' v'] o IH]; simpl; [done|].
  by destruct (String.eqb k k').
Qed.

End Objects.

(** ** The order of the keys *)


Lemma string_compare_le_trans s1 s2 s3 :
  (s1 ?= s2)%string ≠ Gt → (s2 ?= s3)%string ≠ Gt → (s1 ?= s3)%string ≠ Gt.
Proof.
  revert s2 s3. induction s1 as [|c1 s1 IH]; intros [|c2 s2] [|c3 s3]; simpl; try done.
  unfold Ascii.compare.
  destruct (N.compare_spec (N_of_ascii c1) (N_of_ascii c2));
    destruct (N.compare_spec (N_of_ascii c2) (N_of_ascii c3));
    destruct (N.compare_spec (N_of_ascii c1) (N_of_ascii c3));
    try done; try lia.
  apply IH.
Qed.

#[global] Instance string_le_trans : Transitive JS.string_le.
Proof.
  intros s1 s2 s3. unfold JS.string_le, String.leb. intros H12 H23.
  pose proof (string_compare_le_trans s1 s2 s3) as Ht.
  destruct (s1 ?= s2)%string, (s2 ?= s3)%string, (s1 ?= s3)%string;
    try done; exfalso; by apply Ht.
Qed.

#[global] Instance string_le_antisym : AntiSymm eq JS.string_le.
Proof. intros s1 s2. apply String.leb_antisym. Qed.

#[global] Instance string_le_total : Total JS.string_le.
Proof. intros s1 s2. apply String.leb_total. Qed.

(** Sorting forgets the order the keys came in. *)
Lemma sort_Permutation ks ks' : ks ≡ₚ ks' → JS.sort ks = JS.sort ks'.
Proof.
  intros Hp. unfold JS.sort. apply (Sorted_unique JS.string_le).
  - apply Sorted_merge_sort, _.
  - apply Sorted_merge_sort, _.
  - by rewrite !merge_sort_Permutation.
Qed.

(** ** Objects up to the order of their members *)

Section ObjectContent.
Import JS Cache.
Implicit Types (o : Obj) (k : string) (v : JSON).

Lemma obj_get_None k o : obj_get k o = None ↔ ¬ In k (List.map fst o).
Proof.
  induction o as [|[k' v'] o IH]; simpl; [tauto|].
  destruct (String.eqb_spec k k') as [->|Hne]; split; try done.
  - intros Hn. contradict Hn. by left.
  - intros Hnone [Heq|Hin]; [congruence|]. by apply IH.
  - intros Hn. apply IH. tauto.
Qed.

Lemma obj_get_Some_In k v o :
  NoDup (List.map fst o) → obj_get k o = Some v ↔ In (k, v) o.
Proof.
  induction o as [|[k' v'] o IH]; simpl; [intros _; split; [done|tauto]|].
  rewrite NoDup_cons, list_elem_of_In. intros [Hnotin Hnd].
  destruct (String.eqb_spec k k') as [->|Hne].
  - split; [intros [= ->]; by left|].
    intros [[= ->]|Hin]; [done|]. contradict Hnotin. by apply (in_map fst _ (k', v)).
  - rewrite (IH Hnd). split; [tauto|]. intros [[= -> ->]|Hin]; [done|done].
Qed.

(** With no key twice, a property read does not depend on the order of the
    members. *)
Lemma obj_get_Permutation k o o' :
  NoDup (List.map fst o) → o ≡ₚ o' → obj_get k o = obj_get k o'.
Proof.
  intros Hnd Hp.
  assert (Hnd' : NoDup (List.map fst o')) by (by rewrite <- Hp).
  destruct (obj_get k o') as [v|] eqn:Hget.
  - apply obj_get_Some_In; [done|]. apply obj_get_Some_In in Hget; [|done].
    by rewrite Hp.
  - apply obj_get_None. apply obj_get_None in Hget. by rewrite Hp.
Qed.

Lemma obj_get_map (f : JSON → JSON) k o :
  obj_get k (List.map (λ kv, (kv.1, f kv.2)) o) = f <$> obj_get k o.
Proof.
  induction o as [|[k' v'] o IH]; simpl; [done|].
  by destruct (String.eqb k k').
Qed.

Lemma obj_insert_index_Permutation n k v o : obj_insert_index n k v o ≡ₚ (k, v) :: o.
Proof.
  induction o as [|[k' v'] o IH]; simpl; [done|].
  destruct (array_index k') as [n'|]; [|done].
  destruct (n' <? n)%N; [|done]. by rewrite IH, Permutation_swap.
Qed.

(** Creating a property adds one member. *)
Lemma obj_set_fresh_Permutation k v o : obj_get k o = None → obj_set k v o ≡ₚ (k, v) :: o.
Proof.
  intros Hnone. unfold obj_set, obj_has. rewrite Hnone.
  destruct (array_index k).
  - apply obj_insert_index_Permutation.
  - by rewrite Permutation_app_comm.
Qed.

(** Assigning the selected members one after the other builds an object
    with exactly these members. *)
Lemma fold_assign_Permutation m ks acc :
  NoDup ks → ¬ In "__proto__" ks → (∀ k, In k ks → obj_get k acc = None) →
  fold_left (assign_from m) ks acc ≡ₚ (acc ++ select m ks)%list.
Proof.
  revert acc. induction ks as [|k ks IH]; intros acc Hnd Hproto Hfresh; simpl.
  - by rewrite app_nil_r.
  - apply NoDup_cons in Hnd as [Hnotin Hnd]. rewrite list_elem_of_In in Hnotin.
    rewrite IH; [|done|simpl in Hproto; tauto|].
    + unfold assign_from, obj_assign.
      destruct (String.eqb_spec k "__proto__") as [->|_]; [simpl in Hproto; tauto|].
      destruct (obj_get k m) as [v|]; simpl; [|done].
      rewrite obj_set_fresh_Permutation by (apply Hfresh; by left).
      by rewrite <- Permutation_middle.
    + intros k' Hin. unfold assign_from, obj_assign.
      destruct (obj_get k m) as [v|]; [|apply Hfresh; by right].
      destruct (String.eqb k "__proto__"); [apply Hfresh; by right|].
      rewrite obj_get_set_ne by (intros ->; done). apply Hfresh. by right.
Qed.

Lemma select_cons_other k v m ks : ¬ In k ks → select ((k, v) :: m) ks = select m ks.
Proof.
  unfold select. induction ks as [|k' ks IH]; simpl; [done|]. intros Hnotin.
  destruct (String.eqb_spec k' k) as [->|_]; [tauto|]. f_equal. apply IH. tauto.
Qed.

Lemma select_keys m : NoDup (List.map fst m) → select m (List.map fst m) = m.
Proof.
  induction m as [|[k v] m IH]; simpl; [done|].
  rewrite NoDup_cons, list_elem_of_In. intros [Hnotin Hnd].
  change (select ((k, v) :: m) (k :: List.map fst m))
    with (match obj_get k ((k, v) :: m) with Some v' => [(k, v')] | None => [] end
          ++ select ((k, v) :: m) (List.map fst m))%list.
  simpl. rewrite String.eqb_refl. simpl. by rewrite select_cons_other, IH.
Qed.

Lemma select_Permutation m ks ks' : ks ≡ₚ ks' → select m ks ≡ₚ select m ks'.
Proof. intros Hp. unfold select. by apply Permutation_flat_map. Qed.

End ObjectContent.

(** ** The response cache *)

Section CacheStore.
Import Cache.
Context {T : Type}.
Implicit Types (m : Map T) (c : LLMResponseCache T) (e : CacheEntry T).

Lemma Map_get_set_eq k e m : Map_get k (Map_set k e m) = Some e.
Proof.
  induction m as [|[k' e'] m IH]; simpl.
  - by rewrite String.eqb_refl.
  - destruct (String.eqb_spec k k') as [->|Hne]; simpl.
    + by rewrite String.eqb_refl.
    + destruct (String.eqb_spec k k'); [done|]. exact IH.
Qed.

Lemma Map_get_set_ne k k' e m : k ≠ k' → Map_get k (Map_set k' e m) = Map_get k m.
Proof.
  intros Hne. induction m as [|[k'' e''] m IH]; simpl.
  - destruct (String.eqb_spec k k'); [done|done].
  - destruct (String.eqb_spec k' k'') as [->|Hne']; simpl.
    + destruct (String.eqb_spec k k''); [done|done].
    + destruct (String.eqb_spec k k''); [done|]. exact IH.
Qed.

Lemma Map_get_delete_eq k m : Map_get k (Map_delete k m) = None.
Proof.
  induction m as [|[k' e'] m IH]; simpl; [done|].
  destruct (String.eqb_spec k k') as [->|Hne]; [done|].
  simpl. by destruct (String.eqb_spec k k').
Qed.

Lemma Map_get_delete_ne k k' m : k ≠ k' → Map_get k (Map_delete k' m) = Map_get k m.
Proof.
  intros Hne. induction m as [|[k'' e''] m IH]; simpl; [done|].
  destruct (String.eqb_spec k' k'') as [->|Hne'].
  - destruct (String.eqb_spec k k''); [done|]. exact IH.
  - simpl. destruct (String.eqb_spec k k''); [done|]. exact IH.
Qed.

Lemma Map_get_In k e m : Map_get k m = Some e → In (k, e) m.
Proof.
  induction m as [|[k' e'] m IH]; simpl; [done|].
  destruct (String.eqb_spec k k') as [->|Hne].
  - intros [= ->]. by left.
  - intros H. right. by apply IH.
Qed.

Lemma Map_get_None k m : Map_get k m = None ↔ ¬ In k (List.map fst m).
Proof.
  induction m as [|[k' e'] m IH]; simpl; [tauto|].
  destruct (String.eqb_spec k k') as [->|Hne]; split; try done.
  - intros H. contradict H. by left.
  - intros H [Heq|Hin]; [congruence|]. by apply IH.
  - intros H. apply IH. tauto.
Qed.

(** A [Map] never holds a key twice. *)
Definition unique_keys m : Prop := NoDup (List.map fst m).

Lemma In_keys_Map_delete k k' m :
  In k (List.map fst (Map_delete k' m)) ↔ k ≠ k' ∧ In k (List.map fst m).
Proof.
  induction m as [|[k'' e''] m IH]; simpl; [tauto|].
  destruct (String.eqb_spec k' k'') as [->|Hne]; simpl.
  - rewrite IH. split; [tauto|]. intros [? [?|?]]; [congruence|tauto].
  - rewrite IH. split; [|tauto]. intros [<-|?]; [|tauto]. split; [congruence|tauto].
Qed.

Lemma In_keys_Map_set k k' e m :
  In k (List.map fst (Map_set k' e m)) ↔ k = k' ∨ In k (List.map fst m).
Proof.
  induction m as [|[k'' e''] m IH]; simpl.
  - split; [intros [?|[]]; by left | intros [?|[]]; by left].
  - destruct (String.eqb_spec k' k'') as [->|Hne]; simpl.
    + intuition congruence.
    + rewrite IH. intuition congruence.
Qed.

Lemma unique_keys_Map_delete k m : unique_keys m → unique_keys (Map_delete k m).
Proof.
  unfold unique_keys. induction m as [|[k' e'] m IH]; simpl; [done|].
  rewrite !NoDup_cons. intros [Hnotin Hnd].
  destruct (String.eqb_spec k k'); [by apply IH|].
  simpl. apply NoDup_cons. split; [|by apply IH].
  rewrite list_elem_of_In, In_keys_Map_delete. rewrite list_elem_of_In in Hnotin. tauto.
Qed.

Lemma unique_keys_Map_set k e m : unique_keys m → unique_keys (Map_set k e m).
Proof.
  unfold unique_keys. induction m as [|[k' e'] m IH]; simpl.
  - intros _. apply NoDup_singleton.
  - rewrite NoDup_cons. intros [Hnotin Hnd].
    destruct (String.eqb_spec k k') as [->|Hne]; simpl.
    + by apply NoDup_cons.
    + apply NoDup_cons. split; [|by apply IH].
      rewrite list_elem_of_In, In_keys_Map_set. rewrite list_elem_of_In in Hnotin.
      intros [?|?]; [congruence|done].
Qed.

Lemma length_Map_set k e m : (List.length (Map_set k e m) ≤ S (List.length m))%nat.
Proof.
  induction m as [|[k' e'] m IH]; simpl; [lia|].
  destruct (String.eqb k k'); simpl; lia.
Qed.

Lemma Map_delete_absent k m : ¬ In k (List.map fst m) → Map_delete k m = m.
Proof.
  induction m as [|[k' e'] m IH]; simpl; [done|].
  intros H. destruct (String.eqb_spec k k') as [->|Hne]; [tauto|].
  f_equal. apply IH. tauto.
Qed.

(** Deleting a key that is present removes exactly one entry. *)
Lemma length_Map_delete k m :
  unique_keys m → In k (List.map fst m) →
  S (List.length (Map_delete k m)) = List.length m.
Proof.
  unfold unique_keys. induction m as [|[k' e'] m IH]; simpl; [done|].
  rewrite NoDup_cons, list_elem_of_In. intros [Hnotin Hnd] Hin.
  destruct (String.eqb_spec k k') as [->|Hne].
  - by rewrite Map_delete_absent.
  - simpl. f_equal. apply IH; [done|]. destruct Hin; [congruence|done].
Qed.

(** *** The scan for the oldest entry *)

Lemma fold_older_Some m o : ∃ o', fold_left older m (Some o) = Some o'.
Proof.
  revert o. induction m as [|ke m IH]; intros o; simpl; [by eexists|].
  destruct (timestamp ke.2 <? timestamp o.2); apply IH.
Qed.

Lemma oldest_entry_nonempty m : m ≠ [] → ∃ o, oldest_entry m = Some o.
Proof.
  destruct m as [|ke m]; [done|]. intros _. unfold oldest_entry. simpl.
  apply fold_older_Some.
Qed.

Lemma fold_older_spec m o o' :
  fold_left older m (Some o) = Some o' →
  (o' = o ∨ In o' m)
  ∧ timestamp o'.2 ≤ timestamp o.2
  ∧ ∀ ke, In ke m → timestamp o'.2 ≤ timestamp ke.2.
Proof.
  revert o. induction m as [|ke m IH]; intros o; simpl.
  - intros [= ->]. split; [by left|]. split; [lia|]. intros ? [].
  - destruct (Z.ltb_spec (timestamp ke.2) (timestamp o.2)) as [Hlt|Hge];
      intros H; apply IH in H as (Hin & Hle & Hall).
    + split; [destruct Hin as [->|?]; right; [by left|by right]|].
      split; [lia|]. intros ke' [<-|Hin']; [done|by apply Hall].
    + split; [destruct Hin as [->|?]; [by left|right; by right]|].
      split; [done|]. intros ke' [<-|Hin']; [lia|by apply Hall].
Qed.

(** The entry the scan picks is in the map and no entry is older. *)
Lemma oldest_entry_spec m o :
  oldest_entry m = Some o →
  In o m ∧ ∀ ke, In ke m → timestamp o.2 ≤ timestamp ke.2.
Proof.
  destruct m as [|ke m]; [done|]. unfold oldest_entry. simpl.
  intros H. apply fold_older_spec in H as (Hin & Hle & Hall).
  split; [destruct Hin as [->|?]; [by left|by right]|].
  intros ke' [<-|Hin']; [done|by apply Hall].
Qed.

End CacheStore.

Section CacheProperties.
Import Cache.
Context {T : Type}.
Implicit Types (m : Map T) (c : LLMResponseCache T) (e : CacheEntry T).

Lemma evict_unique_keys c : unique_keys (cache c) → unique_keys (evict c).
Proof.
  intros Hu. unfold evict. destruct (maxSize c <=? size c); [|done].
  destruct (oldest_entry (cache c)); [|done]. by apply unique_keys_Map_delete.
Qed.

Local Ltac same_config := repeat split; simpl; first [assumption | congruence].

(** What [set] keeps true: no key twice, and the configuration. *)
Lemma reachable_inv c0 c :
  reachable c0 c →
  unique_keys (cache c0) →
  unique_keys (cache c)
  ∧ maxAge c = maxAge c0 ∧ maxSize c = maxSize c0 ∧ enabled c = enabled c0.
Proof.
  intros Hr Hu0. induction Hr as [|c key v now _ IH|c key now _ IH|c _ IH]; [done|..];
    destruct IH as (Hu & Ha & Hs & He).
  - unfold set_key. destruct (enabled c) eqn:Hen; simpl;
      [|same_config].
    split; [|same_config].
    by apply unique_keys_Map_set, evict_unique_keys.
  - unfold get_key. destruct (enabled c) eqn:Hen; simpl;
      [|same_config].
    destruct (Map_get key (cache c)) as [entry|]; [|same_config].
    destruct (maxAge c <? now - timestamp entry); simpl;
      [|same_config].
    split; [|same_config]. by apply unique_keys_Map_delete.
  - simpl. split; [|done]. apply NoDup_nil_2.
Qed.

Lemma size_evict c :
  unique_keys (cache c) → 1 ≤ maxSize c → size c ≤ maxSize c →
  Z.of_nat (List.length (evict c)) < maxSize c.
Proof.
  intros Hu H1 Hle. unfold evict, size in *.
  destruct (Z.leb_spec (maxSize c) (Z.of_nat (List.length (cache c)))) as [Hfull|]; [|lia].
  destruct (oldest_entry_nonempty (cache c)) as [o Ho].
  { intros Hnil. rewrite Hnil in Hfull. simpl in Hfull. lia. }
  rewrite Ho. apply oldest_entry_spec in Ho as [Hin _].
  pose proof (length_Map_delete o.1 (cache c) Hu (in_map fst _ _ Hin)). lia.
Qed.

Lemma size_set_key c key v now :
  unique_keys (cache c) → 1 ≤ maxSize c → size c ≤ maxSize c →
  size (set_key c key v now) ≤ maxSize (set_key c key v now).
Proof.
  intros Hu H1 Hle. unfold set_key. destruct (enabled c) eqn:Hen; simpl; [|done].
  pose proof (size_evict c Hu H1 Hle).
  pose proof (length_Map_set key {| timestamp := now; value := v |} (evict c)).
  unfold size. simpl. lia.
Qed.

Lemma size_Map_delete_le k m : (List.length (Map_delete k m) ≤ List.length m)%nat.
Proof.
  induction m as [|[k' e'] m IH]; simpl; [done|].
  destruct (String.eqb k k'); simpl; lia.
Qed.

(** From a cache within its bound, every call leaves a cache within its
    bound. *)
Lemma reachable_size c0 c :
  reachable c0 c →
  unique_keys (cache c0) → 1 ≤ maxSize c0 → size c0 ≤ maxSize c0 →
  size c ≤ maxSize c.
Proof.
  intros Hr Hu0 H1 Hle0.
  induction Hr as [|c key v now Hr IH|c key now Hr IH|c Hr IH]; [done|..];
    destruct (reachable_inv _ _ Hr Hu0) as (Hu & Ha & Hs & He).
  - apply size_set_key; [done|lia|done].
  - unfold get_key. destruct (enabled c) eqn:Hen; simpl; [|done].
    destruct (Map_get key (cache c)) as [entry|]; [|done].
    destruct (maxAge c <? now - timestamp entry); simpl; [|done].
    unfold size in *. simpl. pose proof (size_Map_delete_le key (cache c)). lia.
  - unfold size. simpl. lia.
Qed.

(** C10.  At the constructor, [maxAge: 0] and [maxSize: 0] are replaced by
    the defaults 3,600,000 and 1,000; no options at all can make either
    of them zero; a non-zero number is taken as given, and so is
    [enabled: false]. *)
Theorem constructor_zero_falls_back_to_default :
  (∀ en,
      let c := constructor T (Some {| opt_maxAge := Some 0; opt_maxSize := Some 0;
                                      opt_enabled := en |}) in
      maxAge c = 3600000 ∧ maxSize c = 1000)
  ∧ (∀ options,
        maxAge (constructor T options) ≠ 0 ∧ maxSize (constructor T options) ≠ 0)
  ∧ (∀ a s en,
        let c := constructor T (Some {| opt_maxAge := Some a; opt_maxSize := Some s;
                                        opt_enabled := en |}) in
        maxAge c = (if a =? 0 then 3600000 else a)
        ∧ maxSize c = (if s =? 0 then 1000 else s))
  ∧ (∀ a s,
        enabled (constructor T (Some {| opt_maxAge := a; opt_maxSize := s;
                                        opt_enabled := Some false |})) = false).
Proof.
  repeat split.
  - destruct options as [[[a|] ? ?]|]; simpl; [|done..].
    destruct (Z.eqb_spec a 0); [done|done].
  - destruct options as [[? [s|] ?]|]; simpl; [|done..].
    destruct (Z.eqb_spec s 0); [done|done].
Qed.

(** C5.  On an enabled cache, [set(M, 0, V, S)] followed by [get(M, 0, S)],
    read no later than [maxAge] after the write, returns [V]; the schema
    [S] may be absent. *)
Theorem set_then_get_returns_value `{Platform} c M V (S : option JS.JSON) now now' :
  enabled c = true →
  now' - now ≤ maxAge c →
  fst (get (set c M 0%float V S now) M 0%float S now') = Some V.
Proof.
  intros Hen Hage. unfold get, set, get_key, set_key. rewrite Hen. simpl.
  rewrite Hen. simpl. rewrite Map_get_set_eq. simpl.
  destruct (Z.ltb_spec (maxAge c) (now' - now)); [lia|done].
Qed.

(** C6, as the code has it.  For a cache created with a [maxSize] of at
    least 1: when [set] is called on the enabled cache holding [maxSize]
    entries or more, one entry is deleted before the insertion, and no
    entry has an older timestamp than the deleted one; every other entry
    stays; and after any [set] the number of entries is at most
    [maxSize]. *)
Theorem set_evicts_oldest_and_bounds_size
    (options : option Options) c key v now :
  1 ≤ maxSize (constructor T options) →
  reachable (constructor T options) c →
  (enabled c = true → maxSize c ≤ size c →
     ∃ o,
       In o (cache c)
       ∧ (∀ ke, In ke (cache c) → timestamp o.2 ≤ timestamp ke.2)
       ∧ S (List.length (Map_delete o.1 (cache c))) = List.length (cache c)
       ∧ Map_get o.1 (Map_delete o.1 (cache c)) = None
       ∧ (∀ k, k ≠ o.1 → Map_get k (Map_delete o.1 (cache c)) = Map_get k (cache c))
       ∧ cache (set_key c key v now)
         = Map_set key {| timestamp := now; value := v |} (Map_delete o.1 (cache c)))
  ∧ size (set_key c key v now) ≤ maxSize (set_key c key v now).
Proof.
  intros H1 Hr.
  assert (Hu0 : unique_keys (cache (constructor T options))) by apply NoDup_nil_2.
  destruct (reachable_inv _ _ Hr Hu0) as (Hu & Ha & Hs & He).
  assert (Hle : size c ≤ maxSize c).
  { apply (reachable_size _ _ Hr Hu0 H1).
    change (size (constructor T options)) with 0. lia. }
  split; [|apply size_set_key; [done|lia|done]].
  intros Hen Hfull.
  destruct (oldest_entry_nonempty (cache c)) as [o Ho].
  { intros Hnil. unfold size in Hfull. rewrite Hnil in Hfull. simpl in Hfull. lia. }
  exists o. destruct (oldest_entry_spec _ _ Ho) as [Hin Hold].
  split; [done|]. split; [done|].
  split; [apply length_Map_delete; [done|by apply (in_map fst)]|].
  split; [apply Map_get_delete_eq|].
  split; [intros k Hk; by apply Map_get_delete_ne|].
  unfold set_key, evict. rewrite Hen. simpl.
  destruct (Z.leb_spec (maxSize c) (size c)); [|lia]. by rewrite Ho.
Qed.

End CacheProperties.

Lemma set_then_get_returns_value_witness :
  Cache.enabled (Cache.constructor string None) = true
  ∧ 1000 - 0 ≤ Cache.maxAge (Cache.constructor string None)
  ∧ fst (@Cache.get string Samples.toy_platform
           (@Cache.set string Samples.toy_platform (Cache.constructor string None)
              [Samples.hello] 0%float "test response" None 0)
           [Samples.hello] 0%float None 1000)
    = Some "test response".
Proof.
  split; [reflexivity|]. split; [vm_compute; discriminate|].
  apply (@set_then_get_returns_value string Samples.toy_platform);
    [reflexivity | vm_compute; discriminate].
Defined.

(** The third write into a full cache of capacity 2, as in the test suite:
    the first key is gone, the other two are read back. *)
Example third_write_evicts_first :
  let c := Cache.set_key Samples.two_entries "k3" "response 3" 200 in
  fst (Cache.get_key c "k1" 200) = None
  ∧ fst (Cache.get_key c "k2" 200) = Some "response 2"
  ∧ fst (Cache.get_key c "k3" 200) = Some "response 3"
  ∧ Cache.size c = 2.
Proof. vm_compute. repeat split. Qed.

(** An entry read more than [maxAge] after it was written is a miss, and
    the read deletes it; a disabled cache never returns anything; and
    [clear] empties the cache. *)
Example expiry_disabled_and_clear :
  let c := Cache.set_key
             (Cache.constructor string
                (Some {| Cache.opt_maxAge := Some 1000; Cache.opt_maxSize := None;
                         Cache.opt_enabled := None |}))
             "k1" "response 1" 0 in
  let off := Cache.set_key
               (Cache.constructor string
                  (Some {| Cache.opt_maxAge := None; Cache.opt_maxSize := None;
                           Cache.opt_enabled := Some false |}))
               "k1" "response 1" 0 in
  fst (Cache.get_key c "k1" 1000) = Some "response 1"
  ∧ fst (Cache.get_key c "k1" 1001) = None
  ∧ Cache.size (snd (Cache.get_key c "k1" 1001)) = 0
  ∧ fst (Cache.get_key off "k1" 0) = None
  ∧ fst (Cache.get_key (Cache.clear c) "k1" 0) = None.
Proof. vm_compute. repeat split. Qed.

(** C6 fails as stated: a cache created with [maxSize: -1] holds one entry
    after one [set], which is more than [maxSize]. *)
Lemma negative_maxSize_exceeds_bound :
  Cache.enabled Samples.negative_capacity = true
  ∧ Cache.maxSize Samples.negative_capacity = -1
  ∧ Cache.size Samples.negative_capacity = 1
  ∧ ¬ (Cache.size Samples.negative_capacity ≤ Cache.maxSize Samples.negative_capacity).
Proof. vm_compute. repeat split. intros H. by apply H. Qed.

Lemma set_evicts_oldest_and_bounds_size_witness :
  1 ≤ Cache.maxSize (Cache.constructor string (Some (Samples.options 2)))
  ∧ Cache.reachable (Cache.constructor string (Some (Samples.options 2)))
      Samples.two_entries
  ∧ Cache.size (Cache.set_key Samples.two_entries "k3" "response 3" 200)
    ≤ Cache.maxSize (Cache.set_key Samples.two_entries "k3" "response 3" 200).
Proof.
  assert (Hr : Cache.reachable (Cache.constructor string (Some (Samples.options 2)))
                 Samples.two_entries)
    by (apply Cache.reach_set, Cache.reach_set, Cache.reach_new).
  split; [vm_compute; discriminate|]. split; [exact Hr|].
  apply (set_evicts_oldest_and_bounds_size (Some (Samples.options 2))
           Samples.two_entries "k3" "response 3" 200);
    [vm_compute; discriminate | exact Hr].
Defined.

(** *** Reads, expiry, [clear], and writes below and at capacity *)

Section CacheReads.
Import Cache.
Context {T : Type}.
Implicit Types (m : Map T) (c : LLMResponseCache T) (e : CacheEntry T).

Lemma length_Map_set_present k e e' m :
  Map_get k m = Some e' → List.length (Map_set k e m) = List.length m.
Proof.
  induction m as [|[k' e''] m IH]; simpl; [done|].
  destruct (k =? k')%string; simpl; [done|]. intros Hg. by rewrite IH.
Qed.

Lemma length_Map_set_absent k e m :
  Map_get k m = None → List.length (Map_set k e m) = S (List.length m).
Proof.
  induction m as [|[k' e''] m IH]; simpl; [done|].
  destruct (k =? k')%string; simpl; [done|]. intros Hg. by rewrite IH.
Qed.

Lemma evict_below_capacity c : size c < maxSize c → evict c = cache c.
Proof.
  intros Hlt. unfold evict.
  destruct (maxSize c <=? size c) eqn:Hle; [|done].
  apply Z.leb_le in Hle. lia.
Qed.

(** A read of what was just written, in time, is a hit that leaves the
    cache as it is. *)
Lemma get_key_set_key c key v now now' :
  enabled c = true → now' - now ≤ maxAge c →
  get_key (set_key c key v now) key now' = (Some v, set_key c key v now).
Proof.
  intros Hen Hage. unfold get_key, set_key. rewrite Hen. simpl. rewrite Hen. simpl.
  rewrite Map_get_set_eq. simpl. apply Z.ltb_ge in Hage. by rewrite Hage.
Qed.

Lemma get_key_config c key now :
  enabled (snd (get_key c key now)) = enabled c
  ∧ maxAge (snd (get_key c key now)) = maxAge c.
Proof.
  unfold get_key. destruct (enabled c) eqn:Hen; simpl; [|done].
  destruct (Map_get key (cache c)) as [e|]; simpl; [|done].
  by destruct (maxAge c <? now - timestamp e).
Qed.

(** A read adds no entry and changes none. *)
Lemma get_key_stores_nothing c key now k e :
  Map_get k (cache (snd (get_key c key now))) = Some e → Map_get k (cache c) = Some e.
Proof.
  unfold get_key. destruct (enabled c); simpl; [|done].
  destruct (Map_get key (cache c)) as [entry|] eqn:Hget; simpl; [|done].
  destruct (maxAge c <? now - timestamp entry); simpl; [|done].
  destruct (String.eqb_spec k key) as [->|Hne].
  - by rewrite Map_get_delete_eq.
  - by rewrite Map_get_delete_ne.
Qed.

(** X1.  A hit is sound: whenever [get] returns a value, the cache is
    enabled, the value is the one stored under the key, the entry is not
    older than [maxAge], and the read has left the cache as it was. *)
Theorem get_returns_only_fresh_stored_values c key now v :
  fst (get_key c key now) = Some v →
  enabled c = true
  ∧ (∃ e, Map_get key (cache c) = Some e ∧ value e = v
          ∧ now - timestamp e ≤ maxAge c)
  ∧ snd (get_key c key now) = c.
Proof.
  unfold get_key.
  destruct (enabled c); simpl; [|done].
  destruct (Map_get key (cache c)) as [e|] eqn:Hget; simpl; [|done].
  destruct (maxAge c <? now - timestamp e) eqn:Hage; simpl; [done|].
  intros [= <-]. apply Z.ltb_ge in Hage. eauto 6.
Qed.

(** X2.  Expiry is lazy and final: a read more than [maxAge] after the
    write misses and deletes the entry, so that every later read of the
    same request misses too, whatever the clock says; the entries under
    other keys stay. *)
Theorem expired_entry_is_dropped `{Platform} c M t V (S : option JS.JSON) now now' :
  enabled c = true →
  maxAge c < now' - now →
  let written := set c M t V S now in
  let read := get written M t S now' in
  fst read = None
  ∧ Map_get (generateKey M t S) (cache (snd read)) = None
  ∧ (∀ k, k ≠ generateKey M t S →
          Map_get k (cache (snd read)) = Map_get k (cache written))
  ∧ (∀ later, fst (get (snd read) M t S later) = None).
Proof.
  intros Hen Hage written read.
  assert (Hw : Map_get (generateKey M t S) (cache written)
               = Some {| timestamp := now; value := V |}).
  { unfold written, set, set_key. rewrite Hen. simpl. apply Map_get_set_eq. }
  assert (Hwen : enabled written = true).
  { unfold written, set, set_key. rewrite Hen. simpl. done. }
  assert (Hwage : maxAge written = maxAge c).
  { unfold written, set, set_key. rewrite Hen. simpl. done. }
  assert (Hread : read = (None, with_cache written
                                  (Map_delete (generateKey M t S) (cache written)))).
  { unfold read, get, get_key. rewrite Hwen, Hw. simpl. rewrite Hwage.
    apply Z.ltb_lt in Hage. by rewrite Hage. }
  rewrite Hread. simpl. repeat split.
  - apply Map_get_delete_eq.
  - intros k Hk. by apply Map_get_delete_ne.
  - intros later. unfold get, get_key. simpl. rewrite Hwen. simpl.
    by rewrite Map_get_delete_eq.
Qed.

(** X3.  A cache created with [enabled: false] never holds anything:
    whatever was called on it, it is empty, [set] leaves it as it is and
    [get] misses. *)
Theorem disabled_cache_never_stores (options : Options) c :
  opt_enabled options = Some false →
  reachable (constructor T (Some options)) c →
  cache c = []
  ∧ (∀ key v now, set_key c key v now = c)
  ∧ (∀ key now, get_key c key now = (None, c)).
Proof.
  intros Hoff Hreach.
  assert (Hinv : cache c = [] ∧ enabled c = false).
  { induction Hreach as [|c key v now _ [IHc IHe]|c key now _ [IHc IHe]|c _ [IHc IHe]].
    - split; [done|]. unfold constructor. simpl. by rewrite Hoff.
    - unfold set_key. by rewrite IHe.
    - unfold get_key. by rewrite IHe.
    - done. }
  destruct Hinv as [Hc He]. split; [done|]. split.
  - intros key v now. unfold set_key. by rewrite He.
  - intros key now. unfold get_key. by rewrite He.
Qed.

(** X4.  [clear] takes the cache back to the state the constructor left it
    in: no entry, the configuration it was created with; every read of a
    cleared cache misses. *)
Theorem clear_returns_to_the_initial_state (options : option Options) c :
  reachable (constructor T options) c →
  clear c = constructor T options
  ∧ size (clear c) = 0
  ∧ (∀ key now, fst (get_key (clear c) key now) = None).
Proof.
  intros Hreach.
  destruct (reachable_inv _ _ Hreach) as (_ & Hage & Hsize & Hen); [constructor|].
  split; [|split; [done|]].
  - unfold clear, with_cache. rewrite Hage, Hsize, Hen. done.
  - intros key now. unfold get_key. simpl. by destruct (enabled c).
Qed.

(** X5.  A write into a cache that is below its capacity touches one key:
    the key holds the new value with the time of the write, every other
    key holds what it held, and the cache grows by one entry exactly when
    the key is new. *)
Theorem set_below_capacity_touches_one_key c key v now :
  enabled c = true →
  size c < maxSize c →
  Map_get key (cache (set_key c key v now)) = Some {| timestamp := now; value := v |}
  ∧ (∀ k, k ≠ key → Map_get k (cache (set_key c key v now)) = Map_get k (cache c))
  ∧ size (set_key c key v now)
    = match Map_get key (cache c) with
      | Some _ => size c
      | None => size c + 1
      end.
Proof.
  intros Hen Hlt. unfold set_key. rewrite Hen. simpl.
  rewrite (evict_below_capacity c Hlt). split; [apply Map_get_set_eq|]. split.
  - intros k Hk. by apply Map_get_set_ne.
  - unfold size. simpl. destruct (Map_get key (cache c)) as [e|] eqn:Hget.
    + by rewrite (length_Map_set_present _ _ _ _ Hget).
    + rewrite (length_Map_set_absent _ _ _ Hget). lia.
Qed.

(** The scan keeps the first of the entries with the least time stamp. *)
Lemma fold_older_first_minimum m : ∀ a o,
  fold_left older m (Some a) = Some o →
  (o = a ∧ ∀ ke, In ke m → timestamp a.2 ≤ timestamp ke.2)
  ∨ (∃ before after,
        m = (before ++ o :: after)%list
        ∧ timestamp o.2 < timestamp a.2
        ∧ (∀ ke, In ke before → timestamp o.2 < timestamp ke.2)
        ∧ (∀ ke, In ke after → timestamp o.2 ≤ timestamp ke.2)).
Proof.
  induction m as [|x m IH]; intros a o; simpl.
  { intros [= <-]. left. split; [done|]. intros ke []. }
  destruct (timestamp x.2 <? timestamp a.2) eqn:Hlt; intros Hfold.
  - apply Z.ltb_lt in Hlt.
    destruct (IH _ _ Hfold) as [[-> Hall]|(before & after & -> & Hox & Hb & Ha)].
    + right. exists [], m. simpl. repeat split; [done| |done]. intros ke [].
    + right. exists (x :: before), after. simpl. repeat split; [lia| |done].
      intros ke [<-|Hin]; [done|]. by apply Hb.
  - apply Z.ltb_ge in Hlt.
    destruct (IH _ _ Hfold) as [[-> Hall]|(before & after & -> & Hox & Hb & Ha)].
    + left. split; [done|]. intros ke [<-|Hin]; [done|]. by apply Hall.
    + right. exists (x :: before), after. simpl. repeat split; [done| |done].
      intros ke [<-|Hin]; [lia|]. by apply Hb.
Qed.

Lemma oldest_entry_first_minimum m o :
  oldest_entry m = Some o →
  ∃ before after,
    m = (before ++ o :: after)%list
    ∧ (∀ ke, In ke before → timestamp o.2 < timestamp ke.2)
    ∧ (∀ ke, In ke after → timestamp o.2 ≤ timestamp ke.2).
Proof.
  destruct m as [|x m]; [done|]. unfold oldest_entry. simpl. intros Hfold.
  destruct (fold_older_first_minimum _ _ _ Hfold)
    as [[-> Hall]|(before & after & -> & Hox & Hb & Ha)].
  - exists [], m. simpl. repeat split; [|done]. intros ke [].
  - exists (x :: before), after. simpl. repeat split; [|done].
    intros ke [<-|Hin]; [done|]. by apply Hb.
Qed.

Lemma Map_delete_middle before (o : string * CacheEntry T) after :
  unique_keys (before ++ o :: after)%list →
  Map_delete o.1 (before ++ o :: after)%list = (before ++ after)%list.
Proof.
  unfold unique_keys. induction before as [|[k e] before IH]; simpl; intros Hnd.
  - destruct o as [k e]. simpl in *. rewrite String.eqb_refl.
    apply NoDup_cons in Hnd as [Hnotin _]. rewrite list_elem_of_In in Hnotin.
    by apply Map_delete_absent.
  - apply NoDup_cons in Hnd as [Hnotin Hnd]. rewrite list_elem_of_In in Hnotin.
    destruct (o.1 =? k)%string eqn:Heq.
    + apply String.eqb_eq in Heq. exfalso. apply Hnotin.
      rewrite List.map_app, in_app_iff. right. simpl. by left.
    + f_equal. by apply IH.
Qed.

(** X6.  Which entry a full cache gives up: in the order of insertion,
    the first of the entries with the least time stamp.  Every entry
    inserted before it is strictly younger, no entry inserted after it is
    older, and the eviction takes out that entry and no other. *)
Theorem eviction_takes_the_first_of_the_oldest (options : option Options) c :
  reachable (constructor T options) c →
  maxSize c ≤ size c →
  cache c ≠ [] →
  ∃ before o after,
    cache c = (before ++ o :: after)%list
    ∧ (∀ ke, In ke before → timestamp o.2 < timestamp ke.2)
    ∧ (∀ ke, In ke after → timestamp o.2 ≤ timestamp ke.2)
    ∧ evict c = (before ++ after)%list.
Proof.
  intros Hreach Hfull Hne.
  destruct (reachable_inv _ _ Hreach) as (Huniq & _); [constructor|].
  destruct (oldest_entry_nonempty _ Hne) as [o Ho].
  destruct (oldest_entry_first_minimum _ _ Ho) as (before & after & Hm & Hb & Ha).
  exists before, o, after. repeat split; [done|done|done|].
  unfold evict. apply Z.leb_le in Hfull. rewrite Hfull, Ho, Hm.
  apply Map_delete_middle. by rewrite <- Hm.
Qed.

(** X7.  The test for a full cache comes before the write and does not
    look at the key: writing a key that the full cache already holds
    still evicts the oldest entry.  When that is the entry of another key,
    the other key is lost and the cache ends one entry below where it
    was. *)
Theorem overwrite_in_full_cache_evicts_another_entry
    (options : option Options) c key v now o old :
  reachable (constructor T options) c →
  enabled c = true →
  maxSize c ≤ size c →
  oldest_entry (cache c) = Some o →
  o.1 ≠ key →
  Map_get key (cache c) = Some old →
  Map_get key (cache (set_key c key v now)) = Some {| timestamp := now; value := v |}
  ∧ Map_get o.1 (cache (set_key c key v now)) = None
  ∧ size (set_key c key v now) = size c - 1.
Proof.
  intros Hreach Hen Hfull Ho Hne Hold.
  destruct (reachable_inv _ _ Hreach) as (Huniq & _); [constructor|].
  destruct (oldest_entry_spec _ _ Ho) as [Hin _].
  assert (Hev : evict c = Map_delete o.1 (cache c)).
  { unfold evict. apply Z.leb_le in Hfull. by rewrite Hfull, Ho. }
  unfold set_key. rewrite Hen. simpl. rewrite Hev.
  split; [apply Map_get_set_eq|]. split.
  - rewrite Map_get_set_ne by done. apply Map_get_delete_eq.
  - unfold size. simpl.
    assert (Hkept : Map_get key (Map_delete o.1 (cache c)) = Some old).
    { rewrite Map_get_delete_ne by done. done. }
    rewrite (length_Map_set_present _ _ _ _ Hkept).
    assert (Hlen := length_Map_delete o.1 (cache c) Huniq).
    rewrite <- Hlen; [lia|]. apply (in_map fst) in Hin. done.
Qed.

End CacheReads.

Lemma get_returns_only_fresh_stored_values_witness :
  fst (Cache.get_key Samples.two_entries "k2" 200) = Some "response 2"
  ∧ Cache.enabled Samples.two_entries = true
  ∧ snd (Cache.get_key Samples.two_entries "k2" 200) = Samples.two_entries.
Proof.
  split; [reflexivity|].
  destruct (get_returns_only_fresh_stored_values Samples.two_entries "k2" 200
              "response 2" eq_refl) as (Hen & _ & Hsame).
  split; [exact Hen|exact Hsame].
Defined.

Lemma expired_entry_is_dropped_witness :
  Cache.enabled (Cache.constructor string None) = true
  ∧ Cache.maxAge (Cache.constructor string None) < 3600001 - 0
  ∧ fst (@Cache.get string Samples.toy_platform
           (@Cache.set string Samples.toy_platform (Cache.constructor string None)
              [Samples.hello] 0%float "test response" None 0)
           [Samples.hello] 0%float None 3600001)
    = None.
Proof.
  split; [reflexivity|]. split; [reflexivity|].
  apply (@expired_entry_is_dropped string Samples.toy_platform
           (Cache.constructor string None) [Samples.hello] 0%float "test response"
           None 0 3600001); reflexivity.
Defined.

Lemma disabled_cache_never_stores_witness :
  Cache.opt_enabled Samples.disabled = Some false
  ∧ Cache.reachable (Cache.constructor string (Some Samples.disabled))
      Samples.written_while_disabled
  ∧ Cache.cache Samples.written_while_disabled = [].
Proof.
  assert (Hr : Cache.reachable (Cache.constructor string (Some Samples.disabled))
                 Samples.written_while_disabled)
    by apply Cache.reach_set, Cache.reach_new.
  split; [reflexivity|]. split; [exact Hr|].
  apply (disabled_cache_never_stores Samples.disabled
           Samples.written_while_disabled eq_refl Hr).
Defined.

Lemma clear_returns_to_the_initial_state_witness :
  Cache.reachable (Cache.constructor string (Some (Samples.options 2)))
    Samples.two_entries
  ∧ Cache.clear Samples.two_entries
    = Cache.constructor string (Some (Samples.options 2)).
Proof.
  assert (Hr : Cache.reachable (Cache.constructor string (Some (Samples.options 2)))
                 Samples.two_entries)
    by (apply Cache.reach_set, Cache.reach_set, Cache.reach_new).
  split; [exact Hr|].
  apply (clear_returns_to_the_initial_state (Some (Samples.options 2))
           Samples.two_entries Hr).
Defined.

Lemma set_below_capacity_touches_one_key_witness :
  Cache.enabled (Cache.constructor string None) = true
  ∧ Cache.size (Cache.constructor string None)
    < Cache.maxSize (Cache.constructor string None)
  ∧ Cache.size (Cache.set_key (Cache.constructor string None) "k1" "response 1" 0)
    = 0 + 1.
Proof.
  split; [reflexivity|]. split; [reflexivity|].
  apply (set_below_capacity_touches_one_key (Cache.constructor string None)
           "k1" "response 1" 0); reflexivity.
Defined.

Lemma eviction_takes_the_first_of_the_oldest_witness :
  Cache.reachable (Cache.constructor string (Some (Samples.options 2)))
    Samples.tied_entries
  ∧ Cache.maxSize Samples.tied_entries ≤ Cache.size Samples.tied_entries
  ∧ Cache.cache Samples.tied_entries ≠ []
  ∧ ∃ before o after,
      Cache.cache Samples.tied_entries = (before ++ o :: after)%list
      ∧ (∀ ke, In ke before → Cache.timestamp o.2 < Cache.timestamp ke.2)
      ∧ (∀ ke, In ke after → Cache.timestamp o.2 ≤ Cache.timestamp ke.2)
      ∧ Cache.evict Samples.tied_entries = (before ++ after)%list.
Proof.
  assert (Hr : Cache.reachable (Cache.constructor string (Some (Samples.options 2)))
                 Samples.tied_entries)
    by (apply Cache.reach_set, Cache.reach_set, Cache.reach_new).
  assert (Hfull : Cache.maxSize Samples.tied_entries ≤ Cache.size Samples.tied_entries)
    by (vm_compute; discriminate).
  assert (Hne : Cache.cache Samples.tied_entries ≠ []) by discriminate.
  split; [exact Hr|]. split; [exact Hfull|]. split; [exact Hne|].
  apply (eviction_takes_the_first_of_the_oldest (Some (Samples.options 2))
           Samples.tied_entries Hr Hfull Hne).
Defined.

(** Of two entries written in the same millisecond, the one written first
    goes. *)
Example tie_evicts_the_first_written :
  Cache.evict Samples.tied_entries
  = [("k2", {| Cache.timestamp := 0; Cache.value := "response 2" |})].
Proof. reflexivity. Qed.

Lemma overwrite_in_full_cache_evicts_another_entry_witness :
  Cache.oldest_entry (Cache.cache Samples.two_entries)
  = Some ("k1", {| Cache.timestamp := 0; Cache.value := "response 1" |})
  ∧ Cache.size Samples.two_entries = 2
  ∧ Cache.size (Cache.set_key Samples.two_entries "k2" "response 2, again" 200) = 2 - 1
  ∧ Cache.cache (Cache.set_key Samples.two_entries "k2" "response 2, again" 200)
    = [("k2", {| Cache.timestamp := 200; Cache.value := "response 2, again" |})].
Proof.
  assert (Hr : Cache.reachable (Cache.constructor string (Some (Samples.options 2)))
                 Samples.two_entries)
    by (apply Cache.reach_set, Cache.reach_set, Cache.reach_new).
  split; [reflexivity|]. split; [reflexivity|]. split; [|reflexivity].
  apply (overwrite_in_full_cache_evicts_another_entry (Some (Samples.options 2))
           Samples.two_entries "k2" "response 2, again" 200
           ("k1", {| Cache.timestamp := 0; Cache.value := "response 1" |})
           {| Cache.timestamp := 100; Cache.value := "response 2" |} Hr);
    [reflexivity | vm_compute; discriminate | reflexivity | discriminate | reflexivity].
Defined.

(** ** Normalised schemas *)

Section Normalisation.
Import JS Cache.

Lemma JSON_induction (P : JSON → Prop) :
  P JNull → (∀ b, P (JBool b)) → (∀ n, P (JNum n)) → (∀ s, P (JStr s)) →
  (∀ items, Forall P items → P (JArr items)) →
  (∀ members, Forall (λ kv, P kv.2) members → P (JObj members)) →
  ∀ v, P v.
Proof.
  intros Hnull Hbool Hnum Hstr Harr Hobj. fix IH 1.
  intros [|b|n|s|items|members]; [done..| |].
  - apply Harr. induction items as [|x items IHitems]; constructor; [apply IH|done].
  - apply Hobj. induction members as [|[k x] members IHmembers]; constructor;
      [apply IH|done].
Qed.

Lemma normalizeObject_obj members :
  normalizeObject (JObj members)
  = JObj (fold_left (assign_from (List.map normalized_member members))
            (sort (List.map fst members)) []).
Proof. reflexivity. Qed.

Lemma keys_normalized members :
  List.map fst (List.map normalized_member members) = List.map fst members.
Proof. rewrite List.map_map. by apply map_ext. Qed.

Lemma proper_obj members :
  proper (JObj members) = true
  ↔ NoDup (List.map fst members)
    ∧ ¬ In "__proto__" (List.map fst members)
    ∧ Forall (λ kv, proper kv.2 = true) members.
Proof.
  simpl. rewrite !andb_true_iff, !bool_decide_eq_true, forallb_forall, Forall_forall.
  rewrite list_elem_of_In. split; intros [[? ?] Hall] || intros (? & ? & Hall);
    repeat split; try done; intros x Hx; apply Hall; by apply list_elem_of_In.
Qed.

Lemma proper_arr items :
  proper (JArr items) = true ↔ Forall (λ x, proper x = true) items.
Proof.
  simpl. rewrite forallb_forall, Forall_forall.
  split; intros Hall x Hx; apply Hall; by apply list_elem_of_In.
Qed.

(** The normalised object has the normalised members, in an order of its
    own. *)
Lemma normalized_members_Permutation members :
  NoDup (List.map fst members) → ¬ In "__proto__" (List.map fst members) →
  fold_left (assign_from (List.map normalized_member members))
    (sort (List.map fst members)) []
  ≡ₚ List.map normalized_member members.
Proof.
  intros Hnd Hproto.
  assert (Hsort : sort (List.map fst members) ≡ₚ List.map fst members)
    by apply merge_sort_Permutation.
  rewrite fold_assign_Permutation; [|by rewrite Hsort|by rewrite Hsort|done].
  simpl. rewrite (select_Permutation _ _ _ Hsort).
  rewrite <- (keys_normalized members) at 1. apply reflexive_eq, select_keys.
  by rewrite keys_normalized.
Qed.

(** Two schemas with the same content in another order of keys have the
    same normal form. *)
Lemma key_perm_normalizeObject v1 :
  ∀ v2, proper v1 = true → key_perm v1 v2 → normalizeObject v1 = normalizeObject v2.
Proof.
  induction v1 as [|b|n|s|items IH|members IH] using JSON_induction;
    intros v2 Hproper Hperm; inversion Hperm; subst; try done.
  - (* arrays *)
    simpl. f_equal. apply proper_arr in Hproper.
    match goal with Hf : Forall2 key_perm items _ |- _ =>
      induction Hf as [|x y items items2 Hxy Hf IHf]; [done|] end.
    apply Forall_cons in IH as [IHx IH]. apply Forall_cons in Hproper as [Hx Hproper].
    simpl. f_equal; [by apply IHx|]. apply IHf; [done|done|by constructor].
  - (* objects *)
    match goal with
    | Hp : members ≡ₚ ?r, Hf : Forall2 _ ?r ?m2 |- _ =>
        rename r into reordered; rename m2 into members2; rename Hp into Hreorder;
        rename Hf into Hsame
    end.
    apply proper_obj in Hproper as (Hnd & _ & Hall).
    rewrite !normalizeObject_obj. f_equal.
    assert (Hnorm : List.map normalized_member reordered
                    = List.map normalized_member members2).
    { assert (IH' : Forall (λ kv, ∀ v2, proper kv.2 = true → key_perm kv.2 v2 →
                                  normalizeObject kv.2 = normalizeObject v2) reordered)
        by (by rewrite <- Hreorder).
      assert (Hall' : Forall (λ kv, proper kv.2 = true) reordered)
        by (by rewrite <- Hreorder).
      clear Hreorder Hperm IH Hall Hnd.
      induction Hsame as [|a b reordered members2 [Hk Hv] Hsame IHsame]; [done|].
      apply Forall_cons in IH' as [IHa IH']. apply Forall_cons in Hall' as [Ha Hall'].
      simpl. f_equal; [|by apply IHsame].
      unfold normalized_member. rewrite Hk. f_equal. by apply IHa. }
    assert (Hkeys : List.map fst members ≡ₚ List.map fst members2).
    { rewrite Hreorder, <- (keys_normalized reordered), Hnorm. by rewrite keys_normalized. }
    rewrite (sort_Permutation _ _ Hkeys).
    assert (Hget : ∀ k, obj_get k (List.map normalized_member members)
                        = obj_get k (List.map normalized_member members2)).
    { intros k. rewrite <- Hnorm. apply obj_get_Permutation.
      - by rewrite keys_normalized.
      - by apply Permutation_map. }
    generalize (sort (List.map fst members2)) (@nil (string * JSON)).
    intros ks. induction ks as [|k ks IHks]; intros acc; simpl; [done|].
    rewrite IHks. f_equal. unfold assign_from. by rewrite Hget.
Qed.


End Normalisation.

(** ** The cache key *)

Section CacheKey.
Import JS Cache.
Context `{platform : Platform}.

Lemma key_perm_truthy v1 v2 : key_perm v1 v2 → truthy v1 = truthy v2.
Proof. by destruct 1. Qed.






End CacheKey.



(** *** The normal form is a fixed point *)

Section NormalForm.
Import JS Cache.

(** A value and its normal form have the same content. *)
Lemma key_perm_normalized v : proper v = true → key_perm v (normalizeObject v).
Proof.
  induction v as [| | | |items IH|members IH] using JSON_induction; intros Hp;
    try (simpl; constructor).
  - apply proper_arr in Hp. induction items as [|x items IHi]; simpl; [constructor|].
    inversion IH; inversion Hp; subst. constructor; auto.
  - apply proper_obj in Hp as (Hnd & Hproto & Hmem).
    rewrite normalizeObject_obj.
    pose proof (normalized_members_Permutation members Hnd Hproto) as Hperm.
    apply Permutation_map_inv in Hperm as (reordered & Hfold & Hre).
    rewrite Hfold. apply kp_obj with (reordered := reordered); [done|].
    assert (Hall : Forall (λ kv, key_perm kv.2 (normalizeObject kv.2)) reordered).
    { rewrite <- Hre. rewrite Forall_forall in *. intros kv Hin. auto. }
    clear -Hall. induction Hall; simpl; constructor; auto.
Qed.

(** X8.  Normalising twice is normalising once; so a schema and its normal
    form have the same cache key. *)
Theorem normalizeObject_is_idempotent `{Platform} v :
  proper v = true →
  normalizeObject (normalizeObject v) = normalizeObject v
  ∧ ∀ messages temperature,
      generateKey messages temperature (Some (normalizeObject v))
      = generateKey messages temperature (Some v).
Proof.
  intros Hp.
  assert (Hperm : key_perm v (normalizeObject v)) by by apply key_perm_normalized.
  assert (Hidem : normalizeObject (normalizeObject v) = normalizeObject v).
  { symmetry. by apply key_perm_normalizeObject. }
  split; [done|]. intros messages temperature.
  unfold generateKey, keyObj. by rewrite <- (key_perm_truthy _ _ Hperm), Hidem.
Qed.

End NormalForm.

Lemma normalizeObject_is_idempotent_witness :
  Cache.proper Samples.person_schema = true
  ∧ Cache.normalizeObject (Cache.normalizeObject Samples.person_schema)
    = Cache.normalizeObject Samples.person_schema.
Proof.
  split; [reflexivity|].
  apply (@normalizeObject_is_idempotent Samples.toy_platform Samples.person_schema).
  reflexivity.
Defined.

(** ** The schema adapters *)

Section Gemini.
Import JS Gemini.

(** What a call that returns has done to the root: the three markers are
    gone, [required] lists the keys of [properties], and the schemas under
    [properties] and [items] are the ones that were passed in. *)
Lemma cleanSchemaForGemini_root o cleaned :
  cleanSchemaForGemini (JObj o) = Ok cleaned →
  prop cleaned "$schema" = None
  ∧ prop cleaned "additionalProperties" = None
  ∧ prop cleaned "optional" = None
  ∧ (∀ p, obj_get "properties" o = Some p → truthy p && typeof_object p = true →
          prop cleaned "required" = Some (JArr (List.map JStr (Object_keys p))))
  ∧ prop cleaned "properties" = obj_get "properties" o
  ∧ prop cleaned "items" = obj_get "items" o.
Proof.
  simpl. rewrite !on_prop_get.
  set (o3 := obj_delete "optional" (obj_delete "additionalProperties" (obj_delete "$schema" o))).
  assert (Hget : ∀ k, k ≠ "$schema" → k ≠ "additionalProperties" → k ≠ "optional" →
                      obj_get k o3 = obj_get k o).
  { intros k H1 H2 H3. unfold o3. by rewrite !obj_get_delete_ne. }
  assert (Hgone : obj_get "$schema" o3 = None ∧ obj_get "additionalProperties" o3 = None
                  ∧ obj_get "optional" o3 = None).
  { unfold o3. rewrite obj_get_delete_eq.
    rewrite (obj_get_delete_ne "additionalProperties" "optional") by done.
    rewrite obj_get_delete_eq.
    rewrite (obj_get_delete_ne "$schema" "optional") by done.
    rewrite (obj_get_delete_ne "$schema" "additionalProperties") by done.
    by rewrite obj_get_delete_eq. }
  destruct Hgone as (G1 & G2 & G3).
  rewrite (Hget "properties") by done.
  intros Hret.
  assert (cleaned = JObj match obj_get "properties" o with
                         | Some p => if truthy p && typeof_object p
                                     then obj_set "required" (JArr (List.map JStr (Object_keys p))) o3
                                     else o3
                         | None => o3
                         end) as ->.
  { revert Hret.
    repeat match goal with
           | |- context [bind ?r _] => destruct r; simpl; [|discriminate]
           end.
    by intros [= <-]. }
  clear Hret. simpl. destruct (obj_get "properties" o) as [p|] eqn:Hp;
    [destruct (truthy p && typeof_object p) eqn:Hobj|];
    repeat split;
    try (rewrite obj_get_set_ne by done); rewrite ?Hget by done; try done.
  - intros p' [= <-] _. by rewrite obj_get_set_eq.
  - intros p' [= <-] Hcontra. by rewrite Hobj in Hcontra.
Qed.

(** C3, the failing input.  On a schema whose [address] property is itself
    an object schema, the root loses [$schema] and [additionalProperties]
    and gains [required], but the nested schema comes back as it went in:
    it still has [additionalProperties] and [optional], and it has no
    [required]. *)
Theorem cleanSchemaForGemini_leaves_nested_levels :
  cleanSchemaForGemini Samples.nested_schema
  = Ok (JObj [("type", JStr "object");
              ("properties", JObj [("address", Samples.address_schema)]);
              ("required", JArr [JStr "address"])])
  ∧ prop Samples.address_schema "additionalProperties" = Some (JBool false)
  ∧ prop Samples.address_schema "optional" = Some (JBool true)
  ∧ prop Samples.address_schema "required" = None.
Proof. vm_compute. repeat split. Qed.

End Gemini.

Section OpenAI.
Import JS Cache OpenAI.

Lemma get_empty `{Platform} {T} (c : LLMResponseCache T) M t S now :
  cache c = [] → get c M t S now = (None, c).
Proof.
  intros Hnil. unfold get, get_key. destruct (enabled c); [|done]. simpl.
  by rewrite Hnil.
Qed.

(** The part of C4 that holds: a root that is an object or an array but
    whose [type] is not ['object'] is sent to the vendor inside a
    single-key object, its own nested levels made strict. *)
Lemma enforceStrictSchema_wraps_root (S : JSON) :
  truthy S = true → typeof_object S = true → prop_is S "type" "object" = false →
  enforceStrictSchema S true
  = JObj [("type", JStr "object");
          ("properties", JObj [("___results", enforceNested S)]);
          ("additionalProperties", JBool false);
          ("strict", JBool true);
          ("required", JArr [JStr "___results"])].
Proof.
  intros Ht Ho Hty. unfold enforceStrictSchema. rewrite Ht, Ho, Hty. reflexivity.
Qed.

(** The other part that holds: a truthy [___results] is taken out of the
    parsed reply. *)
Lemma parseResponse_unwraps `{Parser} text (r : JSON) :
  JSON_parse text = Ok (JObj [("___results", r)]) → truthy r = true →
  parseResponse text = Ok r.
Proof. intros Hp Ht. unfold parseResponse. rewrite Hp. simpl. by rewrite Ht. Qed.

(** C4, the failing input.  The schema [{type: 'string'}] is dispatched
    inside the [___results] wrapper; when the vendor's reply parses to
    [{___results: ""}], [generateObject] returns that wrapper object as the
    response, not the empty string in it. *)
Theorem generateObject_returns_wrapper_for_falsy_result
    `{Platform} `{Parser} `{Vendor} env
    (c : LLMResponseCache LLMObjectResponse) messages temperature reply :
  cache c = [] →
  addNullableToOptional Samples.string_schema = Samples.string_schema →
  (∀ request, chat_completions_create request = Ok reply) →
  JSON_parse reply = Ok (JObj [("___results", JStr "")]) →
  enforceStrictSchema Samples.string_schema true
  = JObj [("type", JStr "object");
          ("properties", JObj [("___results", Samples.string_schema)]);
          ("additionalProperties", JBool false);
          ("strict", JBool true);
          ("required", JArr [JStr "___results"])]
  ∧ fst (generateObject env c messages Samples.string_schema temperature)
    = Ok {| response := JObj [("___results", JStr "")];
            messages := (messages
                         ++ [ {| role := "assistant";
                                 content := Some (JStr reply);
                                 transient := [] |} ])%list |}.
Proof.
  intros Hnil Hadd Hreply Hparse. split; [reflexivity|].
  unfold generateObject.
  assert (Hmiss : fst (if PrimFloat.eqb temperature 0
                       then get c messages temperature (Some Samples.string_schema)
                              (date_now env)
                       else (None, c)) = None).
  { destruct (PrimFloat.eqb temperature 0); [|done]. by rewrite get_empty. }
  rewrite Hmiss, Hadd, Hreply. unfold parseResponse. rewrite Hparse. reflexivity.
Qed.

End OpenAI.

Lemma generateObject_returns_wrapper_for_falsy_result_witness :
  fst (@OpenAI.generateObject Samples.toy_platform Samples.empty_result_parser
         Samples.empty_result_vendor Samples.env
         (Cache.constructor OpenAI.LLMObjectResponse None)
         [Samples.hello] Samples.string_schema 0%float)
  = JS.Ok {| OpenAI.response := Samples.empty_result;
             OpenAI.messages :=
               [Samples.hello;
                {| Cache.role := "assistant";
                   Cache.content := Some (JS.JStr Samples.empty_result_text);
                   Cache.transient := [] |}] |}.
Proof.
  apply (@generateObject_returns_wrapper_for_falsy_result
           Samples.toy_platform Samples.empty_result_parser Samples.empty_result_vendor
           Samples.env (Cache.constructor OpenAI.LLMObjectResponse None)
           [Samples.hello] 0%float Samples.empty_result_text);
    [reflexivity | reflexivity | intros; reflexivity | reflexivity].
Defined.

(** *** More on plain objects *)

Section ObjectsMore.
Import JS Vocabulary.

Lemma obj_delete_absent k o : obj_get k o = None → obj_delete k o = o.
Proof.
  induction o as [|[k' v] o IH]; simpl; [done|].
  destruct (k =? k')%string; [done|]. intros Hg. by rewrite IH.
Qed.

Lemma obj_replace_same k v o : obj_get k o = Some v → obj_replace k v o = o.
Proof.
  induction o as [|[k' v'] o IH]; simpl; [done|].
  destruct (k =? k')%string; [by intros [= ->]|]. intros Hg. by rewrite IH.
Qed.

(** Writing the value that a property has changes nothing. *)
Lemma obj_set_same k v o : obj_get k o = Some v → obj_set k v o = o.
Proof.
  intros Hg. unfold obj_set, obj_has. rewrite Hg. by apply obj_replace_same.
Qed.

Lemma obj_get_set k k' v o :
  obj_get k (obj_set k' v o) = if (k =? k')%string then Some v else obj_get k o.
Proof.
  destruct (k =? k')%string eqn:Hk.
  - apply String.eqb_eq in Hk as ->. apply obj_get_set_eq.
  - apply String.eqb_neq in Hk. by apply obj_get_set_ne.
Qed.

Lemma obj_get_delete k k' o :
  obj_get k (obj_delete k' o) = if (k =? k')%string then None else obj_get k o.
Proof.
  destruct (k =? k')%string eqn:Hk.
  - apply String.eqb_eq in Hk as ->. apply obj_get_delete_eq.
  - apply String.eqb_neq in Hk. by apply obj_get_delete_ne.
Qed.

Lemma obj_get_In k v (o : Obj) : obj_get k o = Some v → In (k, v) o.
Proof.
  induction o as [|[k' v'] o IHo]; simpl; [done|].
  destruct (k =? k')%string eqn:Hk.
  - apply String.eqb_eq in Hk as ->. intros [= ->]. by left.
  - right. auto.
Qed.

Lemma obj_get_Object_values k v (o : Obj) :
  obj_get k o = Some v → In v (Object_values (JObj o)).
Proof.
  intros Hget. simpl. apply in_map_iff. exists (k, v). split; [done|].
  by apply obj_get_In.
Qed.

(** Induction on a value with what holds of its values and of theirs. *)
Lemma JSON_deep_induction (P : JSON → Prop) :
  (∀ v, Forall P (Object_values v) →
        Forall (λ c, Forall P (Object_values c)) (Object_values v) → P v) →
  ∀ v, P v.
Proof.
  intros Hstep.
  assert (Hdeep : ∀ v, P v ∧ Forall P (Object_values v)).
  { induction v as [| | | |items IH|o IH] using JSON_induction;
      try (split; [apply Hstep; constructor|constructor]).
    - assert (Hkids : Forall P items).
      { eapply Forall_impl; [exact IH|]. by intros x [Hx _]. }
      split; [|done]. apply Hstep; [done|].
      eapply Forall_impl; [exact IH|]. by intros x [_ Hx].
    - assert (Hkids : Forall P (List.map snd o)).
      { rewrite Forall_map. eapply Forall_impl; [exact IH|]. by intros x [Hx _]. }
      split; [|done]. apply Hstep; [done|].
      simpl. rewrite Forall_map. eapply Forall_impl; [exact IH|]. by intros x [_ Hx]. }
  intros v. apply Hdeep.
Qed.

Lemma for_each_Ok {X} (body : X → Result unit) xs :
  for_each body xs = Ok tt → ∀ x, In x xs → body x = Ok tt.
Proof.
  induction xs as [|y xs IH]; simpl; [by intros _ x []|].
  destruct (body y) as [[]|] eqn:Hy; simpl; [|done].
  intros Hrest x [<-|Hin]; auto.
Qed.

Lemma for_each_Throw {X} (body : X → Result unit) xs m :
  for_each body xs = Throw m → ∃ x, In x xs ∧ body x = Throw m.
Proof.
  induction xs as [|y xs IH]; simpl; [done|].
  destruct (body y) as [[]|m'] eqn:Hy; simpl.
  - intros Hrest. destruct (IH Hrest) as (x & Hin & Hx). eauto.
  - intros [= <-]. eauto.
Qed.

Lemma for_each_cases {X} (body : X → Result unit) xs :
  for_each body xs = Ok tt ∨ ∃ m, for_each body xs = Throw m.
Proof. destruct (for_each body xs) as [[]|m]; eauto. Qed.

End ObjectsMore.

(** *** [cleanSchemaForGemini]: what it changes, when it throws *)

Section GeminiSchemaFacts.
Import JS Gemini Vocabulary GeminiSchema.

Lemma obj_get_unmarked k o :
  obj_get k (unmarked o)
  = if (k =? "$schema")%string || (k =? "additionalProperties")%string
       || (k =? "optional")%string
    then None else obj_get k o.
Proof.
  unfold unmarked. rewrite !obj_get_delete.
  destruct (k =? "optional")%string; [by rewrite orb_true_r|].
  destruct (k =? "additionalProperties")%string; [by rewrite orb_true_r|].
  by destruct (k =? "$schema")%string.
Qed.

(** The function, as its visits followed by the cleaning of the root. *)
Lemma cleanSchemaForGemini_obj o :
  cleanSchemaForGemini (JObj o) = bind (visits o) (λ _, Ok (JObj (cleaned_root o))).
Proof.
  simpl. rewrite !on_prop_get.
  unfold visits, visit_properties, visit_items, cleaned_root, visit_schema.
  fold (unmarked o). rewrite (obj_get_unmarked "properties"). simpl.
  destruct (obj_get "properties" o) as [p|]; simpl.
  - destruct (truthy p && typeof_object p); simpl.
    + destruct p; simpl; try done.
      * destruct (for_each _ items); simpl; [|done].
        destruct (obj_get "items" o) as [it|]; simpl; [|done].
        destruct (truthy it && typeof_object it); simpl; [|done].
        by destruct (cleanSchemaForGemini it).
      * destruct (for_each _ members); simpl; [|done].
        destruct (obj_get "items" o) as [it|]; simpl; [|done].
        destruct (truthy it && typeof_object it); simpl; [|done].
        by destruct (cleanSchemaForGemini it).
    + destruct (obj_get "items" o) as [it|]; simpl; [|done].
      destruct (truthy it && typeof_object it); simpl; [|done].
      by destruct (cleanSchemaForGemini it).
  - destruct (obj_get "items" o) as [it|]; simpl; [|done].
    destruct (truthy it && typeof_object it); simpl; [|done].
    by destruct (cleanSchemaForGemini it).
Qed.

Lemma obj_get_cleaned_root k o :
  obj_get k (cleaned_root o)
  = if (k =? "required")%string then
      match obj_get "properties" o with
      | Some p =>
          if truthy p && typeof_object p
          then Some (JArr (List.map JStr (Object_keys p)))
          else obj_get "required" o
      | None => obj_get "required" o
      end
    else obj_get k (unmarked o).
Proof.
  unfold cleaned_root.
  destruct (k =? "required")%string eqn:Hk.
  - apply String.eqb_eq in Hk as ->.
    destruct (obj_get "properties" o) as [p|];
      [destruct (truthy p && typeof_object p)|];
      rewrite ?obj_get_set_eq; try done; by rewrite obj_get_unmarked.
  - apply String.eqb_neq in Hk.
    destruct (obj_get "properties" o) as [p|];
      [destruct (truthy p && typeof_object p)|];
      by rewrite ?obj_get_set_ne by done.
Qed.

Lemma cleanSchemaForGemini_returns o cleaned :
  cleanSchemaForGemini (JObj o) = Ok cleaned →
  visits o = Ok tt ∧ cleaned = JObj (cleaned_root o).
Proof.
  rewrite cleanSchemaForGemini_obj.
  destruct (visits o) as [[]|]; simpl; [|done]. by intros [= <-].
Qed.

(** X9.  A call that returns has changed the root and nothing else:
    [$schema], [additionalProperties] and [optional] are gone; [required]
    lists the keys of [properties] when that is an object, and is what it
    was otherwise; every other key, [properties] and [items] among them,
    holds the value that was passed in. *)
Theorem cleanSchemaForGemini_changes_only_the_root_markers o cleaned :
  cleanSchemaForGemini (JObj o) = Ok cleaned →
  prop cleaned "$schema" = None
  ∧ prop cleaned "additionalProperties" = None
  ∧ prop cleaned "optional" = None
  ∧ prop cleaned "required"
    = match obj_get "properties" o with
      | Some p =>
          if truthy p && typeof_object p
          then Some (JArr (List.map JStr (Object_keys p)))
          else obj_get "required" o
      | None => obj_get "required" o
      end
  ∧ (∀ k, k ≠ "$schema" → k ≠ "additionalProperties" → k ≠ "optional" →
          k ≠ "required" → prop cleaned k = obj_get k o).
Proof.
  intros Hret. apply cleanSchemaForGemini_returns in Hret as [_ ->]. simpl.
  rewrite !obj_get_cleaned_root, !obj_get_unmarked. simpl.
  repeat split; try done.
  intros k H1 H2 H3 H4. rewrite obj_get_cleaned_root, obj_get_unmarked.
  apply String.eqb_neq in H1, H2, H3, H4. by rewrite H1, H2, H3, H4.
Qed.

Lemma visit_schema_Ok x :
  throws_on_null x → visit_schema x = Ok tt → ¬ reaches_null x.
Proof.
  unfold throws_on_null, visit_schema.
  destruct (typeof_object x) eqn:Ht.
  - destruct (cleanSchemaForGemini x); cbn [bind]; done.
  - intros _ _ Hr. destruct Hr; discriminate Ht.
Qed.

Lemma visit_schema_Throw x m :
  throws_on_null x → visit_schema x = Throw m →
  m = null_read "$schema" ∧ reaches_null x.
Proof.
  unfold throws_on_null, visit_schema.
  destruct (typeof_object x); [|done].
  destruct (cleanSchemaForGemini x); cbn [bind]; [done|]. by intros H [= <-].
Qed.

Lemma visit_properties_spec o :
  (∀ k p, obj_get k o = Some p → Forall throws_on_null (Object_values p)) →
  (visit_properties o = Throw (null_read "$schema") ∧ reaches_null (JObj o))
  ∨ (visit_properties o = Ok tt
     ∧ (∀ props k v, obj_get "properties" o = Some (JObj props) →
                     In (k, v) props → ¬ reaches_null v)
     ∧ (∀ elements v, obj_get "properties" o = Some (JArr elements) →
                      In v elements → ¬ reaches_null v)).
Proof.
  intros Hmember. unfold visit_properties.
  destruct (obj_get "properties" o) as [p|] eqn:Hp; [|right; by repeat split].
  pose proof (Hmember _ _ Hp) as Hpk.
  destruct p as [| | | |elements|props]; cbn [truthy typeof_object andb];
    try (right; split; [first [done|by destruct (_ && _)]|split; intros; congruence]).
  - cbn [Object_values] in Hpk. rewrite List.Forall_forall in Hpk.
    destruct (for_each_cases visit_schema elements) as [Hok|[m Hthrow]].
    + right. split; [done|]. split; [done|].
      intros elements' v [= <-] Hin.
      apply visit_schema_Ok; [by apply Hpk|]. by apply (for_each_Ok _ _ Hok).
    + left. destruct (for_each_Throw _ _ _ Hthrow) as (x & Hin & Hx).
      destruct (visit_schema_Throw _ _ (Hpk _ Hin) Hx) as [-> Hr].
      split; [done|]. by eapply rn_element.
  - cbn [Object_values] in Hpk. rewrite Forall_map, List.Forall_forall in Hpk.
    destruct (for_each_cases (λ kv, visit_schema kv.2) props) as [Hok|[m Hthrow]].
    + right. split; [done|]. split; [|done].
      intros props' k v [= <-] Hin.
      apply visit_schema_Ok; [by apply (Hpk (k, v))|].
      by apply (for_each_Ok _ _ Hok (k, v)).
    + left. destruct (for_each_Throw _ _ _ Hthrow) as ([k v] & Hin & Hx).
      destruct (visit_schema_Throw _ _ (Hpk _ Hin) Hx) as [-> Hr].
      split; [done|]. by eapply rn_property.
Qed.

Lemma visit_items_spec o :
  (∀ k p, obj_get k o = Some p → throws_on_null p) →
  (visit_items o = Throw (null_read "$schema") ∧ reaches_null (JObj o))
  ∨ (visit_items o = Ok tt
     ∧ ∀ members, obj_get "items" o = Some (JObj members) →
                  ¬ reaches_null (JObj members)).
Proof.
  intros Hmember. unfold visit_items.
  destruct (obj_get "items" o) as [it|] eqn:Hit; [|right; by split].
  pose proof (Hmember _ _ Hit) as Hitem. unfold throws_on_null in Hitem.
  destruct it as [| | | |elements|members]; cbn [truthy typeof_object andb];
    try (right; split; [first [done|by destruct (_ && _)]|intros; congruence]).
  destruct (cleanSchemaForGemini (JObj members)) as [c|m]; cbn [bind].
  - right. split; [done|]. by intros members' [= <-].
  - left. destruct Hitem as [-> Hr]. split; [done|]. by eapply rn_items.
Qed.

(** X10.  When the function throws and what: it throws exactly when it
    arrives at a [null] (the schema itself, a value of [properties] at a
    level it visits, never [items]), and then it throws the [TypeError] of
    reading [$schema] off [null]; on every other schema it returns. *)
Theorem cleanSchemaForGemini_throws_exactly_at_null schema :
  match cleanSchemaForGemini schema with
  | Ok _ => ¬ reaches_null schema
  | Throw message => message = null_read "$schema" ∧ reaches_null schema
  end.
Proof.
  change (throws_on_null schema).
  induction schema as [v Hkids Hgrand] using JSON_deep_induction.
  destruct v as [| | | |items|o];
    try (unfold throws_on_null; cbn; intros Hr; inversion Hr; fail).
  - unfold throws_on_null. cbn. by split; [|constructor].
  - rewrite List.Forall_forall in Hkids, Hgrand.
    unfold throws_on_null. rewrite cleanSchemaForGemini_obj. unfold visits.
    destruct (visit_properties_spec o) as [[-> Hr]|(-> & Hno_prop & Hno_elem)];
      [intros k p Hget; by eapply Hgrand, obj_get_Object_values|by cbn [bind]|].
    cbn [bind].
    destruct (visit_items_spec o) as [[-> Hr]|(-> & Hno_items)];
      [intros k p Hget; by eapply Hkids, obj_get_Object_values|by cbn [bind]|].
    cbn [bind]. intros Hr.
    inversion Hr as [|? props k v Hp Hin Hv|? elements v Hp Hin Hv|? members Hi Hm];
      subst; [by eapply Hno_prop|by eapply Hno_elem|by eapply Hno_items].
Qed.

(** X11.  Cleaning is idempotent: what a call returns, a second call
    returns unchanged. *)
Theorem cleanSchemaForGemini_is_idempotent schema cleaned :
  cleanSchemaForGemini schema = Ok cleaned →
  cleanSchemaForGemini cleaned = Ok cleaned.
Proof.
  destruct schema as [| | | | |o]; try (by intros [= <-]).
  intros Hret. apply cleanSchemaForGemini_returns in Hret as [Hvisits ->].
  rewrite cleanSchemaForGemini_obj.
  assert (Hp : obj_get "properties" (cleaned_root o) = obj_get "properties" o).
  { by rewrite obj_get_cleaned_root, obj_get_unmarked. }
  assert (Hi : obj_get "items" (cleaned_root o) = obj_get "items" o).
  { by rewrite obj_get_cleaned_root, obj_get_unmarked. }
  assert (Hv : visits (cleaned_root o) = Ok tt).
  { unfold visits, visit_properties, visit_items in *. by rewrite Hp, Hi. }
  rewrite Hv. simpl. do 2 f_equal.
  assert (Hun : unmarked (cleaned_root o) = cleaned_root o).
  { unfold unmarked at 1.
    rewrite (obj_delete_absent "$schema");
      [|by rewrite obj_get_cleaned_root, obj_get_unmarked].
    rewrite (obj_delete_absent "additionalProperties");
      [|by rewrite obj_get_cleaned_root, obj_get_unmarked].
    rewrite (obj_delete_absent "optional");
      [|by rewrite obj_get_cleaned_root, obj_get_unmarked].
    done. }
  unfold cleaned_root at 1. rewrite Hp, Hun.
  destruct (obj_get "properties" o) as [p|] eqn:Hprops; [|done].
  destruct (truthy p && typeof_object p) eqn:Hobj; [|done].
  apply obj_set_same. rewrite obj_get_cleaned_root. simpl. by rewrite Hprops, Hobj.
Qed.

End GeminiSchemaFacts.

Lemma cleanSchemaForGemini_changes_only_the_root_markers_witness :
  JS.prop Samples.nested_schema "$schema"
  = Some (JS.JStr "http://json-schema.org/draft-07/schema#")
  ∧ ∃ cleaned,
      Gemini.cleanSchemaForGemini Samples.nested_schema = JS.Ok cleaned
      ∧ JS.prop cleaned "$schema" = None
      ∧ JS.prop cleaned "type" = Some (JS.JStr "object")
      ∧ JS.prop cleaned "properties"
        = Some (JS.JObj [("address", Samples.address_schema)]).
Proof.
  split; [reflexivity|]. eexists. split; [reflexivity|].
  match goal with
  | |- JS.prop ?cleaned _ = _ ∧ _ =>
      destruct (cleanSchemaForGemini_changes_only_the_root_markers
                  [("$schema", JS.JStr "http://json-schema.org/draft-07/schema#");
                   ("type", JS.JStr "object");
                   ("additionalProperties", JS.JBool false);
                   ("properties", JS.JObj [("address", Samples.address_schema)])]
                  cleaned eq_refl) as (Hschema & _ & _ & _ & Hother)
  end.
  split; [exact Hschema|]. split.
  - apply (Hother "type"); discriminate.
  - apply (Hother "properties"); discriminate.
Defined.

(** A schema with a [null] among its properties makes the call throw. *)
Example null_property_throws :
  Gemini.cleanSchemaForGemini Samples.null_property_schema
  = JS.Throw "Cannot read properties of null (reading '$schema')".
Proof. reflexivity. Qed.

Lemma cleanSchemaForGemini_is_idempotent_witness :
  ∃ cleaned,
    Gemini.cleanSchemaForGemini Samples.nested_schema = JS.Ok cleaned
    ∧ Gemini.cleanSchemaForGemini cleaned = JS.Ok cleaned.
Proof.
  eexists. split; [reflexivity|].
  apply (cleanSchemaForGemini_is_idempotent Samples.nested_schema). reflexivity.
Defined.

(** *** [enforceStrictSchema]: what it establishes, what it keeps *)

Section StrictSchemaFacts.
Import JS OpenAI Vocabulary StrictSchema.

(** Every property of a level after [enforceStrictSchema] has run on it. *)
Lemma obj_get_strict_body rec k o :
  typed o = true →
  obj_get k (strict_body rec o)
  = let base :=
      if (k =? "strict")%string then Some (JBool true)
      else if (k =? "additionalProperties")%string then Some (JBool false)
      else obj_get k o in
    let with_properties :=
      match obj_get "properties" o with
      | Some p =>
          if truthy p then
            if (k =? "properties")%string then Some (forEach_value rec p)
            else if (k =? "patternProperties")%string then None
            else if (k =? "required")%string
                 then Some (JArr (List.map JStr (Object_keys p)))
            else base
          else base
      | None => base
      end in
    match obj_get "items" o with
    | Some it =>
        if truthy it then
          if (k =? "maxItems")%string then None
          else if (k =? "minItems")%string then None
          else if (k =? "items")%string then Some (rec it)
          else with_properties
        else with_properties
    | None => with_properties
    end.
Proof.
  intros Htyped. unfold strict_body. fold (typed o). rewrite Htyped.
  rewrite !on_prop_get. cbv zeta.
  destruct (obj_get "items" o) as [it|]; [destruct (truthy it)|];
    (destruct (obj_get "properties" o) as [p|]; [destruct (truthy p)|]);
    by rewrite ?obj_get_delete, ?obj_get_set, ?obj_get_delete, ?obj_get_set.
Qed.

Lemma enforceNested_obj o : enforceNested (JObj o) = JObj (strict_body enforceNested o).
Proof. done. Qed.

Lemma strict_body_untyped rec o : typed o = false → strict_body rec o = o.
Proof. intros H. unfold strict_body. fold (typed o). by rewrite H. Qed.

(** X12.  What [enforceStrictSchema] leaves alone: a key that is not one
    of the eight it writes or deletes holds, at every level, the value it
    held; [type], [description] and [enum] are such keys. *)
Theorem enforceStrictSchema_keeps_every_other_key o k :
  k ∉ touched →
  prop (enforceNested (JObj o)) k = obj_get k o.
Proof.
  intros Hk. rewrite enforceNested_obj. simpl.
  destruct (typed o) eqn:Htyped; [|by rewrite strict_body_untyped].
  rewrite obj_get_strict_body by done. cbv zeta.
  assert (Hne : ∀ k', k' ∈ touched → (k =? k')%string = false).
  { intros k' Hin. apply String.eqb_neq. intros ->. done. }
  rewrite !Hne by (unfold touched; rewrite !elem_of_cons; tauto).
  destruct (obj_get "items" o) as [it|]; [destruct (truthy it)|];
    (destruct (obj_get "properties" o) as [p|]; [destruct (truthy p)|]); done.
Qed.

Lemma obj_get_type_strict_body rec o :
  obj_get "type" (strict_body rec o) = obj_get "type" o.
Proof.
  destruct (typed o) eqn:Htyped; [|by rewrite strict_body_untyped].
  rewrite obj_get_strict_body by done. cbv zeta.
  destruct (obj_get "items" o) as [it|]; [destruct (truthy it)|];
    (destruct (obj_get "properties" o) as [p|]; [destruct (truthy p)|]); done.
Qed.

Lemma typed_strict_body rec o : typed (strict_body rec o) = typed o.
Proof. unfold typed, prop_is, prop. by rewrite obj_get_type_strict_body. Qed.

Lemma prop_is_type_enforceNested v s :
  prop_is (enforceNested v) "type" s = prop_is v "type" s.
Proof.
  destruct v as [| | | | |o]; try done.
  rewrite enforceNested_obj. unfold prop_is, prop. by rewrite obj_get_type_strict_body.
Qed.

Lemma Object_values_forEach_value rec p :
  Object_values (forEach_value rec p) = List.map rec (Object_values p).
Proof.
  destruct p as [| | | |items|props]; simpl; try done.
  by rewrite !List.map_map.
Qed.

Lemma Object_keys_forEach_value rec p :
  Object_keys (forEach_value rec p) = Object_keys p.
Proof.
  destruct p as [| | | |items|props]; simpl; try done.
  - by rewrite length_map.
  - by rewrite List.map_map.
Qed.

Lemma truthy_forEach_value rec p : truthy (forEach_value rec p) = truthy p.
Proof. by destruct p. Qed.

Lemma truthy_enforceNested v : truthy (enforceNested v) = truthy v.
Proof. by destruct v. Qed.

(** X13.  What the OpenAI adapter establishes, at the root and at every
    level below: the schema that [enforceStrictSchema] returns is strict. *)
Theorem enforceStrictSchema_is_strict_at_every_level schema :
  strict (enforceNested schema) ∧ strict (enforceStrictSchema schema true).
Proof.
  assert (Hnested : ∀ v, strict (enforceNested v)).
  { induction v as [v Hkids Hgrand] using JSON_deep_induction.
    destruct v as [| | | | |o]; try (by apply strict_other).
    rewrite enforceNested_obj.
    destruct (typed o) eqn:Htyped.
    2:{ apply strict_other. by rewrite strict_body_untyped. }
    apply strict_level.
    - by rewrite typed_strict_body.
    - rewrite obj_get_strict_body by done. cbv zeta.
      destruct (obj_get "items" o) as [it|]; [destruct (truthy it)|];
        (destruct (obj_get "properties" o) as [p|]; [destruct (truthy p)|]); done.
    - rewrite obj_get_strict_body by done. cbv zeta.
      destruct (obj_get "items" o) as [it|]; [destruct (truthy it)|];
        (destruct (obj_get "properties" o) as [p|]; [destruct (truthy p)|]); done.
    - intros p'. rewrite !obj_get_strict_body by done. cbv zeta.
      destruct (obj_get "properties" o) as [p|] eqn:Hp.
      2:{ destruct (obj_get "items" o) as [it|]; [destruct (truthy it)|]; simpl;
            congruence. }
      destruct (truthy p) eqn:Htp.
      2:{ destruct (obj_get "items" o) as [it|]; [destruct (truthy it)|]; simpl;
            intros [= <-]; congruence. }
      assert (Hvalues : ∀ v, In v (Object_values (forEach_value enforceNested p)) →
                             strict v).
      { intros v. rewrite Object_values_forEach_value. intros (c & <- & Hin)%in_map_iff.
        rewrite List.Forall_forall in Hgrand.
        specialize (Hgrand p (obj_get_Object_values _ _ _ Hp)).
        rewrite List.Forall_forall in Hgrand. by apply Hgrand. }
      destruct (obj_get "items" o) as [it|]; [destruct (truthy it)|]; simpl;
        intros [= <-] _; by rewrite Object_keys_forEach_value.
    - intros it'. rewrite !obj_get_strict_body by done. cbv zeta.
      destruct (obj_get "items" o) as [it|] eqn:Hit.
      2:{ destruct (obj_get "properties" o) as [p|]; [destruct (truthy p)|]; simpl;
            congruence. }
      destruct (truthy it) eqn:Hti.
      2:{ destruct (obj_get "properties" o) as [p|]; [destruct (truthy p)|]; simpl;
            intros [= <-]; congruence. }
      simpl. intros [= <-] _. split; [|done].
      rewrite List.Forall_forall in Hkids.
      apply Hkids. by eapply obj_get_Object_values. }
  split; [done|]. unfold enforceStrictSchema.
  destruct (negb (truthy schema) || negb (typeof_object schema)) eqn:Hobj.
  - destruct schema as [| | | | |o]; by apply strict_other.
  - destruct (true && negb (prop_is schema "type" "object")); [|done].
    apply (Hnested (JObj (wrap schema))).
Qed.

Lemma forEach_value_fixed rec p :
  Forall (λ v, rec (rec v) = rec v) (Object_values p) →
  forEach_value rec (forEach_value rec p) = forEach_value rec p.
Proof.
  destruct p as [| | | |items|props]; simpl; try done; intros Hall.
  - f_equal. rewrite List.map_map. apply map_ext_in. intros x Hin.
    rewrite List.Forall_forall in Hall. by apply Hall.
  - f_equal. rewrite List.map_map. apply map_ext_in. intros [k v] Hin. simpl.
    f_equal. rewrite List.Forall_forall in Hall. apply Hall.
    apply in_map_iff. by exists (k, v).
Qed.

Lemma enforceNested_is_idempotent schema :
  enforceNested (enforceNested schema) = enforceNested schema.
Proof.
  induction schema as [v Hkids Hgrand] using JSON_deep_induction.
  destruct v as [| | | | |o]; try done.
  rewrite !enforceNested_obj. f_equal.
  destruct (typed o) eqn:Htyped.
  2:{ rewrite (strict_body_untyped _ o Htyped). by apply strict_body_untyped. }
  set (r := strict_body enforceNested o).
  assert (Hr : ∀ k, obj_get k r = _)
    by (intros k; exact (obj_get_strict_body enforceNested k o Htyped)).
  assert (Htr : typed r = true) by (unfold r; by rewrite typed_strict_body).
  cbv zeta in Hr.
  unfold strict_body at 1. fold (typed r). rewrite Htr. rewrite !on_prop_get.
  (* the two unconditional writes change nothing *)
  assert (H1 : obj_set "additionalProperties" (JBool false) r = r).
  { apply obj_set_same. rewrite Hr.
    destruct (obj_get "items" o) as [it|]; [destruct (truthy it)|];
      (destruct (obj_get "properties" o) as [p|]; [destruct (truthy p)|]); done. }
  rewrite H1.
  assert (H2 : obj_set "strict" (JBool true) r = r).
  { apply obj_set_same. rewrite Hr.
    destruct (obj_get "items" o) as [it|]; [destruct (truthy it)|];
      (destruct (obj_get "properties" o) as [p|]; [destruct (truthy p)|]); done. }
  rewrite H2.
  (* properties *)
  assert (H3 : match obj_get "properties" r with
               | Some p =>
                   if truthy p
                   then obj_set "properties" (forEach_value enforceNested p)
                          (obj_delete "patternProperties"
                             (obj_set "required" (JArr (List.map JStr (Object_keys p))) r))
                   else r
               | None => r
               end = r).
  { destruct (obj_get "properties" r) as [p'|] eqn:Hp'; [|done].
    destruct (truthy p') eqn:Htp'; [|done].
    assert (Hfrom : ∃ p, obj_get "properties" o = Some p ∧ truthy p = true
                         ∧ p' = forEach_value enforceNested p).
    { rewrite Hr in Hp'. revert Hp'.
      destruct (obj_get "properties" o) as [p|] eqn:Hp;
        [destruct (truthy p) eqn:Htp|];
        (destruct (obj_get "items" o) as [it|]; [destruct (truthy it)|]);
        simpl; intros Hp'; first [congruence|exists p; repeat split; congruence]. }
    destruct Hfrom as (p & Hp & Htp & ->).
    rewrite Object_keys_forEach_value.
    assert (Hreq : obj_get "required" r = Some (JArr (List.map JStr (Object_keys p)))).
    { rewrite Hr, Hp, Htp.
      destruct (obj_get "items" o) as [it|]; [destruct (truthy it)|]; done. }
    rewrite (obj_set_same _ _ _ Hreq).
    assert (Hpat : obj_get "patternProperties" r = None).
    { rewrite Hr, Hp, Htp.
      destruct (obj_get "items" o) as [it|]; [destruct (truthy it)|]; done. }
    rewrite (obj_delete_absent _ _ Hpat).
    apply obj_set_same. rewrite Hp'. f_equal. symmetry. apply forEach_value_fixed.
    rewrite List.Forall_forall in Hgrand.
    apply (Hgrand p). by eapply obj_get_Object_values. }
  rewrite H3.
  (* items *)
  destruct (obj_get "items" r) as [it'|] eqn:Hit'; [|done].
  destruct (truthy it') eqn:Hti'; [|done].
  assert (Hfrom : ∃ it, obj_get "items" o = Some it ∧ truthy it = true
                        ∧ it' = enforceNested it).
  { rewrite Hr in Hit'. revert Hit'.
    destruct (obj_get "items" o) as [it|] eqn:Hit;
      [destruct (truthy it) eqn:Hti|];
      (destruct (obj_get "properties" o) as [p|]; [destruct (truthy p)|]);
      simpl; intros Hit'; first [congruence|exists it; repeat split; congruence]. }
  destruct Hfrom as (it & Hit & Hti & ->).
  rewrite List.Forall_forall in Hkids.
  rewrite (Hkids it (obj_get_Object_values _ _ _ Hit)).
  rewrite (obj_set_same _ _ _ Hit').
  rewrite (obj_delete_absent "minItems"); [|by rewrite Hr, Hit, Hti].
  rewrite (obj_delete_absent "maxItems"); [|by rewrite Hr, Hit, Hti].
  done.
Qed.

(** X14.  A schema that went through [enforceStrictSchema] goes through
    it again unchanged, below the root and at the root: the result of the
    root call is not wrapped a second time. *)
Theorem enforceStrictSchema_is_idempotent schema :
  enforceNested (enforceNested schema) = enforceNested schema
  ∧ enforceStrictSchema (enforceStrictSchema schema true) true
    = enforceStrictSchema schema true.
Proof.
  split; [apply enforceNested_is_idempotent|].
  destruct (negb (truthy schema) || negb (typeof_object schema)) eqn:Hobj.
  { unfold enforceStrictSchema. by rewrite !Hobj. }
  assert (Hres : ∃ o, enforceStrictSchema schema true = enforceNested (JObj o)
                      ∧ prop_is (JObj o) "type" "object" = true).
  { unfold enforceStrictSchema. rewrite Hobj. cbn [andb].
    destruct (prop_is schema "type" "object") eqn:Htype; cbn [negb].
    - destruct schema as [| | | | |o]; try done. by exists o.
    - by exists (wrap schema). }
  destruct Hres as (o & -> & Ho).
  unfold enforceStrictSchema. rewrite prop_is_type_enforceNested, Ho.
  cbn [negb andb orb truthy typeof_object enforceNested].
  apply (enforceNested_is_idempotent (JObj o)).
Qed.

End StrictSchemaFacts.

Lemma enforceStrictSchema_keeps_every_other_key_witness :
  ("description" ∉ StrictSchema.touched)
  ∧ JS.prop (OpenAI.enforceNested Samples.tags_schema) "description"
    = Some (JS.JStr "the tags")
  ∧ JS.prop (OpenAI.enforceNested Samples.tags_schema) "minItems" = None.
Proof.
  assert (Hk : "description" ∉ StrictSchema.touched).
  { apply (bool_decide_unpack ("description" ∉ StrictSchema.touched)).
    vm_compute. exact I. }
  split; [exact Hk|]. split; [|reflexivity].
  apply (enforceStrictSchema_keeps_every_other_key
           [("type", JS.JStr "array");
            ("description", JS.JStr "the tags");
            ("minItems", JS.JNum 1);
            ("items", JS.JObj [("type", JS.JStr "string")])] "description" Hk).
Defined.

(** *** The response caches of the two models *)

Section OpenAICaching.
Import JS Cache OpenAI OpenAIText.
Context `{platform : Platform}.

(** X15.  At temperature 0, with a model other than the o models, a reply
    that [generateText] obtained after a miss answers the next call with
    the same messages, as long as it has not expired: whatever the vendor
    would say then, the call returns the stored response and leaves the
    cache as it is. *)
Theorem generateText_answers_a_repeat_from_the_cache `{vendor : TextVendor}
    env (c : LLMResponseCache LLMResponse) M t r c' :
  enabled c = true →
  o_model env = false →
  PrimFloat.eqb t 0 = true →
  fst (get c M t None (date_now env)) = None →
  generateText env c M t = (Ok r, c') →
  ∀ (vendor' : TextVendor) env',
    date_now env' - date_later env ≤ maxAge c →
    @generateText platform vendor' env' c' M t = (Ok r, c').
Proof.
  intros Hen Hmodel Hzero Hmiss. unfold generateText at 1. rewrite Hzero, Hmiss.
  cbn [fst snd].
  assert (Ht : match OPENAI_MODEL env with
               | Some m => if startsWith_o m then None else Some t
               | None => Some t
               end = Some t).
  { unfold o_model in Hmodel. destruct (OPENAI_MODEL env); [|done]. by rewrite Hmodel. }
  rewrite Ht. destruct (chat_completions_create_text _) as [reply|]; [|done].
  rewrite Hzero. intros [= <- <-] vendor' env' Hage.
  destruct (get_key_config c (generateKey M t None) (date_now env)) as [Hen' Hage'].
  unfold generateText. rewrite Hzero. unfold get, set.
  rewrite get_key_set_key; [done| |].
  - unfold get in Hen'. by rewrite Hen'.
  - unfold get in Hage'. by rewrite Hage'.
Qed.

(** X16.  With one of the o models the temperature is dropped before the
    test that guards the write, so nothing is ever stored: after a call of
    [generateObject] or of [generateText], at any temperature and whatever
    the vendor said, the cache holds no entry that it did not hold
    before. *)
Theorem o_models_never_store `{parser : Parser} `{vendor : Vendor}
    `{text_vendor : TextVendor} env
    (oc : LLMResponseCache LLMObjectResponse) (tc : LLMResponseCache LLMResponse)
    M schema t :
  o_model env = true →
  (∀ k e, Map_get k (cache (snd (generateObject env oc M schema t))) = Some e →
          Map_get k (cache oc) = Some e)
  ∧ (∀ k e, Map_get k (cache (snd (generateText env tc M t))) = Some e →
            Map_get k (cache tc) = Some e).
Proof.
  intros Hmodel. unfold o_model in Hmodel.
  destruct (OPENAI_MODEL env) as [m|] eqn:Henv; [|done].
  split; intros k e.
  - unfold generateObject. rewrite Henv, Hmodel.
    set (lookup := if PrimFloat.eqb t 0 then get oc M t (Some schema) (date_now env)
                   else (None, oc)).
    assert (Hlookup : Map_get k (cache (snd lookup)) = Some e →
                      Map_get k (cache oc) = Some e).
    { unfold lookup. destruct (PrimFloat.eqb t 0); [|done]. apply get_key_stores_nothing. }
    destruct (fst lookup); [done|].
    destruct (chat_completions_create _); [|done].
    by destruct (parseResponse _).
  - unfold generateText. rewrite Henv, Hmodel.
    set (lookup := if PrimFloat.eqb t 0 then get tc M t None (date_now env)
                   else (None, tc)).
    assert (Hlookup : Map_get k (cache (snd lookup)) = Some e →
                      Map_get k (cache tc) = Some e).
    { unfold lookup. destruct (PrimFloat.eqb t 0); [|done]. apply get_key_stores_nothing. }
    destruct (fst lookup); [done|].
    by destruct (chat_completions_create_text _).
Qed.

End OpenAICaching.

Lemma generateText_answers_a_repeat_from_the_cache_witness :
  ∃ r c',
    @OpenAIText.generateText Samples.toy_platform Samples.greeting_vendor Samples.env
      (Cache.constructor OpenAIText.LLMResponse None) [Samples.hello] 0%float
    = (JS.Ok r, c')
    ∧ OpenAIText.text_response r = Some "Hello!"
    ∧ @OpenAIText.generateText Samples.toy_platform Samples.unreachable_text_vendor
        Samples.env_later c' [Samples.hello] 0%float
      = (JS.Ok r, c').
Proof.
  eexists _, _. split; [reflexivity|]. split; [reflexivity|].
  apply (@generateText_answers_a_repeat_from_the_cache
           Samples.toy_platform Samples.greeting_vendor Samples.env
           (Cache.constructor OpenAIText.LLMResponse None) [Samples.hello] 0%float);
    [reflexivity | reflexivity | reflexivity | reflexivity | reflexivity
    | vm_compute; discriminate].
Defined.

Lemma o_models_never_store_witness :
  OpenAIText.o_model Samples.o_env = true
  ∧ Cache.cache
      (snd (@OpenAIText.generateText Samples.toy_platform Samples.greeting_vendor
              Samples.o_env (Cache.constructor OpenAIText.LLMResponse None)
              [Samples.hello] 0%float))
    = []
  ∧ ∀ k e,
      Cache.Map_get k
        (Cache.cache
           (snd (@OpenAIText.generateText Samples.toy_platform Samples.greeting_vendor
                   Samples.o_env (Cache.constructor OpenAIText.LLMResponse None)
                   [Samples.hello] 0%float)))
      = Some e →
      Cache.Map_get k (Cache.cache (Cache.constructor OpenAIText.LLMResponse None))
      = Some e.
Proof.
  split; [reflexivity|]. split; [reflexivity|].
  apply (@o_models_never_store Samples.toy_platform Samples.toy_parser
           Samples.empty_result_vendor Samples.greeting_vendor Samples.o_env
           (Cache.constructor OpenAI.LLMObjectResponse None)
           (Cache.constructor OpenAIText.LLMResponse None)
           [Samples.hello] Samples.string_schema 0%float eq_refl).
Defined.

(** *** The Gemini model: the history, the reply, the cache *)

Section GeminiModelFacts.
Import JS Cache Vocabulary GeminiModel.

Lemma filter_cons_eq {A} (f : A → bool) x l :
  List.filter f (x :: l) = if f x then x :: List.filter f l else List.filter f l.
Proof. done. Qed.

(** What the loop has done when it ends, from any index. *)
Lemma convert_loop_spec length rest : ∀ i h,
  (i + List.length rest = length)%nat →
  geminiHistory (loop length i rest h)
  = (geminiHistory h
     ++ List.map entry (List.filter (λ m, negb (is_system m)) (removelast rest)))%list
  ∧ systemInstruction (loop length i rest h)
    = match last (List.filter is_system rest) with
      | Some m => content m
      | None => systemInstruction h
      end
  ∧ userPrompt (loop length i rest h)
    = match last rest with
      | Some m => if is_system m then userPrompt h else content m
      | None => userPrompt h
      end.
Proof.
  induction rest as [|m rest IH]; intros i h Hlen.
  { simpl. by rewrite app_nil_r. }
  simpl in Hlen.
  destruct (IH (S i) (visit length i m h)) as (IHh & IHs & IHu); [lia|].
  change (loop length i (m :: rest) h) with (loop length (S i) rest (visit length i m h)).
  rewrite IHh, IHs, IHu. clear IH IHh IHs IHu.
  unfold visit, is_system.
  destruct rest as [|m' rest].
  - (* the last message *)
    simpl. replace (i =? length - 1)%nat with true
      by (symmetry; apply Nat.eqb_eq; simpl in Hlen; lia).
    destruct (role m =? "system")%string; simpl; by rewrite ?app_nil_r.
  - replace (i =? length - 1)%nat with false
      by (symmetry; apply Nat.eqb_neq; simpl in Hlen; lia).
    change (removelast (m :: m' :: rest)) with (m :: removelast (m' :: rest)).
    change (last (m :: m' :: rest)) with (last (m' :: rest)).
    rewrite !(filter_cons_eq _ m).
    destruct (role m =? "system")%string eqn:Hsys;
      cbn [negb geminiHistory systemInstruction userPrompt].
    + split; [done|]. split; [|done].
      destruct (List.filter _ (m' :: rest)) as [|s0 systems']; [done|].
      cbn [last]. destruct (last (s0 :: systems')) eqn:Hlast; [done|].
      by apply last_None in Hlast.
    + split; [by rewrite <- app_assoc|]. done.
Qed.

(** X17.  [convertToGeminiHistory] in closed form.  The history is made of
    the messages other than the last that are not system messages, in
    their order, with [assistant] renamed [model]; no system and no
    assistant role is left in it.  The system instruction is the content of
    the last system message.  The prompt is the content of the last
    message, unless that is a system message: then no prompt is sent. *)
Theorem convertToGeminiHistory_closed_form messages :
  let h := convertToGeminiHistory messages in
  geminiHistory h
  = List.map entry (List.filter (λ m, negb (is_system m)) (removelast messages))
  ∧ systemInstruction h = last (List.filter is_system messages) ≫= content
  ∧ userPrompt h
    = match last messages with
      | Some m => if is_system m then None else content m
      | None => None
      end
  ∧ Forall (λ c, c_role c ≠ "system" ∧ c_role c ≠ "assistant") (geminiHistory h).
Proof.
  intros h. subst h. unfold convertToGeminiHistory.
  destruct (convert_loop_spec (List.length messages) messages 0
              {| geminiHistory := []; systemInstruction := None; userPrompt := None |})
    as (Hh & Hs & Hu); [done|].
  rewrite Hh, Hs, Hu. simpl. repeat split.
  apply Forall_map, List.Forall_forall. intros m Hin.
  apply filter_In in Hin as [_ Hsys]. unfold entry, is_system in *. simpl.
  destruct (role m =? "system")%string eqn:Hs'; [done|].
  apply String.eqb_neq in Hs'.
  destruct (role m =? "assistant")%string eqn:Ha; [done|].
  by apply String.eqb_neq in Ha.
Qed.

Lemma drop_before_open_prose prose rest :
  all_chars (λ c, negb (is_open c)) prose = true →
  drop_before_open (prose ++ rest) = drop_before_open rest.
Proof.
  induction prose as [|c prose IH]; [done|].
  change (String c prose ++ rest) with (String c (prose ++ rest)). simpl.
  intros [Hc Hrest]%andb_prop. apply negb_true_iff in Hc. rewrite Hc. auto.
Qed.

Lemma drop_before_open_json json :
  starts_with is_open json = true → drop_before_open json = json.
Proof. destruct json as [|c json]; simpl; [done|]. by intros ->. Qed.

Lemma drop_after_close_trailer trailer :
  all_chars (λ c, negb (is_close c)) trailer = true → drop_after_close trailer = "".
Proof.
  induction trailer as [|c trailer IH]; simpl; [done|].
  intros [Hc Hrest]%andb_prop. rewrite (IH Hrest), Hc. done.
Qed.

Lemma drop_after_close_json json trailer :
  ends_with is_close json = true →
  all_chars (λ c, negb (is_close c)) trailer = true →
  drop_after_close (json ++ trailer) = json.
Proof.
  intros Hend Htrailer. induction json as [|c json IH]; [done|].
  destruct json as [|c' json].
  - change (String c "" ++ trailer) with (String c trailer). simpl in *.
    rewrite (drop_after_close_trailer _ Htrailer), Hend. done.
  - change (drop_after_close (String c (String c' json) ++ trailer))
      with (let t := drop_after_close (String c' json ++ trailer) in
            if (t =? "")%string && negb (is_close c) then "" else String c t).
    rewrite IH by done. done.
Qed.

(** X18.  The two replacements that [generateObject] applies to the reply
    keep the JSON text and drop the prose around it: of a text that starts
    with a bracket or brace and ends with a brace or bracket, between prose
    with no opening character and a trailer with no closing character,
    exactly that text is left. *)
Theorem strip_to_json_keeps_the_bracketed_text prose json trailer :
  all_chars (λ c, negb (is_open c)) prose = true →
  starts_with is_open json = true →
  ends_with is_close json = true →
  all_chars (λ c, negb (is_close c)) trailer = true →
  strip_to_json (prose ++ json ++ trailer) = json.
Proof.
  intros Hprose Hstart Hend Htrailer. unfold strip_to_json.
  rewrite (drop_before_open_prose _ _ Hprose).
  rewrite drop_before_open_json.
  - by apply drop_after_close_json.
  - destruct json; [done|]. done.
Qed.

Lemma strip_to_json_unbracketed reply :
  all_chars (λ c, negb (is_open c)) reply = true → strip_to_json reply = "".
Proof.
  intros Hall. unfold strip_to_json.
  replace (drop_before_open reply) with "".
  - done.
  - induction reply as [|c reply IH]; simpl in *; [done|].
    apply andb_prop in Hall as [Hc Hrest]. apply negb_true_iff in Hc. rewrite Hc. auto.
Qed.

Context `{platform : Platform} `{parser : Parser} `{vendor : Vendor}.

(** X19.  A reply with no bracket and no brace in it, such as a bare
    number, string or boolean, is never parsed: the replacements leave the
    empty text, and with a parser that rejects the empty text, as
    [JSON.parse] does, [generateObject] throws the parse failure. *)
Theorem generateObject_rejects_a_reply_without_brackets
    env (c : LLMResponseCache OpenAI.LLMObjectResponse) M schema t cleaned reply e :
  (if PrimFloat.eqb t 0 then fst (get c M t (Some schema) (date_now env)) else None)
  = None →
  Gemini.responseSchema (Some schema) = Ok cleaned →
  sendMessage (chat env M t "application/json" cleaned) = Ok reply →
  all_chars (λ c, negb (is_open c)) reply = true →
  JSON_parse "" = Throw e →
  fst (generateObject env c M schema t)
  = Throw ("Failed to parse JSON response: " ++ e).
Proof.
  intros Hmiss Hschema Hreply Hplain Hparse. unfold generateObject.
  replace (fst (if PrimFloat.eqb t 0
                then get c M t (Some schema) (date_now env) else (None, c)))
    with (@None OpenAI.LLMObjectResponse) by (by destruct (PrimFloat.eqb t 0)).
  rewrite Hschema, Hreply, (strip_to_json_unbracketed _ Hplain), Hparse. done.
Qed.

(** X20.  At temperature 0 a response that [generateObject] obtained after
    a miss answers the next call with the same messages and schema, as
    long as it has not expired: whatever the vendor and the parser would
    do then, the call returns the stored response and leaves the cache as
    it is. *)
Theorem generateObject_answers_a_repeat_from_the_cache
    env (c : LLMResponseCache OpenAI.LLMObjectResponse) M schema t r c' :
  enabled c = true →
  PrimFloat.eqb t 0 = true →
  fst (get c M t (Some schema) (date_now env)) = None →
  generateObject env c M schema t = (Ok r, c') →
  ∀ (parser' : Parser) (vendor' : Vendor) env',
    date_now env' - date_later env ≤ maxAge c →
    @generateObject platform parser' vendor' env' c' M schema t = (Ok r, c').
Proof.
  intros Hen Hzero Hmiss. unfold generateObject at 1. rewrite Hzero, Hmiss.
  destruct (Gemini.responseSchema (Some schema)) as [cleaned|]; [|done].
  destruct (sendMessage _) as [reply|]; [|done].
  destruct (JSON_parse _) as [generatedObject|]; [|done].
  intros [= <- <-] parser' vendor' env' Hage.
  destruct (get_key_config c (generateKey M t (Some schema)) (date_now env))
    as [Hen' Hage'].
  unfold generateObject. rewrite Hzero. unfold get, set.
  rewrite get_key_set_key; [done| |].
  - unfold get in Hen'. by rewrite Hen'.
  - unfold get in Hage'. by rewrite Hage'.
Qed.

(** At any other temperature the caches are out of the picture:
    neither [generateObject] nor [generateText] writes its cache, and what
    they return does not depend on what the cache holds. *)
Theorem nonzero_temperature_bypasses_the_cache
    env (oc oc' : LLMResponseCache OpenAI.LLMObjectResponse)
    (tc tc' : LLMResponseCache OpenAIText.LLMResponse) M schema t :
  PrimFloat.eqb t 0 = false →
  snd (generateObject env oc M schema t) = oc
  ∧ snd (generateText env tc M t) = tc
  ∧ fst (generateObject env oc M schema t) = fst (generateObject env oc' M schema t)
  ∧ fst (generateText env tc M t) = fst (generateText env tc' M t).
Proof.
  intros Hnz. unfold generateObject, generateText. rewrite Hnz.
  cbn [fst snd]. split; [|split; [|split]].
  - destruct (Gemini.responseSchema (Some schema)); [|done].
    destruct (sendMessage _); [|done]. by destruct (JSON_parse _).
  - by destruct (sendMessage _).
  - destruct (Gemini.responseSchema (Some schema)); [|done].
    destruct (sendMessage _); [|done]. by destruct (JSON_parse _).
  - by destruct (sendMessage _).
Qed.

End GeminiModelFacts.

(** A conversation with two system messages that ends on a user message:
    the last system message wins, the assistant speaks as [model], and the
    last message is the prompt. *)
Example history_of_a_conversation :
  GeminiModel.convertToGeminiHistory
    [ {| Cache.role := "system"; Cache.content := Some (JS.JStr "Be brief.");
         Cache.transient := [] |};
      Samples.hello;
      {| Cache.role := "assistant"; Cache.content := Some (JS.JStr "Hi.");
         Cache.transient := [] |};
      {| Cache.role := "system"; Cache.content := Some (JS.JStr "Be kind.");
         Cache.transient := [] |};
      Samples.hello ]
  = {| GeminiModel.geminiHistory :=
         [ {| GeminiModel.c_role := "user";
              GeminiModel.c_text := Some (JS.JStr "test message") |};
           {| GeminiModel.c_role := "model";
              GeminiModel.c_text := Some (JS.JStr "Hi.") |} ];
       GeminiModel.systemInstruction := Some (JS.JStr "Be kind.");
       GeminiModel.userPrompt := Some (JS.JStr "test message") |}.
Proof. reflexivity. Qed.

Lemma strip_to_json_keeps_the_bracketed_text_witness :
  GeminiModel.strip_to_json ("Sure: " ++ "[1, 2]" ++ " Hope this helps.") = "[1, 2]".
Proof.
  apply (strip_to_json_keeps_the_bracketed_text "Sure: " "[1, 2]" " Hope this helps.");
    reflexivity.
Defined.

Lemma generateObject_rejects_a_reply_without_brackets_witness :
  fst (@GeminiModel.generateObject Samples.toy_platform Samples.list_parser
         Samples.scalar_vendor Samples.gemini_env
         (Cache.constructor OpenAI.LLMObjectResponse None)
         [Samples.hello] Samples.string_schema 0%float)
  = JS.Throw "Failed to parse JSON response: Unexpected end of JSON input".
Proof.
  apply (@generateObject_rejects_a_reply_without_brackets
           Samples.toy_platform Samples.list_parser Samples.scalar_vendor
           Samples.gemini_env (Cache.constructor OpenAI.LLMObjectResponse None)
           [Samples.hello] Samples.string_schema 0%float
           (Some Samples.string_schema) "42" "Unexpected end of JSON input");
    reflexivity.
Defined.

Lemma generateObject_answers_a_repeat_from_the_cache_witness :
  ∃ r c',
    @GeminiModel.generateObject Samples.toy_platform Samples.list_parser
      Samples.chatty_vendor Samples.gemini_env
      (Cache.constructor OpenAI.LLMObjectResponse None)
      [Samples.hello] Samples.string_schema 0%float
    = (JS.Ok r, c')
    ∧ OpenAI.response r = JS.JArr [JS.JNum 1; JS.JNum 2]
    ∧ @GeminiModel.generateObject Samples.toy_platform Samples.toy_parser
        Samples.unreachable_vendor Samples.gemini_env_later c'
        [Samples.hello] Samples.string_schema 0%float
      = (JS.Ok r, c').
Proof.
  eexists _, _. split; [reflexivity|]. split; [reflexivity|].
  apply (@generateObject_answers_a_repeat_from_the_cache
           Samples.toy_platform Samples.list_parser Samples.chatty_vendor
           Samples.gemini_env (Cache.constructor OpenAI.LLMObjectResponse None)
           [Samples.hello] Samples.string_schema 0%float);
    [reflexivity | reflexivity | reflexivity | reflexivity | vm_compute; discriminate].
Defined.

Lemma nonzero_temperature_bypasses_the_cache_witness :
  PrimFloat.eqb 0.7 0 = false
  ∧ snd (@GeminiModel.generateObject Samples.toy_platform Samples.list_parser
           Samples.chatty_vendor Samples.gemini_env
           (Cache.constructor OpenAI.LLMObjectResponse None)
           [Samples.hello] Samples.string_schema 0.7%float)
    = Cache.constructor OpenAI.LLMObjectResponse None.
Proof.
  split; [reflexivity|].
  apply (@nonzero_temperature_bypasses_the_cache
           Samples.toy_platform Samples.list_parser Samples.chatty_vendor
           Samples.gemini_env (Cache.constructor OpenAI.LLMObjectResponse None)
           (Cache.constructor OpenAI.LLMObjectResponse None)
           (Cache.constructor OpenAIText.LLMResponse None)
           (Cache.constructor OpenAIText.LLMResponse None)
           [Samples.hello] Samples.string_schema 0.7%float eq_refl).
Defined.

(** ** The retry controller *)

Section Instructions.
Import JS Cache Instructions.
Context `{parser : Parser} `{model : LanguageModel}.

Lemma temperatures_app evs evs' :
  temperatures (evs ++ evs') = (temperatures evs ++ temperatures evs')%list.
Proof. apply flat_map_app. Qed.

Lemma temperatures_turn g evs rest :
  temperatures (g :: evs ++ rest) = (temperatures (g :: evs) ++ temperatures rest)%list.
Proof. by rewrite app_comm_cons, temperatures_app. Qed.

Lemma temperatures_Log level text rest :
  temperatures (Log level text :: rest) = temperatures rest.
Proof. reflexivity. Qed.

(** Every attempt calls the model once, at the temperature of its number. *)
Lemma attempt_temperatures messages retry :
  temperatures (snd (attemptInstructionGeneration messages retry))
  = [temperatureOf retry].
Proof.
  unfold attemptInstructionGeneration.
  destruct (generateObject messages schema (temperatureOf retry)) as [[| | | |[|x items]|]|];
    try done.
  by destruct (sanitizeInstructionSuggestions (JArr (x :: items))).
Qed.

(** One turn of the loop around an attempt that threw. *)
Lemma retryLoop_throw fuel retryCount messages e :
  (retryCount ≤ MAX_RETRIES)%nat →
  fst (attemptInstructionGeneration messages retryCount) = Throw e →
  retryLoop (S fuel) retryCount messages
  = let evs := snd (attemptInstructionGeneration messages retryCount) in
    if (MAX_RETRIES <? S retryCount)%nat
    then Some (Throw e, (generating retryCount :: evs ++ [exhausted e])%list)
    else match retryLoop fuel (S retryCount) (messages ++ [feedback e])%list with
         | Some (r, evs') =>
             Some (r, (generating retryCount :: evs ++ retrying :: evs')%list)
         | None => None
         end.
Proof.
  intros Hle He.
  destruct (attemptInstructionGeneration messages retryCount) as [r evs] eqn:Ha.
  simpl in He. subst r. simpl. rewrite Ha.
  destruct (Nat.leb_spec retryCount MAX_RETRIES); [reflexivity|lia].
Qed.

(** One turn of the loop around an attempt that returned. *)
Lemma retryLoop_ok fuel retryCount messages l :
  (retryCount ≤ MAX_RETRIES)%nat →
  fst (attemptInstructionGeneration messages retryCount) = Ok l →
  retryLoop (S fuel) retryCount messages
  = Some (Ok l,
          generating retryCount :: snd (attemptInstructionGeneration messages retryCount)).
Proof.
  intros Hle He.
  destruct (attemptInstructionGeneration messages retryCount) as [r evs] eqn:Ha.
  simpl in He. subst r. simpl. rewrite Ha.
  destruct (Nat.leb_spec retryCount MAX_RETRIES); [reflexivity|lia].
Qed.

(** The calls of one turn. *)
Lemma temperatures_turn_of messages retryCount rest :
  temperatures
    (generating retryCount :: snd (attemptInstructionGeneration messages retryCount)
     ++ rest)
  = (temperatureOf retryCount :: temperatures rest)%list.
Proof.
  unfold generating. by rewrite temperatures_turn, temperatures_Log, attempt_temperatures.
Qed.

End Instructions.

Section RetryProperties.
Import JS Cache Instructions.
Context `{parser : Parser} `{model : LanguageModel}.

(** With fuel for the turns that are left, the loop ends, and what it ends
    with was produced by an attempt: a list that an attempt returned, or the
    error that the attempt numbered [MAX_RETRIES] threw. *)
Lemma retryLoop_result fuel retryCount messages :
  (retryCount ≤ MAX_RETRIES)%nat → (MAX_RETRIES < retryCount + fuel)%nat →
  ∃ r evs,
    retryLoop fuel retryCount messages = Some (r, evs)
    ∧ match r with
      | Ok l =>
          ∃ messages' n,
            (n ≤ MAX_RETRIES)%nat
            ∧ fst (attemptInstructionGeneration messages' n) = Ok l
      | Throw e =>
          ∃ messages',
            fst (attemptInstructionGeneration messages' MAX_RETRIES) = Throw e
      end.
Proof.
  revert retryCount messages.
  induction fuel as [|fuel IH]; intros retryCount messages Hle Hfuel; [lia|].
  destruct (fst (attemptInstructionGeneration messages retryCount)) as [l|e] eqn:Ha.
  - rewrite (retryLoop_ok fuel retryCount messages l Hle Ha).
    eexists _, _. split; [reflexivity|]. by exists messages, retryCount.
  - rewrite (retryLoop_throw fuel retryCount messages e Hle Ha). cbv zeta.
    destruct (Nat.ltb_spec MAX_RETRIES (S retryCount)) as [Hlast|Hmore].
    + eexists _, _. split; [reflexivity|].
      assert (retryCount = MAX_RETRIES) as <- by lia. by exists messages.
    + destruct (IH (S retryCount) (messages ++ [feedback e])%list) as (r & evs' & -> & Hr);
        [lia|lia|].
      eexists _, _. split; [reflexivity|]. exact Hr.
Qed.

(** C1, as the code has it.  An attempt whose raw result is a non-empty
    array of which the sanitizer keeps nothing logs the failure and returns
    the empty list.  A list returned by the first attempt, empty or not, is
    what [generateInstructions] returns, with no further attempt.  An error
    thrown by the first attempt is fed back and the next attempt is made.
    And a run always ends, either with a list that one of its attempts
    returned or by throwing the error of its last attempt, never with a
    default. *)
Theorem empty_sanitation_is_returned_and_errors_are_rethrown
    (systemPrompt systemsText : string) :
  (∀ messages retry raw,
      generateObject messages schema (temperatureOf retry) = Ok (JArr raw) →
      raw ≠ [] →
      sanitizeInstructionSuggestions (JArr raw) = [] →
      attemptInstructionGeneration messages retry
      = (Ok [],
         [Call messages (temperatureOf retry);
          Log "error"
            "Sanitization failed: Sanitization failed or returned no valid instructions"]))
  ∧ (∀ l,
        fst (attemptInstructionGeneration (initial systemPrompt systemsText) 0) = Ok l →
        generateInstructions systemPrompt systemsText
        = Some (Ok l,
                Log "info" "Generating instructions"
                :: snd (attemptInstructionGeneration (initial systemPrompt systemsText) 0)))
  ∧ (∀ e,
        fst (attemptInstructionGeneration (initial systemPrompt systemsText) 0) = Throw e →
        ∃ r rest,
          retryLoop MAX_RETRIES 1 (initial systemPrompt systemsText ++ [feedback e])%list
          = Some (r, rest)
          ∧ generateInstructions systemPrompt systemsText
            = Some (r,
                    (Log "info" "Generating instructions"
                     :: snd (attemptInstructionGeneration
                               (initial systemPrompt systemsText) 0)
                     ++ Log "warn" "Instruction generation failed. Retrying..."
                     :: rest)%list))
  ∧ (∃ r evs,
        generateInstructions systemPrompt systemsText = Some (r, evs)
        ∧ match r with
          | Ok l =>
              ∃ messages n,
                (n ≤ MAX_RETRIES)%nat
                ∧ fst (attemptInstructionGeneration messages n) = Ok l
          | Throw e =>
              ∃ messages,
                fst (attemptInstructionGeneration messages MAX_RETRIES) = Throw e
          end).
Proof.
  split; [|split; [|split]].
  - intros messages retry raw Hraw Hne Hsan. unfold attemptInstructionGeneration.
    rewrite Hraw. destruct raw as [|x raw]; [done|]. by rewrite Hsan.
  - intros l Hl. unfold generateInstructions.
    by rewrite (retryLoop_ok MAX_RETRIES 0 _ l ltac:(unfold MAX_RETRIES; lia) Hl).
  - intros e He. unfold generateInstructions.
    rewrite (retryLoop_throw MAX_RETRIES 0 _ e ltac:(unfold MAX_RETRIES; lia) He).
    destruct (retryLoop_result MAX_RETRIES 1
                (initial systemPrompt systemsText ++ [feedback e])%list)
      as (r & rest & Hrest & _); [unfold MAX_RETRIES; lia..|].
    exists r, rest. split; [done|]. cbv zeta.
    change (MAX_RETRIES <? 1)%nat with false. cbv iota. by rewrite Hrest.
  - apply retryLoop_result; unfold MAX_RETRIES; lia.
Qed.

(** C2, as the code has it.  When every attempt is rejected, the attempts
    numbered 0, 1, 2 and 3 are made, each on the history extended by the
    error of the one before, at the temperatures [min(0.3 * n, 1.0)], which
    are 0, 0.3, 0.6 and 0.8999999999999999; the error thrown in the end is
    the error of the attempt numbered 3. *)
Theorem rejected_attempts_escalate_temperature (systemPrompt systemsText : string) :
  (∀ messages retry, ∃ e, fst (attemptInstructionGeneration messages retry) = Throw e) →
  ∃ e0 e1 e2 e3 evs,
    let m0 := initial systemPrompt systemsText in
    let m1 := (m0 ++ [feedback e0])%list in
    let m2 := (m1 ++ [feedback e1])%list in
    let m3 := (m2 ++ [feedback e2])%list in
    fst (attemptInstructionGeneration m0 0) = Throw e0
    ∧ fst (attemptInstructionGeneration m1 1) = Throw e1
    ∧ fst (attemptInstructionGeneration m2 2) = Throw e2
    ∧ fst (attemptInstructionGeneration m3 3) = Throw e3
    ∧ generateInstructions systemPrompt systemsText = Some (Throw e3, evs)
    ∧ temperatures evs
      = [temperatureOf 0; temperatureOf 1; temperatureOf 2; temperatureOf 3]
    ∧ [temperatureOf 0; temperatureOf 1; temperatureOf 2; temperatureOf 3]
      = [0; 0.3; 0.6; 0.8999999999999999]%float.
Proof.
  intros Hrej.
  set (m0 := initial systemPrompt systemsText).
  destruct (Hrej m0 0%nat) as [e0 A0].
  destruct (Hrej (m0 ++ [feedback e0])%list 1%nat) as [e1 A1].
  destruct (Hrej ((m0 ++ [feedback e0]) ++ [feedback e1])%list 2%nat) as [e2 A2].
  destruct (Hrej (((m0 ++ [feedback e0]) ++ [feedback e1]) ++ [feedback e2])%list 3%nat)
    as [e3 A3].
  pose proof (retryLoop_throw 3 0 _ _ ltac:(unfold MAX_RETRIES; lia) A0) as L0.
  pose proof (retryLoop_throw 2 1 _ _ ltac:(unfold MAX_RETRIES; lia) A1) as L1.
  pose proof (retryLoop_throw 1 2 _ _ ltac:(unfold MAX_RETRIES; lia) A2) as L2.
  pose proof (retryLoop_throw 0 3 _ _ ltac:(unfold MAX_RETRIES; lia) A3) as L3.
  cbv zeta in L0, L1, L2, L3.
  change (MAX_RETRIES <? 4)%nat with true in L3.
  change (MAX_RETRIES <? 3)%nat with false in L2. rewrite L3 in L2.
  change (MAX_RETRIES <? 2)%nat with false in L1. rewrite L2 in L1.
  change (MAX_RETRIES <? 1)%nat with false in L0. rewrite L1 in L0.
  exists e0, e1, e2, e3. eexists. cbv zeta.
  do 4 (split; [assumption|]).
  split; [exact L0|]. split; [|vm_compute; reflexivity].
  unfold retrying. do 3 rewrite temperatures_turn_of, temperatures_Log.
  by rewrite temperatures_turn_of.
Qed.

End RetryProperties.

(** The sanitizer on a numbered line, a bulleted line, a quoted line and a
    line between double asterisks.  The bullet pattern takes the first
    asterisk of the last line, so what is left no longer matches the header
    pattern and stays. *)
Example sanitizer_on_four_lines :
  @Instructions.sanitizeInstructionSuggestions Samples.toy_parser
    (JS.JArr [JS.JStr "1. Do X"; JS.JStr "- Do Y";
              JS.JStr (Samples.q ++ "Do Z" ++ Samples.q); JS.JStr "**Header**"])
  = ["Do X"; "Do Y"; "Do Z"; "*Header**"].
Proof. vm_compute. reflexivity. Qed.

(** C1 fails as stated: the model answers with a non-empty array holding
    one header line, the sanitizer keeps nothing of it, and
    [generateInstructions] returns the empty list after that one call. *)
Lemma generateInstructions_returns_empty_list :
  @Instructions.generateObject Samples.header_model
    (Instructions.initial "" "") Instructions.schema (Instructions.temperatureOf 0)
  = JS.Ok (JS.JArr [JS.JStr "Individual Suggestions:"])
  ∧ @Instructions.sanitizeInstructionSuggestions Samples.toy_parser
      (JS.JArr [JS.JStr "Individual Suggestions:"]) = []
  ∧ @Instructions.generateInstructions Samples.toy_parser Samples.header_model "" ""
    = Some (JS.Ok [],
            [Instructions.Log "info" "Generating instructions";
             Instructions.Call (Instructions.initial "" "") 0%float;
             Instructions.Log "error"
               "Sanitization failed: Sanitization failed or returned no valid instructions"]).
Proof. vm_compute. repeat split. Qed.

Lemma empty_sanitation_is_returned_and_errors_are_rethrown_witness :
  @Instructions.attemptInstructionGeneration Samples.toy_parser Samples.header_model
    (Instructions.initial "" "") 0
  = (JS.Ok [],
     [Instructions.Call (Instructions.initial "" "") (Instructions.temperatureOf 0);
      Instructions.Log "error"
        "Sanitization failed: Sanitization failed or returned no valid instructions"]).
Proof.
  apply (proj1 (@empty_sanitation_is_returned_and_errors_are_rethrown
                  Samples.toy_parser Samples.header_model "" "")
           (Instructions.initial "" "") 0%nat [JS.JStr "Individual Suggestions:"]);
    [reflexivity | discriminate | vm_compute; reflexivity].
Defined.

(** C2 fails as stated: against a model that rejects every call there are
    four attempts, not three; the fourth runs at 0.3 * 3 and its error is
    the one thrown. *)
Lemma four_attempts_not_three :
  option_map (fun run => (fst run, Instructions.temperatures (snd run)))
    (@Instructions.generateInstructions Samples.toy_parser Samples.failing_model "" "")
  = Some (JS.Throw "failure 3", [0; 0.3; 0.6; 0.8999999999999999]%float)
  ∧ option_map (fun run => Instructions.temperatures (snd run))
      (@Instructions.generateInstructions Samples.toy_parser Samples.failing_model "" "")
    ≠ Some [0; 0.3; 0.6]%float.
Proof. split; [vm_compute; reflexivity|]. vm_compute. discriminate. Qed.

Lemma rejected_attempts_escalate_temperature_witness :
  ∃ e0 e1 e2 e3 evs,
    @Instructions.generateInstructions Samples.toy_parser Samples.failing_model "" ""
    = Some (JS.Throw e3, evs)
    ∧ Instructions.temperatures evs = [0; 0.3; 0.6; 0.8999999999999999]%float
    ∧ (e0, e1, e2, e3) = ("failure 0", "failure 1", "failure 2", "failure 3").
Proof.
  destruct (@rejected_attempts_escalate_temperature
              Samples.toy_parser Samples.failing_model "" "")
    as (e0 & e1 & e2 & e3 & evs & H0 & H1 & H2 & H3 & Hrun & Ht & Hv).
  - intros messages retry. eexists. reflexivity.
  - exists e0, e1, e2, e3, evs. split; [exact Hrun|]. split; [by rewrite Ht|].
    vm_compute in H0. injection H0 as <-.
    vm_compute in H1. injection H1 as <-.
    vm_compute in H2. injection H2 as <-.
    vm_compute in H3. injection H3 as <-.
    reflexivity.
Defined.

(** *** What the sanitizer returns, and the calls of a run *)

Section Sanitizer.
Import JS Cache Instructions Vocabulary Suggestions.

Lemma trimEnd_idempotent s : trimEnd (trimEnd s) = trimEnd s.
Proof.
  induction s as [|c s IH]; simpl; [done|].
  destruct ((trimEnd s =? "")%string && is_space c) eqn:Hdrop; simpl; [done|].
  by rewrite IH, Hdrop.
Qed.

Lemma trimStart_no_space s :
  starts_with (λ c, negb (is_space c)) s = true ∨ s = "" → trimStart s = s.
Proof.
  destruct s as [|c s]; simpl; [done|].
  intros [Hc|]; [|done]. apply negb_true_iff in Hc. by rewrite Hc.
Qed.

Lemma trimStart_starts s :
  starts_with (λ c, negb (is_space c)) (trimStart s) = true ∨ trimStart s = "".
Proof.
  induction s as [|c s IH]; simpl; [by right|].
  destruct (is_space c) eqn:Hc; [done|]. left. simpl. by rewrite Hc.
Qed.

Lemma trimEnd_starts s :
  starts_with (λ c, negb (is_space c)) s = true ∨ s = "" →
  starts_with (λ c, negb (is_space c)) (trimEnd s) = true ∨ trimEnd s = "".
Proof.
  destruct s as [|c s]; simpl; [by right|].
  intros [Hc|]; [|done]. apply negb_true_iff in Hc. rewrite Hc, andb_false_r.
  left. simpl. by rewrite Hc.
Qed.

Lemma trim_idempotent s : trim (trim s) = trim s.
Proof.
  unfold trim.
  rewrite (trimStart_no_space (trimEnd (trimStart s))).
  - apply trimEnd_idempotent.
  - apply trimEnd_starts, trimStart_starts.
Qed.

(** Every operation of the cleaning takes characters away and adds none. *)
Lemma all_chars_trimStart p s : all_chars p s = true → all_chars p (trimStart s) = true.
Proof.
  induction s as [|c s IH]; simpl; [done|].
  intros [Hc Hs]%andb_prop. destruct (is_space c); [auto|]. simpl. by rewrite Hc, Hs.
Qed.

Lemma all_chars_trimEnd p s : all_chars p s = true → all_chars p (trimEnd s) = true.
Proof.
  induction s as [|c s IH]; simpl; [done|].
  intros [Hc Hs]%andb_prop.
  destruct ((trimEnd s =? "")%string && is_space c); [done|]. simpl. by rewrite Hc, IH.
Qed.

Lemma all_chars_trim p s : all_chars p s = true → all_chars p (trim s) = true.
Proof. intros H. by apply all_chars_trimEnd, all_chars_trimStart. Qed.

Lemma all_chars_strip_bullet p s :
  all_chars p s = true → all_chars p (strip_bullet s) = true.
Proof.
  destruct s as [|c s]; simpl; [done|].
  intros Hall. destruct (Ascii.eqb c "-" || Ascii.eqb c "*"); [|done].
  apply andb_prop in Hall as [_ Hs]. by apply all_chars_trimStart.
Qed.

Lemma all_chars_drop_digits p s :
  all_chars p s = true → all_chars p (drop_digits s) = true.
Proof.
  induction s as [|c s IH]; simpl; [done|].
  intros Hall. destruct (is_digit c); [|done].
  apply andb_prop in Hall as [_ Hs]. auto.
Qed.

Lemma all_chars_strip_number p s :
  all_chars p s = true → all_chars p (strip_number s) = true.
Proof.
  intros Hall. unfold strip_number.
  destruct s as [|c s]; [done|].
  destruct (is_digit c); [|done].
  pose proof (all_chars_drop_digits p _ Hall) as Hd.
  destruct (drop_digits (String c s)) as [|d rest]; [done|].
  destruct (Ascii.eqb d "."); [|done].
  simpl in Hd. apply andb_prop in Hd as [_ Hrest]. by apply all_chars_trimStart.
Qed.

Lemma all_chars_drop_last_quote p s :
  all_chars p s = true → all_chars p (drop_last_quote s) = true.
Proof.
  induction s as [|c s IH]; [done|].
  destruct s as [|c' s].
  - simpl. by destruct (Ascii.eqb c dquote).
  - intros [Hc Hs]%andb_prop.
    change (drop_last_quote (String c (String c' s)))
      with (String c (drop_last_quote (String c' s))).
    simpl. rewrite Hc. simpl. by apply IH.
Qed.

Lemma all_chars_strip_quotes p s :
  all_chars p s = true → all_chars p (strip_quotes s) = true.
Proof.
  intros Hall. unfold strip_quotes. apply all_chars_drop_last_quote.
  destruct s as [|c s]; [done|].
  destruct (Ascii.eqb c dquote); [|done].
  simpl in Hall. by apply andb_prop in Hall as [_ Hs].
Qed.

Lemma all_chars_clean_line p s : all_chars p s = true → all_chars p (clean_line s) = true.
Proof.
  intros H. unfold clean_line.
  by apply all_chars_trim, all_chars_strip_quotes, all_chars_strip_number,
    all_chars_strip_bullet.
Qed.

(** No line of a split text has a line feed in it. *)
Lemma split_lines_no_LF n : ∀ s,
  (String.length s ≤ n)%nat → Forall (λ l, no_LF l = true) (split_lines s).
Proof.
  induction n as [|n IH]; intros s Hlen.
  { destruct s; [|simpl in Hlen; lia]. by repeat constructor. }
  destruct s as [|c s]; [by repeat constructor|].
  simpl in Hlen.
  assert (Hkeep : Forall (λ l, no_LF l = true)
                    match split_lines s with
                    | l :: ls => String c l :: ls
                    | [] => [String c EmptyString]
                    end ∨ Ascii.eqb c LF = true).
  { destruct (Ascii.eqb c LF) eqn:Hc; [by right|left].
    pose proof (IH s ltac:(lia)) as Hs.
    destruct (split_lines s) as [|l ls].
    - repeat constructor. unfold no_LF. simpl. by rewrite Hc.
    - inversion Hs; subst. constructor; [|done]. unfold no_LF in *. simpl. by rewrite Hc. }
  cbn [split_lines].
  destruct (Ascii.eqb c LF) eqn:Hc.
  { constructor; [done|]. apply IH. lia. }
  destruct Hkeep as [Hkeep|]; [|done].
  destruct (Ascii.eqb c CR); [|done].
  destruct s as [|c2 s]; [done|].
  destruct (Ascii.eqb c2 LF); [|done].
  constructor; [done|]. apply IH. simpl in Hlen. lia.
Qed.

Context `{parser : Parser}.

Lemma sanitized_line raw s : In s (sanitizeInstructionSuggestions raw) → clean s.
Proof.
  unfold sanitizeInstructionSuggestions, clean.
  intros [Hin Hkeep]%filter_In.
  apply andb_prop in Hkeep as [Hlen Hhead].
  apply negb_true_iff in Hlen, Hhead. apply Nat.eqb_neq in Hlen.
  split; [by intros ->|]. split; [done|].
  apply in_map_iff in Hin as (l & <- & Hin).
  split; [apply trim_idempotent|].
  apply all_chars_clean_line.
  apply in_flat_map in Hin as (item & _ & Hin).
  destruct item as [| | |text| |]; try done.
  apply in_map_iff in Hin as (l' & <- & Hin).
  apply all_chars_trim.
  pose proof (split_lines_no_LF (String.length text) text ltac:(lia)) as Hall.
  rewrite List.Forall_forall in Hall. by apply Hall.
Qed.

(** X21.  Whatever it is given, the sanitizer returns clean lines only:
    none is empty, none is a header, none has white space at either end,
    and none has a line feed in it. *)
Theorem sanitized_lines_are_clean raw :
  Forall clean (sanitizeInstructionSuggestions raw).
Proof. apply List.Forall_forall. intros s. apply sanitized_line. Qed.

Lemma split_lines_single s : no_LF s = true → split_lines s = [s].
Proof.
  unfold no_LF. induction s as [|c s IH]; [done|].
  intros [Hc Hs]%andb_prop. apply negb_true_iff in Hc.
  cbn [split_lines]. rewrite Hc, (IH Hs).
  destruct (Ascii.eqb c CR); [|done].
  destruct s as [|c2 s]; [done|].
  simpl in Hs. apply andb_prop in Hs as [Hc2 _]. apply negb_true_iff in Hc2.
  by rewrite Hc2.
Qed.

Lemma trimEnd_fixed s :
  ends_with (λ c, negb (is_space c)) s = true → trimEnd s = s.
Proof.
  induction s as [|c s IH]; [done|].
  destruct s as [|c' s].
  - simpl. intros Hc. apply negb_true_iff in Hc. by rewrite Hc.
  - intros Hend.
    change (trimEnd (String c (String c' s)))
      with (let t := trimEnd (String c' s) in
            if (t =? "")%string && is_space c then "" else String c t).
    by rewrite IH.
Qed.

Lemma drop_last_quote_fixed s :
  ends_with (λ c, negb (Ascii.eqb c dquote)) s = true → drop_last_quote s = s.
Proof.
  induction s as [|c s IH]; [done|].
  destruct s as [|c' s].
  - simpl. intros Hc. apply negb_true_iff in Hc. by rewrite Hc.
  - intros Hend.
    change (drop_last_quote (String c (String c' s)))
      with (String c (drop_last_quote (String c' s))).
    by rewrite IH.
Qed.

Lemma ends_with_weaken (p q : ascii → bool) s :
  (∀ c, p c = true → q c = true) → ends_with p s = true → ends_with q s = true.
Proof.
  intros Hpq. induction s as [|c s IH]; [done|].
  destruct s as [|c' s]; [apply Hpq|exact IH].
Qed.

Lemma clean_line_plain s : plain s = true → trim s = s ∧ clean_line s = s.
Proof.
  unfold plain. intros [[[Hlf Hstart]%andb_prop Hend]%andb_prop Hhead]%andb_prop.
  destruct s as [|c s]; [done|]. cbn [starts_with] in Hstart.
  apply negb_true_iff in Hstart.
  apply orb_false_elim in Hstart as [Hstart Hquote].
  apply orb_false_elim in Hstart as [Hstart Hdigit].
  apply orb_false_elim in Hstart as [Hstart Hstar].
  apply orb_false_elim in Hstart as [Hspace Hdash].
  assert (Htrim : trim (String c s) = String c s).
  { unfold trim. cbn [trimStart]. rewrite Hspace. apply trimEnd_fixed.
    revert Hend. apply ends_with_weaken. intros x Hx.
    apply negb_true_iff in Hx. apply orb_false_elim in Hx as [Hx _]. by rewrite Hx. }
  split; [done|].
  unfold clean_line, strip_bullet, strip_number, strip_quotes.
  rewrite Hdash, Hstar. cbn [orb]. rewrite Hdigit, Hquote.
  rewrite drop_last_quote_fixed; [done|].
  revert Hend. apply ends_with_weaken. intros x Hx.
  apply negb_true_iff in Hx. apply orb_false_elim in Hx as [_ Hx]. by rewrite Hx.
Qed.

(** X22.  The sanitizer does not touch what needs no cleaning: an array
    of plain lines comes back as it went in, every line, in order. *)
Theorem plain_lines_pass_unchanged (lines : list string) :
  Forall (λ s, plain s = true) lines →
  sanitizeInstructionSuggestions (JArr (List.map JStr lines)) = lines.
Proof.
  unfold sanitizeInstructionSuggestions.
  induction 1 as [|s lines Hs _ IH]; [done|].
  cbn [List.map flat_map].
  assert (Hlf : no_LF s = true).
  { unfold plain in Hs. by apply andb_prop in Hs as [[[Hlf _]%andb_prop _]%andb_prop _]. }
  destruct (clean_line_plain s Hs) as [Htrim Hclean].
  rewrite (split_lines_single s Hlf). cbn [List.map app]. rewrite Htrim.
  cbn [List.map List.filter]. rewrite Hclean.
  assert (Hkeep : negb (String.length s =? 0)%nat && negb (is_header s) = true).
  { unfold plain in Hs. apply andb_prop in Hs as [[[_ Hstart]%andb_prop _]%andb_prop ->].
    destruct s; [done|]. done. }
  rewrite Hkeep. f_equal. exact IH.
Qed.

Lemma split_lines_nonempty s : split_lines s ≠ [].
Proof.
  destruct s as [|c s]; [done|]. cbn [split_lines].
  destruct (Ascii.eqb c LF); [done|].
  assert (Hkeep : match split_lines s with
                  | l :: ls => String c l :: ls
                  | [] => [String c EmptyString]
                  end ≠ []) by (by destruct (split_lines s)).
  destruct (Ascii.eqb c CR); [|done].
  destruct s as [|c2 s]; [done|]. by destruct (Ascii.eqb c2 LF).
Qed.

Lemma split_lines_cons c s :
  split_lines (String c s)
  = if Ascii.eqb c LF then EmptyString :: split_lines s
    else if Ascii.eqb c CR && starts_with (λ c2, Ascii.eqb c2 LF) s
    then EmptyString :: split_lines (match s with String _ s'' => s'' | _ => s end)
    else match split_lines s with
         | l :: ls => String c l :: ls
         | [] => [String c EmptyString]
         end.
Proof.
  cbn [split_lines]. destruct (Ascii.eqb c LF); [done|].
  destruct (Ascii.eqb c CR); [|done].
  destruct s as [|c2 s]; [done|]. simpl. by destruct (Ascii.eqb c2 LF).
Qed.

Lemma chomp_cons c s : s ≠ "" → chomp (String c s) = String c (chomp s).
Proof. by destruct s. Qed.

(** Splitting [a], a line feed, [b]: the lines of [a], the last of them
    without the carriage return that the line feed takes with it, then the
    lines of [b]. *)
Lemma split_lines_join n : ∀ a b,
  (String.length a ≤ n)%nat →
  ∃ front x,
    split_lines a = (front ++ [x])%list
    ∧ split_lines (a ++ String LF b) = (front ++ chomp x :: split_lines b)%list.
Proof.
  induction n as [|n IH]; intros a b Hlen.
  { destruct a; [|simpl in Hlen; lia]. exists [], "". split; [done|].
    change ("" ++ String LF b) with (String LF b).
    rewrite split_lines_cons. by rewrite Ascii.eqb_refl. }
  destruct a as [|c a].
  { exists [], "". split; [done|].
    change ("" ++ String LF b) with (String LF b).
    rewrite split_lines_cons. by rewrite Ascii.eqb_refl. }
  simpl in Hlen.
  change (String c a ++ String LF b) with (String c (a ++ String LF b)).
  rewrite !split_lines_cons.
  destruct (Ascii.eqb c LF) eqn:Hlf.
  { destruct (IH a b ltac:(lia)) as (front & x & Ha & Hab).
    exists ("" :: front), x. rewrite Ha, Hab. done. }
  destruct (Ascii.eqb c CR) eqn:Hcr; cbn [andb].
  - destruct a as [|c2 a].
    + (* the carriage return is the end of [a] *)
      change ("" ++ String LF b) with (String LF b). cbn [starts_with].
      rewrite Ascii.eqb_refl. exists [], (String c ""). split; [done|].
      simpl. by rewrite Hcr.
    + change (String c2 a ++ String LF b) with (String c2 (a ++ String LF b)).
      cbn [starts_with].
      destruct (Ascii.eqb c2 LF) eqn:Hlf2.
      * destruct (IH a b ltac:(simpl in Hlen; lia)) as (front & x & Ha & Hab).
        exists ("" :: front), x. rewrite Ha, Hab. done.
      * destruct (IH (String c2 a) b ltac:(lia)) as (front & x & Ha & Hab).
        change (String c2 a ++ String LF b) with (String c2 (a ++ String LF b)) in Hab.
        rewrite Ha, Hab.
        destruct front as [|f0 front]; simpl.
        -- exists [], (String c x). split; [done|].
           rewrite chomp_cons; [done|]. intros ->.
           (* the only line of a text that is not empty is not empty *)
           rewrite split_lines_cons, Hlf2 in Ha.
           destruct (Ascii.eqb c2 CR && starts_with (λ c3, Ascii.eqb c3 LF) a).
           ++ injection Ha as Ha. by apply split_lines_nonempty in Ha.
           ++ by destruct (split_lines a).
        -- by exists (String c f0 :: front), x.
  - destruct (IH a b ltac:(lia)) as (front & x & Ha & Hab).
    rewrite Ha, Hab.
    destruct front as [|f0 front]; simpl.
    + exists [], (String c x). split; [done|].
      destruct x as [|c' x]; [|done]. simpl. by rewrite Hcr.
    + by exists (String c f0 :: front), x.
Qed.

Lemma trimEnd_chomp s : trimEnd (chomp s) = trimEnd s.
Proof.
  induction s as [|c s IH]; [done|].
  destruct s as [|c' s].
  - simpl. destruct (Ascii.eqb c CR) eqn:Hcr; [|done].
    apply Ascii.eqb_eq in Hcr as ->. done.
  - change (chomp (String c (String c' s))) with (String c (chomp (String c' s))).
    change (trimEnd (String c ?t))
      with (if (trimEnd t =? "")%string && is_space c then "" else String c (trimEnd t)).
    by rewrite IH.
Qed.

Lemma trimStart_chomp s : trimEnd (trimStart (chomp s)) = trimEnd (trimStart s).
Proof.
  induction s as [|c s IH]; [done|].
  destruct s as [|c' s].
  - simpl. destruct (Ascii.eqb c CR) eqn:Hcr; [|done].
    apply Ascii.eqb_eq in Hcr as ->. done.
  - change (chomp (String c (String c' s))) with (String c (chomp (String c' s))).
    cbn [trimStart]. destruct (is_space c); [exact IH|].
    change (String c (chomp (String c' s))) with (chomp (String c (String c' s))).
    apply trimEnd_chomp.
Qed.

Lemma trim_chomp s : trim (chomp s) = trim s.
Proof. apply trimStart_chomp. Qed.

Lemma trimmed_lines_join a b :
  List.map trim (split_lines (a ++ String LF b))
  = (List.map trim (split_lines a) ++ List.map trim (split_lines b))%list.
Proof.
  destruct (split_lines_join (String.length a) a b) as (front & x & -> & ->); [lia|].
  rewrite !List.map_app. simpl. rewrite trim_chomp. by rewrite <- app_assoc.
Qed.

(** X23.  A line feed inside an item separates two items: an array with
    the item [a], line feed, [b] is sanitized exactly like the array with the
    two items [a] and [b] in its place, whatever stands around it. *)
Theorem multi_line_item_is_flattened (before after : list JSON) (a b : string) :
  sanitizeInstructionSuggestions
    (JArr (before ++ JStr (a ++ line_feed ++ b) :: after))
  = sanitizeInstructionSuggestions (JArr (before ++ JStr a :: JStr b :: after)).
Proof.
  unfold sanitizeInstructionSuggestions. do 2 f_equal.
  rewrite !flat_map_app. f_equal. cbn [flat_map].
  change (a ++ line_feed ++ b) with (a ++ String LF b).
  by rewrite trimmed_lines_join, <- app_assoc.
Qed.

End Sanitizer.

Lemma plain_lines_pass_unchanged_witness :
  @Instructions.sanitizeInstructionSuggestions Samples.toy_parser
    (JS.JArr (List.map JS.JStr ["Authenticate with the API key"; "Fetch all users"]))
  = ["Authenticate with the API key"; "Fetch all users"].
Proof.
  apply (@plain_lines_pass_unchanged Samples.toy_parser
           ["Authenticate with the API key"; "Fetch all users"]).
  repeat constructor.
Defined.

Section RetryTrace.
Import JS Cache Instructions Vocabulary Suggestions.
Context `{parser : Parser} `{model : LanguageModel}.

Lemma histories_app evs evs' :
  histories (evs ++ evs') = (histories evs ++ histories evs')%list.
Proof. apply flat_map_app. Qed.

(** Every attempt calls the model once, with the history it was given. *)
Lemma attempt_histories messages retry :
  histories (snd (attemptInstructionGeneration messages retry)) = [messages].
Proof.
  unfold attemptInstructionGeneration.
  destruct (generateObject messages schema (temperatureOf retry)) as [[| | | |[|x items]|]|];
    try done.
  by destruct (sanitizeInstructionSuggestions (JArr (x :: items))).
Qed.

Lemma histories_turn_of messages retryCount rest :
  histories
    (generating retryCount :: snd (attemptInstructionGeneration messages retryCount)
     ++ rest)
  = (messages :: histories rest)%list.
Proof.
  unfold generating.
  change (histories (Log ?l ?t :: ?evs)) with (histories evs).
  by rewrite histories_app, attempt_histories.
Qed.

(** The calls of the loop from any retry count on. *)
Lemma retryLoop_calls fuel : ∀ retryCount messages,
  (retryCount ≤ MAX_RETRIES)%nat → (MAX_RETRIES < retryCount + fuel)%nat →
  ∃ r evs n,
    retryLoop fuel retryCount messages = Some (r, evs)
    ∧ (1 ≤ n)%nat ∧ (retryCount + n ≤ S MAX_RETRIES)%nat
    ∧ temperatures evs = List.map temperatureOf (seq retryCount n)
    ∧ Forall2 (grown messages) (seq 0 n) (histories evs)
    ∧ (∀ e, r = Throw e → (retryCount + n = S MAX_RETRIES)%nat).
Proof.
  induction fuel as [|fuel IH]; intros retryCount messages Hle Hfuel; [lia|].
  assert (Hfirst : grown messages 0 messages).
  { exists []. simpl. by rewrite app_nil_r. }
  destruct (fst (attemptInstructionGeneration messages retryCount)) as [l|e] eqn:Ha.
  - rewrite (retryLoop_ok fuel retryCount messages l Hle Ha).
    eexists _, _, 1%nat. split; [reflexivity|]. split; [lia|]. split; [lia|].
    rewrite <- (app_nil_r (snd _)).
    rewrite temperatures_turn_of, histories_turn_of. simpl.
    repeat split; [by repeat constructor|done].
  - rewrite (retryLoop_throw fuel retryCount messages e Hle Ha). cbv zeta.
    destruct (Nat.ltb_spec MAX_RETRIES (S retryCount)) as [Hlast|Hmore].
    + eexists _, _, 1%nat. split; [reflexivity|]. split; [lia|]. split; [lia|].
      rewrite temperatures_turn_of, histories_turn_of. simpl.
      repeat split; [by repeat constructor|]. intros _ _. unfold MAX_RETRIES in *. lia.
    + destruct (IH (S retryCount) (messages ++ [feedback e])%list)
        as (r & evs' & n & -> & Hn & Hbound & Htemps & Hhist & Hthrow); [lia|lia|].
      eexists _, _, (S n). split; [reflexivity|]. split; [lia|]. split; [lia|].
      rewrite temperatures_turn_of, histories_turn_of.
      change (temperatures (retrying :: evs')) with (temperatures evs').
      change (histories (retrying :: evs')) with (histories evs').
      rewrite Htemps. split; [done|]. split.
      * cbn [seq]. constructor; [done|]. rewrite <- seq_shift.
        apply Forall2_fmap_l. eapply Forall2_impl; [exact Hhist|].
        intros i h (errors & Hlen & ->). exists (e :: errors). simpl.
        split; [by rewrite Hlen|]. by rewrite <- app_assoc.
      * intros e' He'. specialize (Hthrow e' He'). lia.
Qed.

(** X24.  Whatever the model does, a run of [generateInstructions] ends
    after one to four calls of the model.  Call number [i] is made at the
    temperature of its number, with the two initial messages followed by
    one feedback message for each of the [i] calls before it; and the run
    throws only after the fourth call. *)
Theorem generateInstructions_makes_at_most_four_calls (systemPrompt systemsText : string) :
  ∃ r evs n,
    generateInstructions systemPrompt systemsText = Some (r, evs)
    ∧ (1 ≤ n ≤ S MAX_RETRIES)%nat
    ∧ temperatures evs = List.map temperatureOf (seq 0 n)
    ∧ Forall2 (grown (initial systemPrompt systemsText)) (seq 0 n) (histories evs)
    ∧ (∀ e, r = Throw e → n = S MAX_RETRIES).
Proof.
  unfold generateInstructions.
  destruct (retryLoop_calls (S MAX_RETRIES) 0 (initial systemPrompt systemsText))
    as (r & evs & n & Hrun & Hn & Hbound & Htemps & Hhist & Hthrow);
    [unfold MAX_RETRIES; lia|unfold MAX_RETRIES; lia|].
  exists r, evs, n. split; [done|]. split; [lia|]. split; [done|]. split; [done|].
  intros e He. by apply (Hthrow e).
Qed.

(** X25.  The instructions that [generateInstructions] returns are clean
    lines: they are what the sanitizer left of one reply of the model. *)
Theorem returned_instructions_are_clean (systemPrompt systemsText : string) l evs :
  generateInstructions systemPrompt systemsText = Some (Ok l, evs) →
  Forall clean l.
Proof.
  intros Hrun.
  destruct (retryLoop_result (S MAX_RETRIES) 0 (initial systemPrompt systemsText))
    as (r & evs' & Hrun' & Hr); [unfold MAX_RETRIES; lia|unfold MAX_RETRIES; lia|].
  unfold generateInstructions in Hrun. rewrite Hrun in Hrun'.
  injection Hrun' as <- <-. destruct Hr as (messages & n & _ & Hattempt).
  revert Hattempt. unfold attemptInstructionGeneration.
  destruct (generateObject messages schema (temperatureOf n)) as [[| | | |[|x items]|]|];
    try done.
  destruct (sanitizeInstructionSuggestions (JArr (x :: items))) as [|s0 rest] eqn:Hs.
  - intros [= <-]. constructor.
  - intros [= <-]. apply List.Forall_forall. intros s Hin.
    apply (sanitized_line (JArr (x :: items))). by rewrite Hs.
Qed.

End RetryTrace.

Lemma returned_instructions_are_clean_witness :
  @Instructions.generateInstructions Samples.toy_parser Samples.listing_model "" ""
  = Some (JS.Ok ["Do X"; "Do Y"],
          [Instructions.Log "info" "Generating instructions";
           Instructions.Call (Instructions.initial "" "") 0%float])
  ∧ Forall Suggestions.clean ["Do X"; "Do Y"].
Proof.
  split; [reflexivity|].
  apply (@returned_instructions_are_clean Samples.toy_parser Samples.listing_model
           "" "" ["Do X"; "Do Y"]
           [Instructions.Log "info" "Generating instructions";
            Instructions.Call (Instructions.initial "" "") 0%float]).
  reflexivity.
Defined.

(** ** The deduplicating queue *)

Section QueueInvariant.
Import Queue.

Lemma invoked_app evs evs' : invoked (evs ++ evs') = (invoked evs ++ invoked evs')%list.
Proof. apply flat_map_app. Qed.

(** The loop calls the tasks of a prefix of the pending jobs, in order, and
    leaves the rest queued; it stops at the first task that returns a
    promise, with that job awaited, or at the end of the list. *)
Lemma loop_spec pending q :
  NoDup (List.map id pending) →
  (∀ i, i ∈ jobSet q ↔ In i (List.map id pending)) →
  coherent (loop pending q).1
  ∧ (invoked (loop pending q).2 ++ queue (loop pending q).1)%list = pending
  ∧ type (loop pending q).1 = type q
  ∧ (awaiting (loop pending q).1 = None
     ∨ ∃ job, awaiting (loop pending q).1 = Some job ∧ In job pending
              ∧ (List.length (queue (loop pending q).1) < List.length pending)%nat).
Proof.
  revert q. induction pending as [|job rest IH]; intros q Hnd Hset; simpl.
  - split; [|split; [done|split; [done|by left]]].
    unfold coherent, tracked. simpl. split; [apply NoDup_nil_2|].
    split; [exact Hset|done].
  - simpl in Hnd. apply NoDup_cons in Hnd as [Hnotin Hnd].
    rewrite list_elem_of_In in Hnotin.
    destruct (behaviour (task job)) as [error|] eqn:Hb.
    + set (q' := {| queue := rest; isProcessing := true;
                    jobSet := jobSet q ∖ {[id job]};
                    type := type q; awaiting := None |}).
      destruct (IH q' Hnd) as (Hco & Hinv & Hty & Haw).
      { intros i. unfold q'. simpl. rewrite elem_of_difference, elem_of_singleton, Hset.
        simpl. split; [intros [[?|?] ?]; [congruence|done]|].
        intros Hin. split; [by right|]. intros ->. done. }
      destruct (loop rest q') as [q'' evs]. simpl in *.
      split; [done|]. split; [by rewrite Hinv|]. split; [done|].
      destruct Haw as [?|(j & ? & ? & ?)]; [by left|right].
      exists j. split; [done|]. split; [by right|lia].
    + simpl. split; [|split; [done|split; [done|right]]].
      * unfold coherent, tracked. simpl. split; [by apply NoDup_cons_2; [rewrite list_elem_of_In|]|].
        split; [exact Hset|]. split; [|done].
        first [reflexivity | symmetry; apply bool_decide_eq_true_2; by eexists].
      * exists job. split; [done|]. split; [by left|lia].
Qed.

Lemma constructor_coherent queueType : coherent (constructor queueType).
Proof.
  unfold coherent, tracked. simpl. split; [apply NoDup_nil_2|].
  split; [|done]. intros i. split; [|done]. apply not_elem_of_empty.
Qed.

(** A duplicate [enqueue] changes nothing and only logs. *)
Lemma enqueue_duplicate q i t :
  i ∈ jobSet q →
  enqueue q i t = (q, [Log "info" ("Job with ID " ++ i ++ " is already in the queue.")]).
Proof. intros Hin. unfold enqueue. by rewrite bool_decide_eq_true_2. Qed.

(** An [enqueue] with a fresh id appends the job; on an idle queue its task
    is called at once. *)
Lemma enqueue_fresh q i t :
  coherent q → i ∉ jobSet q →
  coherent (enqueue q i t).1
  ∧ (invoked (enqueue q i t).2 ++ queue (enqueue q i t).1)%list
    = (queue q ++ [ {| id := i; task := t |} ])%list
  ∧ (isProcessing q = true ∨ behaviour t = ReturnsPromise → i ∈ jobSet (enqueue q i t).1)
  ∧ (isProcessing q = false →
     ∃ evs, (enqueue q i t).2
            = (Log "info" ("Processing " ++ type q ++ " " ++ i)
               :: Invoke {| id := i; task := t |} :: evs)%list).
Proof.
  intros (Hnd & Hset & Hproc & Hidle) Hfresh. unfold enqueue.
  rewrite bool_decide_eq_false_2 by done. unfold processQueue. simpl.
  destruct (isProcessing q) eqn:Hp.
  - simpl. split; [|split; [done|split; [|done]]];
      [|intros _; rewrite elem_of_union, elem_of_singleton; by right].
    unfold coherent, tracked in *. simpl.
    rewrite map_app in *. rewrite map_app. simpl.
    assert (Hni : ¬ In i (List.map id (option_list (awaiting q)) ++ List.map id (queue q))%list)
      by (by rewrite <- Hset).
    split; [|split; [|split; [done|]]].
    + rewrite app_assoc. apply NoDup_app. split; [done|].
      split; [|apply NoDup_singleton].
      intros x Hx Hx'. apply list_elem_of_In in Hx. apply list_elem_of_singleton in Hx'.
      by subst.
    + intros j. rewrite elem_of_union, elem_of_singleton, Hset, app_assoc, !in_app_iff.
      simpl. intuition congruence.
    + intros Hnone. rewrite Hnone in Hproc. by simpl in Hproc.
  - assert (Hnone : awaiting q = None).
    { destruct (awaiting q); [|done]. rewrite bool_decide_eq_true_2 in Hproc; [done|by eexists]. }
    rewrite (Hidle Hnone). simpl.
    destruct t as [n [error|]]; simpl.
    + split; [|split; [done|split; [by intros [?|?]|by eexists]]].
      unfold coherent, tracked. simpl. split; [apply NoDup_nil_2|].
      split; [|done]. intros j.
      unfold tracked in Hset. rewrite Hnone, (Hidle Hnone) in Hset. simpl in Hset.
      specialize (Hset j). rewrite elem_of_difference, elem_of_union, elem_of_singleton.
      tauto.
    + split; [|split; [done|split; [|by eexists]]];
        [|intros _; rewrite elem_of_union, elem_of_singleton; by right].
      unfold coherent, tracked. simpl. split; [apply NoDup_singleton|].
      split; [|split; [|done]].
      * intros j. unfold tracked in Hset. rewrite Hnone, (Hidle Hnone) in Hset.
        simpl in Hset. specialize (Hset j). rewrite elem_of_union, elem_of_singleton.
        intuition congruence.
      * first [reflexivity | symmetry; apply bool_decide_eq_true_2; by eexists].
Qed.

(** When the awaited promise settles, the id of its job leaves [jobSet],
    a rejection is logged, and the loop goes on with what is queued. *)
Lemma settle_awaited q job outcome :
  coherent q → awaiting q = Some job →
  coherent (settle q outcome).1
  ∧ (id job ∉ jobSet (settle q outcome).1)
  ∧ (invoked (settle q outcome).2 ++ queue (settle q outcome).1)%list = queue q
  ∧ (∀ error, outcome = Rejected error →
       ∃ evs, (settle q outcome).2
              = (LogError ("Error processing " ++ type q ++ " " ++ id job ++ ":") error
                 :: evs)%list)
  ∧ (awaiting (settle q outcome).1 = None
     ∨ ∃ next, awaiting (settle q outcome).1 = Some next ∧ In next (queue q)
               ∧ (List.length (queue (settle q outcome).1)
                  < List.length (queue q))%nat).
Proof.
  intros (Hnd & Hset & Hproc & Hidle) Haw. unfold settle. rewrite Haw.
  unfold tracked in Hnd, Hset. rewrite Haw in Hnd, Hset. simpl in Hnd, Hset.
  apply NoDup_cons in Hnd as [Hnotin Hnd]. rewrite list_elem_of_In in Hnotin.
  set (q' := {| queue := queue q; isProcessing := isProcessing q;
                jobSet := jobSet q ∖ {[id job]};
                type := type q; awaiting := None |}).
  destruct (loop_spec (queue q) q' Hnd) as (Hco & Hinv & Hty & Hnext).
  { intros i. unfold q'. simpl. rewrite elem_of_difference, elem_of_singleton, Hset.
    split; [intros [[?|?] ?]; [congruence|done]|].
    intros Hin. split; [by right|]. by intros ->. }
  change (queue q') with (queue q).
  destruct (loop (queue q) q') as [q'' evs] eqn:Hloop. simpl in *.
  split; [done|]. split.
  - destruct Hco as (_ & Hset'' & _). rewrite Hset''. unfold tracked.
    rewrite map_app. intros Hin. apply in_app_or in Hin.
    apply Hnotin. rewrite <- Hinv, map_app. apply in_or_app. right.
    destruct Hin as [Hin|Hin]; [|done].
    destruct Hnext as [Hn|(next & Hn & Hin' & _)]; rewrite Hn in Hin; [done|].
    simpl in Hin. destruct Hin as [Hin|[]].
    exfalso. apply Hnotin. rewrite <- Hin. by apply in_map.
  - split; [by rewrite invoked_app; destruct outcome|].
    split; [|done]. intros error ->. by eexists.
Qed.

Lemma settle_idle q outcome : awaiting q = None → settle q outcome = (q, []).
Proof. intros Hnone. unfold settle. by rewrite Hnone. Qed.

Lemma step_coherent q i : coherent q → coherent (step q i).1.
Proof.
  intros Hco. destruct i as [i t|outcome]; simpl.
  - destruct (decide (i ∈ jobSet q)) as [Hin|Hfresh].
    + by rewrite enqueue_duplicate.
    + by apply enqueue_fresh.
  - destruct (awaiting q) as [job|] eqn:Haw.
    + by apply (settle_awaited q job).
    + by rewrite settle_idle.
Qed.

Lemma reachable_coherent q : reachable q → coherent q.
Proof.
  induction 1 as [queueType|q i _ IH]; [apply constructor_coherent|by apply step_coherent].
Qed.

End QueueInvariant.

Section QueueProperties.
Import Queue.

(** Every input calls the tasks of the jobs that leave the queue and of no
    other job. *)
Lemma step_conservation q i :
  coherent q →
  (invoked (step q i).2 ++ queue (step q i).1)%list
  = (queue q ++ accepted q [i])%list.
Proof.
  intros Hco. destruct i as [i t|outcome]; simpl.
  - destruct (decide (i ∈ jobSet q)) as [Hin|Hfresh].
    + rewrite enqueue_duplicate by done. rewrite bool_decide_eq_true_2 by done.
      simpl. by rewrite app_nil_r.
    + rewrite bool_decide_eq_false_2 by done. simpl.
      by destruct (enqueue_fresh q i t Hco Hfresh) as (_ & -> & _).
  - rewrite app_nil_r. destruct (awaiting q) as [job|] eqn:Haw.
    + by destruct (settle_awaited q job outcome Hco Haw) as (_ & _ & -> & _).
    + by rewrite settle_idle.
Qed.

(** Over any sequence of inputs, the tasks called are those of the accepted
    jobs that are no longer queued, each once, in the order of arrival. *)
Lemma run_conservation inputs q :
  coherent q →
  (invoked (run q inputs).2 ++ queue (run q inputs).1)%list
  = (queue q ++ accepted q inputs)%list.
Proof.
  revert q. induction inputs as [|i inputs IH]; intros q Hco; simpl.
  - by rewrite app_nil_r.
  - pose proof (step_conservation q i Hco) as Hstep. simpl in Hstep.
    rewrite app_nil_r in Hstep.
    pose proof (IH (step q i).1 (step_coherent q i Hco)) as Hrun.
    destruct (step q i) as [q' evs]. simpl in Hstep, Hrun |- *.
    destruct (run q' inputs) as [q'' evs']. simpl in Hrun |- *.
    rewrite invoked_app, <- app_assoc, Hrun, !app_assoc. by rewrite Hstep.
Qed.


(** Once nothing more is enqueued, as many settlements as there are jobs
    running or queued get the task of every queued job called, whatever
    the outcomes are. *)
Lemma settle_all outcomes q :
  coherent q →
  (List.length (option_list (awaiting q) ++ queue q) ≤ List.length outcomes)%nat →
  invoked (run q (List.map Settle outcomes)).2 = queue q
  ∧ awaiting (run q (List.map Settle outcomes)).1 = None
  ∧ queue (run q (List.map Settle outcomes)).1 = [].
Proof.
  revert q. induction outcomes as [|o outcomes IH]; intros q Hco Hlen; simpl.
  - destruct (awaiting q); simpl in Hlen; [lia|].
    destruct (queue q); simpl in Hlen; [done|lia].
  - destruct (awaiting q) as [job|] eqn:Haw.
    + destruct (settle_awaited q job o Hco Haw) as (Hco' & _ & Hinv & _ & Hnext).
      destruct (settle q o) as [q' evs]. simpl in *.
      destruct (IH q' Hco') as (Hinv' & Hidle & Hempty).
      { destruct Hnext as [Hn|(next & Hn & _ & Hlt)]; rewrite Hn; simpl; [|lia].
        destruct Hco' as (_ & _ & _ & Hq). rewrite (Hq Hn). simpl. lia. }
      destruct (run q' (List.map Settle outcomes)) as [q'' evs']. simpl in *.
      split; [|done]. by rewrite invoked_app, Hinv'.
    + rewrite settle_idle by done.
      destruct Hco as (Hnd & Hset & Hproc & Hq) eqn:Hsplit. clear Hsplit.
      destruct (IH q Hco) as (Hinv' & Hidle & Hempty).
      { rewrite Haw, (Hq Haw). simpl. lia. }
      destruct (run q (List.map Settle outcomes)) as [q'' evs']. simpl in *. done.
Qed.

(** C9.  When the promise of the running job is rejected, the error is
    logged, the id of the job is released, and the loop goes on: the task
    of the next queued job is called in the same turn.  A task that throws
    when it is called is handled the same way inside [enqueue], which
    returns.  And whatever the outcomes, once each running job has settled
    the task of every queued job has been called, in the order of
    arrival. *)
Theorem task_error_is_logged_and_the_loop_goes_on (q : Queue) :
  reachable q →
  (∀ job error,
      awaiting q = Some job →
      (id job ∉ jobSet (settle q (Rejected error)).1)
      ∧ (invoked (settle q (Rejected error)).2
         ++ queue (settle q (Rejected error)).1)%list = queue q
      ∧ ∀ next rest,
          queue q = next :: rest →
          ∃ evs,
            (settle q (Rejected error)).2
            = LogError ("Error processing " ++ type q ++ " " ++ id job ++ ":") error
              :: Log "info" ("Processing " ++ type q ++ " " ++ id next)
              :: Invoke next :: evs)
  ∧ (∀ i name error,
        i ∉ jobSet q → isProcessing q = false →
        let job := {| id := i; task := {| name := name; behaviour := ThrowsAtCall error |} |} in
        (enqueue q i (task job)).2
        = [Log "info" ("Processing " ++ type q ++ " " ++ i);
           Invoke job;
           LogError ("Error processing " ++ type q ++ " " ++ i ++ ":") error]
        ∧ (i ∉ jobSet (enqueue q i (task job)).1)
        ∧ isProcessing (enqueue q i (task job)).1 = false)
  ∧ (∀ outcomes,
        (List.length (tracked q) ≤ List.length outcomes)%nat →
        invoked (run q (List.map Settle outcomes)).2 = queue q
        ∧ awaiting (run q (List.map Settle outcomes)).1 = None
        ∧ queue (run q (List.map Settle outcomes)).1 = []).
Proof.
  intros Hr. pose proof (reachable_coherent q Hr) as Hco.
  split; [|split].
  - intros job error Haw.
    destruct (settle_awaited q job (Rejected error) Hco Haw) as (_ & Hgone & Hinv & _).
    split; [done|]. split; [done|].
    intros next rest Hq. unfold settle. rewrite Haw, Hq. simpl.
    destruct (behaviour (task next)); [|by eexists].
    match goal with |- context [loop rest ?q'] => destruct (loop rest q') end.
    by eexists.
  - intros i name error Hfresh Hidle.
    destruct Hco as (_ & _ & Hproc & Hq).
    assert (Hnone : awaiting q = None).
    { destruct (awaiting q); [|done]. rewrite Hidle in Hproc.
      rewrite bool_decide_eq_true_2 in Hproc; [done|by eexists]. }
    unfold enqueue. rewrite bool_decide_eq_false_2 by done.
    unfold processQueue. simpl. rewrite Hidle, (Hq Hnone). simpl.
    split; [done|]. split; [|done].
    rewrite elem_of_difference, elem_of_singleton. tauto.
  - intros outcomes Hlen. apply settle_all; [done|].
    unfold tracked in Hlen. by rewrite length_map in Hlen.
Qed.

End QueueProperties.


Lemma task_error_is_logged_and_the_loop_goes_on_witness :
  Queue.reachable Samples.busy_with_two_queued
  ∧ Queue.queue Samples.busy_with_two_queued
    = [ {| Queue.id := "b"; Queue.task := Samples.fetch_docs |};
        {| Queue.id := "c"; Queue.task := Samples.fetch_again |} ]
  ∧ Queue.invoked
      (snd (Queue.run Samples.busy_with_two_queued
              (List.map Queue.Settle
                 [Queue.Rejected "timeout"; Queue.Rejected "refused"; Queue.Resolved])))
    = Queue.queue Samples.busy_with_two_queued.
Proof.
  assert (Hr : Queue.reachable Samples.busy_with_two_queued).
  { apply (Queue.reach_step _ (Queue.Enqueue "c" Samples.fetch_again)).
    apply (Queue.reach_step _ (Queue.Enqueue "b" Samples.fetch_docs)).
    apply (Queue.reach_step _ (Queue.Enqueue "a" Samples.fetch_docs)), Queue.reach_new. }
  destruct (task_error_is_logged_and_the_loop_goes_on Samples.busy_with_two_queued Hr)
    as (_ & _ & Hall).
  split; [exact Hr|]. split; [reflexivity|].
  apply (Hall [Queue.Rejected "timeout"; Queue.Rejected "refused"; Queue.Resolved]).
  vm_compute. lia.
Defined.

(** *** The queue at rest, the queue at work *)

Section QueueRunsFacts.
Import Queue QueueRuns.

Lemma run_coherent inputs : ∀ q, coherent q → coherent (run q inputs).1.
Proof.
  induction inputs as [|i inputs IH]; intros q Hco; simpl; [done|].
  pose proof (IH (step q i).1 (step_coherent q i Hco)) as Hrun.
  destruct (step q i) as [q' evs]. simpl in *.
  by destruct (run q' inputs) as [q'' evs'].
Qed.

Lemma run_app inputs inputs' : ∀ q,
  run q (inputs ++ inputs')
  = ((run (run q inputs).1 inputs').1,
     ((run q inputs).2 ++ (run (run q inputs).1 inputs').2)%list).
Proof.
  induction inputs as [|i inputs IH]; intros q; simpl.
  - by destruct (run q inputs').
  - destruct (step q i) as [q' evs]. rewrite IH.
    destruct (run q' inputs) as [q'' evs']. simpl. by rewrite app_assoc.
Qed.

(** A queue that awaits nothing is empty, tracks no id and is not
    processing. *)
Lemma idle_coherent q :
  coherent q → awaiting q = None →
  queue q = [] ∧ jobSet q = ∅ ∧ isProcessing q = false.
Proof.
  intros (Hnd & Hset & Hproc & Hq) Haw.
  pose proof (Hq Haw) as Hqueue. split; [done|]. split.
  - apply set_eq. intros i. rewrite Hset. unfold tracked. rewrite Haw, Hqueue. simpl.
    split; [done|]. intros Hin. by apply not_elem_of_empty in Hin.
  - rewrite Hproc, Haw. apply bool_decide_eq_false_2. by intros [? ?].
Qed.

(** X26.  Between two inputs, a queue whose loop is not suspended holds
    nothing: no job is queued, no id is tracked, [isProcessing] is off.  So
    no id stays refused after its job is done, and the next [enqueue],
    whatever its id, calls its task at once. *)
Theorem idle_queue_tracks_nothing q :
  reachable q →
  awaiting q = None →
  queue q = [] ∧ jobSet q = ∅ ∧ isProcessing q = false
  ∧ ∀ i t, ∃ evs,
      (enqueue q i t).2
      = (Log "info" ("Processing " ++ type q ++ " " ++ i)
         :: Invoke {| id := i; task := t |} :: evs)%list.
Proof.
  intros Hreach Haw. pose proof (reachable_coherent q Hreach) as Hco.
  destruct (idle_coherent q Hco Haw) as (Hqueue & Hset & Hproc).
  split; [done|]. split; [done|]. split; [done|].
  intros i t.
  assert (Hfresh : i ∉ jobSet q) by (rewrite Hset; apply not_elem_of_empty).
  destruct (enqueue_fresh q i t Hco Hfresh) as (_ & _ & _ & Hcall). by apply Hcall.
Qed.

Lemma enqueue_while_running q job i t :
  coherent q → awaiting q = Some job →
  invoked (enqueue q i t).2 = [] ∧ awaiting (enqueue q i t).1 = Some job.
Proof.
  intros Hco Haw.
  destruct (decide (i ∈ jobSet q)) as [Hin|Hfresh].
  - by rewrite enqueue_duplicate.
  - unfold enqueue. rewrite bool_decide_eq_false_2 by done.
    unfold processQueue. simpl.
    destruct Hco as (_ & _ & Hproc & _). rewrite Hproc, Haw.
    rewrite bool_decide_eq_true_2 by (by eexists). done.
Qed.

(** X27.  One task at a time: while the promise of a job is pending,
    [enqueue] calls no task, however many jobs arrive; the running job
    stays the awaited one and the accepted jobs line up behind it, in the
    order of arrival.  A task whose promise never settles holds up every
    job behind it. *)
Theorem running_job_blocks_the_queue q job inputs :
  reachable q →
  awaiting q = Some job →
  forallb is_enqueue inputs = true →
  invoked (run q inputs).2 = []
  ∧ awaiting (run q inputs).1 = Some job
  ∧ queue (run q inputs).1 = (queue q ++ accepted q inputs)%list.
Proof.
  intros Hreach Haw Hall. pose proof (reachable_coherent q Hreach) as Hco.
  assert (Hquiet : invoked (run q inputs).2 = [] ∧ awaiting (run q inputs).1 = Some job).
  { clear Hreach. revert q Hco Haw.
    induction inputs as [|i inputs IH]; intros q Hco Haw; simpl; [done|].
    simpl in Hall. apply andb_prop in Hall as [Hi Hall].
    destruct i as [i t|]; [|done]. simpl.
    destruct (enqueue_while_running q job i t Hco Haw) as [Hnone Hstill].
    pose proof (step_coherent q (Enqueue i t) Hco) as Hco'. simpl in Hco'.
    destruct (enqueue q i t) as [q' evs]. simpl in *.
    destruct (IH Hall q' Hco' Hstill) as [Hnone' Hstill'].
    destruct (run q' inputs) as [q'' evs']. simpl in *.
    by rewrite invoked_app, Hnone, Hnone'. }
  destruct Hquiet as [Hnone Hstill]. split; [done|]. split; [done|].
  pose proof (run_conservation inputs q Hco) as Hcons. by rewrite Hnone in Hcons.
Qed.

(** A job that the loop is left awaiting had its task called. *)
Lemma loop_awaiting pending : ∀ q job,
  awaiting (loop pending q).1 = Some job → In job (invoked (loop pending q).2).
Proof.
  induction pending as [|j rest IH]; intros q job; simpl; [done|].
  destruct (behaviour (task j)).
  - match goal with |- context [loop rest ?q'] => specialize (IH q' job) end.
    destruct (loop rest _) as [q'' evs]. simpl in *. auto.
  - simpl. intros [= ->]. by left.
Qed.

Lemma step_awaiting q i job :
  awaiting (step q i).1 = Some job →
  awaiting q = Some job ∨ In job (invoked (step q i).2).
Proof.
  destruct i as [i t|outcome]; simpl.
  - unfold enqueue. destruct (bool_decide (i ∈ jobSet q)); simpl; [by left|].
    unfold processQueue. simpl. destruct (isProcessing q); simpl; [by left|].
    intros Haw. right. by apply loop_awaiting.
  - unfold settle. destruct (awaiting q) as [running|] eqn:Hrunning;
      [|simpl; intros; congruence].
    match goal with |- context [loop ?p ?q'] =>
      pose proof (loop_awaiting p q' job) as Hloop; destruct (loop p q') as [q'' evs]
    end.
    simpl in *. intros Haw. right. rewrite invoked_app, in_app_iff. right. auto.
Qed.

Lemma run_awaiting inputs : ∀ q job,
  awaiting (run q inputs).1 = Some job →
  awaiting q = Some job ∨ In job (invoked (run q inputs).2).
Proof.
  induction inputs as [|i inputs IH]; intros q job; simpl; [by left|].
  pose proof (step_awaiting q i job) as Hstep.
  pose proof (IH (step q i).1 job) as Hrun.
  destruct (step q i) as [q' evs]. simpl in *.
  destruct (run q' inputs) as [q'' evs']. simpl in *.
  intros Haw. rewrite invoked_app, in_app_iff.
  destruct (Hrun Haw) as [Hq'|Hin]; [|by right; right].
  destruct (Hstep Hq') as [?|?]; [by left|by right; left].
Qed.

(** X28.  No job is lost, none runs twice, none overtakes another: on a
    new queue, after any inputs followed by as many settlements as jobs
    were accepted, the tasks that were called are those of the accepted
    jobs, each once, in the order of arrival, and the queue is at rest,
    empty, with no id tracked. *)
Theorem every_accepted_job_runs_once_in_order queueType inputs outcomes :
  (List.length (accepted (constructor queueType) inputs) ≤ List.length outcomes)%nat →
  invoked (run (constructor queueType) (inputs ++ List.map Settle outcomes)).2
  = accepted (constructor queueType) inputs
  ∧ awaiting (run (constructor queueType) (inputs ++ List.map Settle outcomes)).1 = None
  ∧ queue (run (constructor queueType) (inputs ++ List.map Settle outcomes)).1 = []
  ∧ jobSet (run (constructor queueType) (inputs ++ List.map Settle outcomes)).1 = ∅.
Proof.
  intros Hlen. set (q0 := constructor queueType) in *.
  pose proof (constructor_coherent queueType) as Hco0. fold q0 in Hco0.
  pose proof (run_coherent inputs q0 Hco0) as Hco1.
  pose proof (run_conservation inputs q0 Hco0) as Hcons.
  pose proof (run_awaiting inputs q0) as Haw1.
  rewrite run_app. simpl.
  set (q1 := (run q0 inputs).1) in *. set (evs1 := (run q0 inputs).2) in *.
  change (queue q0) with (@nil Process) in Hcons. simpl in Hcons.
  destruct (settle_all outcomes q1 Hco1) as (Hinv & Hidle & Hempty).
  { rewrite <- Hcons in Hlen. rewrite length_app in Hlen.
    destruct (awaiting q1) as [job|] eqn:Hjob; simpl; [|lia].
    destruct (Haw1 job eq_refl) as [Hnew|Hin]; [done|].
    destruct (invoked evs1); [done|]. simpl in Hlen. lia. }
  rewrite invoked_app, Hinv, Hcons. split; [done|]. split; [done|]. split; [done|].
  pose proof (run_coherent (List.map Settle outcomes) q1 Hco1) as Hco2.
  by destruct (idle_coherent _ Hco2 Hidle) as (_ & ? & _).
Qed.

End QueueRunsFacts.

Lemma idle_queue_tracks_nothing_witness :
  Queue.reachable (fst (Queue.step Samples.busy (Queue.Settle Queue.Resolved)))
  ∧ Queue.awaiting (fst (Queue.step Samples.busy (Queue.Settle Queue.Resolved))) = None
  ∧ Queue.jobSet (fst (Queue.step Samples.busy (Queue.Settle Queue.Resolved))) = ∅.
Proof.
  assert (Hr : Queue.reachable
                 (fst (Queue.step Samples.busy (Queue.Settle Queue.Resolved)))).
  { apply Queue.reach_step.
    apply (Queue.reach_step _ (Queue.Enqueue "a" Samples.fetch_docs)), Queue.reach_new. }
  split; [exact Hr|]. split; [reflexivity|].
  apply (idle_queue_tracks_nothing _ Hr eq_refl).
Defined.

Lemma running_job_blocks_the_queue_witness :
  Queue.reachable Samples.busy
  ∧ Queue.awaiting Samples.busy
    = Some {| Queue.id := "a"; Queue.task := Samples.fetch_docs |}
  ∧ Queue.invoked
      (snd (Queue.run Samples.busy
              [Queue.Enqueue "b" Samples.fetch_docs; Queue.Enqueue "c" Samples.broken;
               Queue.Enqueue "b" Samples.fetch_again]))
    = [].
Proof.
  assert (Hr : Queue.reachable Samples.busy)
    by apply (Queue.reach_step _ (Queue.Enqueue "a" Samples.fetch_docs)), Queue.reach_new.
  split; [exact Hr|]. split; [reflexivity|].
  apply (running_job_blocks_the_queue Samples.busy
           {| Queue.id := "a"; Queue.task := Samples.fetch_docs |}
           [Queue.Enqueue "b" Samples.fetch_docs; Queue.Enqueue "c" Samples.broken;
            Queue.Enqueue "b" Samples.fetch_again] Hr eq_refl eq_refl).
Defined.

Lemma every_accepted_job_runs_once_in_order_witness :
  Queue.invoked
    (snd (Queue.run (Queue.constructor None)
            ([Queue.Enqueue "a" Samples.fetch_docs; Queue.Enqueue "b" Samples.broken;
              Queue.Enqueue "a" Samples.fetch_again; Queue.Enqueue "c" Samples.fetch_again]
             ++ List.map Queue.Settle
                  [Queue.Rejected "timeout"; Queue.Resolved; Queue.Resolved])))
  = [ {| Queue.id := "a"; Queue.task := Samples.fetch_docs |};
      {| Queue.id := "b"; Queue.task := Samples.broken |};
      {| Queue.id := "c"; Queue.task := Samples.fetch_again |} ].
Proof.
  assert (Haccepted :
    Queue.accepted (Queue.constructor None)
      [Queue.Enqueue "a" Samples.fetch_docs; Queue.Enqueue "b" Samples.broken;
       Queue.Enqueue "a" Samples.fetch_again; Queue.Enqueue "c" Samples.fetch_again]
    = [ {| Queue.id := "a"; Queue.task := Samples.fetch_docs |};
        {| Queue.id := "b"; Queue.task := Samples.broken |};
        {| Queue.id := "c"; Queue.task := Samples.fetch_again |} ])
    by (vm_compute; reflexivity).
  rewrite <- Haccepted.
  apply (every_accepted_job_runs_once_in_order None
           [Queue.Enqueue "a" Samples.fetch_docs; Queue.Enqueue "b" Samples.broken;
            Queue.Enqueue "a" Samples.fetch_again; Queue.Enqueue "c" Samples.fetch_again]
           [Queue.Rejected "timeout"; Queue.Resolved; Queue.Resolved]).
  rewrite Haccepted. simpl. lia.
Defined.

(** ** The integration resolvers *)

Section IntegrationFacts.
Import Integrations.

Lemma strict_eq_eq x y : strict_eq x y = true → x = y.
Proof.
  destruct x, y; simpl; try done. intros H. apply String.eqb_eq in H. by subst.
Qed.

Lemma needsDocFetch_closed input oldIntegration :
  needsDocFetch input oldIntegration
  = is_true (documentationPending input)
    || negb (has_text (documentation input)) && has_text (documentationUrl input).
Proof.
  unfold needsDocFetch.
  destruct (is_true (documentationPending input)); [done|].
  destruct (has_text (documentation input)); [done|].
  destruct (has_text (documentationUrl input)) eqn:Hurl; [|done].
  destruct oldIntegration as [old|]; [|done]. simpl.
  destruct (strict_eq (urlHost input) (urlHost old)); [|done].
  destruct (strict_eq (urlPath input) (urlPath old)); [|done].
  destruct (strict_eq (documentationUrl input) (documentationUrl old)) eqn:Hsame; [|done].
  apply strict_eq_eq in Hsame. by rewrite <- Hsame, Hurl.
Qed.

(** X29.  Whether the documentation is fetched depends on the input
    alone: it is, when [documentationPending] is [true], or when the input
    has a documentation URL and no documentation of its own.  The stored
    integration makes no difference, and the [return false] that ends the
    function is never reached with a stored integration at hand. *)
Theorem needsDocFetch_ignores_the_stored_integration input oldIntegration :
  needsDocFetch input oldIntegration
  = (is_true (documentationPending input)
     || negb (has_text (documentation input)) && has_text (documentationUrl input))
  ∧ needsDocFetch input oldIntegration = needsDocFetch input None.
Proof.
  split; [apply needsDocFetch_closed|].
  by rewrite (needsDocFetch_closed input oldIntegration), (needsDocFetch_closed input None).
Qed.

Lemma resolveField_again {A} (new old d : Maybe A) :
  resolveField new (resolveField new old d) d = resolveField new old d.
Proof. destruct new, old, d; done. Qed.

(** X30.  An upsert of the input that was just upserted changes no field
    but [updatedAt]: when the datastore hands back the record it was
    given, the record that the second call builds has the same name, URLs,
    documentation, pending flag, credentials and creation date. *)
Theorem upsert_of_the_same_input_stores_the_same_fields input oldIntegration now now' :
  integration input (Some (integration input oldIntegration now)) now'
  = {| id := id input;
       name := name (integration input oldIntegration now);
       urlHost := urlHost (integration input oldIntegration now);
       urlPath := urlPath (integration input oldIntegration now);
       documentationUrl := documentationUrl (integration input oldIntegration now);
       documentation := documentation (integration input oldIntegration now);
       documentationPending := documentationPending (integration input oldIntegration now);
       credentials := credentials (integration input oldIntegration now);
       createdAt := createdAt (integration input oldIntegration now);
       updatedAt := Value now' |}.
Proof.
  unfold integration at 1. cbn [old_field].
  cbn [name urlHost urlPath documentationUrl documentation credentials createdAt
       integration or_now].
  rewrite !resolveField_again.
  rewrite (needsDocFetch_closed input (Some _)).
  rewrite <- (needsDocFetch_closed input oldIntegration).
  done.
Qed.

End IntegrationFacts.
